(** * mysql-live-select: the live-query engine, embedded and verified

    The development embeds two source files:

    - [src/common.es6]: [applyDiff], [getResultSetDiff],
      [getDiffFromSupplied] and its helper [flattenNotifications] (module
      [Common]), and [getQueryDetails] (module [QueryDetails]);
    - [lib/LiveMysql.js]: [select] and [_removeSelect] (module
      [LiveMysql]), [pause] and [resume] (module [Backend]).

    JavaScript objects live in a store and are referred to by location, so
    that the in-place updates of row objects ([movingRow._index = ...]) and
    the sharing of rows between an old and a new result set are visible.
    Definitions come first (parts I to III), the facts about them follow
    (parts IV to X). *)

From Stdlib Require Import Ascii.
From stdpp Require Import base tactics option list strings numbers gmap
  pretty.
From stdpp Require gmultiset.

Set Warnings "-clear-no-such-hyp".

(* ===================================================================== *)
(** * Part I.  JavaScript values, objects, arrays and the store          *)
(* ===================================================================== *)

Module Js.

(** Primitive values held by the properties of a row.  Numbers are
    restricted to integers (indices, limits and counters are all the code
    computes with). *)
Inductive jsval :=
  | VUndefined
  | VNull
  | VNum (n : Z)
  | VStr (s : string).

#[global] Instance jsval_eq_dec : EqDecision jsval.
Proof. solve_decision. Defined.

(** An object is the list of its own enumerable properties in insertion
    order ([Object.keys] order; the special place JavaScript gives to
    integer-like keys is not modelled). *)
Abbreviation props V := (list (string * V)).

Fixpoint prop_lookup {V} (k : string) (o : props V) : option V :=
  match o with
  | [] => None
  | (k', v) :: o' => if decide (k = k') then Some v else prop_lookup k o'
  end.

(** [o[k] = v]: an existing property keeps its place, a new one goes last. *)
Fixpoint prop_set {V} (k : string) (v : V) (o : props V) : props V :=
  match o with
  | [] => [(k, v)]
  | (k', v') :: o' =>
      if decide (k = k') then (k, v) :: o' else (k', v') :: prop_set k v o'
  end.

(** [delete o[k]]. *)
Fixpoint prop_delete {V} (k : string) (o : props V) : props V :=
  match o with
  | [] => []
  | (k', v') :: o' =>
      if decide (k = k') then prop_delete k o' else (k', v') :: prop_delete k o'
  end.

(** [Object.keys(o)]. *)
Definition keys {V} (o : props V) : list string := o.*1.

Abbreviation obj := (props jsval).

(** [o[k]] read as a value: a missing property reads [undefined]. *)
Definition get (o : obj) (k : string) : jsval :=
  default VUndefined (prop_lookup k o).

(** The store of objects.  A location is the position of its object;
    allocation appends, so a new location is always fresh. *)
Abbreviation loc := nat.
Abbreviation heap := (list obj).

Inductive exn :=
  | TypeError
  | Error (msg : string).

#[global] Instance exn_eq_dec : EqDecision exn.
Proof. solve_decision. Defined.

(** Computations over a state [S] that return or throw.  The state as it
    is when the exception is thrown is kept: updates made before a throw
    stay made. *)
Definition ST (S A : Type) : Type := S → S * (exn + A).

#[global] Instance ST_ret {S} : MRet (ST S) := λ A a s, (s, inr a).

#[global] Instance ST_bind {S} : MBind (ST S) := λ A B f m s,
  match m s with
  | (s', inr a) => f a s'
  | (s', inl e) => (s', inl e)
  end.

Definition throw {S A} (e : exn) : ST S A := λ s, (s, inl e).

(** Unfolding of the monad's operations, for the proofs. *)
Ltac unfold_st := unfold mbind, mret, ST_bind, ST_ret, throw in *.

(** Computations over the store of row objects. *)
Abbreviation M := (ST heap).

(** A new object (an object literal, or the target of a clone). *)
Definition alloc (o : obj) : M loc := λ h, (h ++ [o], inr (length h)).

(** The object at a location (a location outside the store reads as the
    empty object; no location built by the code is outside it). *)
Definition deref (h : heap) (l : loc) : obj := default [] (h !! l).

Definition read (l : loc) : M obj := λ h, (h, inr (deref h l)).

(** The store as it is now (for code that reads many rows at once). *)
Definition current_heap : M heap := λ h, (h, inr h).

(** [row[k]] and [row[k] = v] on a reference. *)
Definition get_prop (l : loc) (k : string) : M jsval :=
  o ← read l; mret (get o k).

Definition set_prop (l : loc) (k : string) (v : jsval) : M unit :=
  λ h, (alter (prop_set k v) l h, inr ()).

(** An array slot holds a row or [undefined]; a hole of a sparse array
    reads [undefined] as well and [filter] skips both, so the two are one
    case. *)
Abbreviation array := (list (option loc)).

(** [a[k]]: out of range, or a negative [k], reads [undefined]. *)
Definition arr_get (a : array) (k : Z) : option loc :=
  if decide (k < 0)%Z then None else mjoin (a !! Z.to_nat k).

(** [a[k] = v].  A negative [k] names a property of the array object and
    no element; past the end the array grows, the gap being holes.  The
    length of a list is not bounded here: JavaScript bounds the length of
    an array by 2^32 - 1 and takes an index at or above 2^32 - 1 for the
    name of a property; arrays that long are outside the model. *)
Definition arr_set (a : array) (k : Z) (v : option loc) : array :=
  if decide (k < 0)%Z then a
  else
    let i := Z.to_nat k in
    if decide (i < length a) then <[i := v]> a
    else a ++ replicate (i - length a) None ++ [v].

(** [a.filter(row => row !== undefined)]. *)
Definition compact (a : array) : list loc := omap id a.

(** ** Strings as numbers

    What [ToNumber] makes of a string, where the string writes an
    integer: white space is trimmed, the empty string is 0, and the
    literal is hexadecimal, octal or binary ([0x], [0o], [0b], unsigned),
    or decimal with an optional sign, fraction and exponent.  Any other
    string ([Infinity] included) is no integer ([None]), and so is a
    literal whose value has a fractional part.  Numbers being integers in
    the model, the rounding to double precision is not modelled, and
    white space is the ASCII one (tab to carriage return, and space). *)
Definition is_space (c : ascii) : bool :=
  let n := nat_of_ascii c in
  (Nat.leb 9 n && Nat.leb n 13) || Nat.eqb n 32.

(** The value of a digit in a base up to 16. *)
Definition digit_of (base : Z) (c : ascii) : option Z :=
  let n := Z.of_nat (nat_of_ascii c) in
  d ← (if (48 <=? n)%Z && (n <=? 57)%Z then Some (n - 48)%Z
       else if (97 <=? n)%Z && (n <=? 102)%Z then Some (n - 87)%Z
       else if (65 <=? n)%Z && (n <=? 70)%Z then Some (n - 55)%Z
       else None);
  if (d <? base)%Z then Some d else None.

(** The number that one or more digits write. *)
Definition digits_value (base : Z) (s : list ascii) : option Z :=
  match s with
  | [] => None
  | _ => foldl (λ acc c, n ← acc; d ← digit_of base c;
                         Some (n * base + d)%Z) (Some 0%Z) s
  end.

(** The decimal digits a text starts with, and what follows them. *)
Fixpoint leading_digits (s : list ascii) : list ascii * list ascii :=
  match s with
  | c :: s' =>
      if digit_of 10 c is Some _ then
        let '(ds, rest) := leading_digits s' in (c :: ds, rest)
      else ([], s)
  | [] => ([], [])
  end.

Fixpoint drop_spaces (s : list ascii) : list ascii :=
  match s with
  | c :: s' => if is_space c then drop_spaces s' else s
  | [] => []
  end.

Definition trim (s : list ascii) : list ascii :=
  reverse (drop_spaces (reverse (drop_spaces s))).

(** The exponent after [e]: digits with an optional sign. *)
Definition signed_digits (s : list ascii) : option Z :=
  match s with
  | "+"%char :: ds => digits_value 10 ds
  | "-"%char :: ds => Z.opp <$> digits_value 10 ds
  | _ => digits_value 10 s
  end.

(** An unsigned decimal literal: digits, [.] and digits, with one digit
    at least, and an exponent or none. *)
Definition unsigned_decimal (s : list ascii) : option Z :=
  let '(int_digits, rest) := leading_digits s in
  let '(frac_digits, rest) :=
    match rest with
    | "."%char :: rest' => leading_digits rest'
    | _ => ([], rest)
    end in
  exponent ← match rest with
             | [] => Some 0%Z
             | "e"%char :: ds | "E"%char :: ds => signed_digits ds
             | _ => None
             end;
  mantissa ← digits_value 10 (int_digits ++ frac_digits);
  let shift := (exponent - Z.of_nat (length frac_digits))%Z in
  if (0 <=? shift)%Z then Some (mantissa * 10 ^ shift)%Z
  else if (mantissa mod 10 ^ (- shift) =? 0)%Z
       then Some (mantissa / 10 ^ (- shift))%Z
       else None.

Definition string_to_integer (s : string) : option Z :=
  match trim (String.list_ascii_of_string s) with
  | [] => Some 0%Z
  | "0"%char :: "x"%char :: ds | "0"%char :: "X"%char :: ds =>
      digits_value 16 ds
  | "0"%char :: "o"%char :: ds | "0"%char :: "O"%char :: ds =>
      digits_value 8 ds
  | "0"%char :: "b"%char :: ds | "0"%char :: "B"%char :: ds =>
      digits_value 2 ds
  | "+"%char :: ds => unsigned_decimal ds
  | "-"%char :: ds => Z.opp <$> unsigned_decimal ds
  | ds => unsigned_decimal ds
  end.

(** [v - 1] used as an array index, when [v] is the value of a property.
    [null - 1] is [-1]; a string counts as the number it writes (['3' - 1]
    is [2]); [undefined - 1] and [s - 1] for a string that writes no
    integer name no element ([None]). *)
Definition minus_one (v : jsval) : option Z :=
  match v with
  | VNum n => Some (n - 1)%Z
  | VNull => Some (-1)%Z
  | VStr s => (λ n, (n - 1)%Z) <$> string_to_integer s
  | VUndefined => None
  end.

(** [l.forEach(x => body)] where the body updates the locals [s]. *)
Fixpoint forEach {T A S} (body : A → S → ST T S) (l : list A) (s : S)
    : ST T S :=
  match l with
  | [] => mret s
  | x :: l' => s' ← body x s; forEach body l' s'
  end.

(** [l !== null && l.forEach(...)]. *)
Definition unless_null {T A S} (l : option (list A))
    (body : A → S → ST T S) (s : S) : ST T S :=
  match l with
  | None => mret s
  | Some l => forEach body l s
  end.

(** [_.clone(x)]: a shallow copy of an object; [undefined] is returned as
    it is. *)
Definition clone (x : option loc) : M (option loc) :=
  match x with
  | None => mret None
  | Some l => o ← read l; l' ← alloc o; mret (Some l')
  end.

(** A partial result, its failure thrown as [e]. *)
Definition or_throw {T A} (e : exn) (x : option A) : ST T A :=
  match x with
  | Some a => mret a
  | None => throw e
  end.

(** [x[k] = v] where [x] may be [undefined] (then a TypeError). *)
Definition assign (x : option loc) (k : string) (v : jsval) : M unit :=
  match x with
  | None => throw TypeError
  | Some l => set_prop l k v
  end.

End Js.

(* ===================================================================== *)
(** * Part II.  src/common.es6                                           *)
(* ===================================================================== *)

Module Removed.
Record t := mk { _index : Z }.
End Removed.

Module Moved.
Record t := mk { old_index : Z; new_index : Z }.
End Moved.

Module Copied.
Record t := mk { orig_index : Z; new_index : Z }.
End Copied.

Module Common.
Import Js.

(** The diff object.  Each list may be [null] ([None]).  [added] holds the
    added row objects themselves; the other entries are records of
    numbers. *)
Record Diff := mkDiff {
  removed : option (list Removed.t);
  moved : option (list Moved.t);
  copied : option (list Copied.t);
  added : option (list loc)
}.

(** [applyDiff(data, diff)], common.es6 lines 329-356.  [newResults] is
    the local copy [data.slice()]; [data] itself is never written. *)
Definition applyDiff (data : array) (diff : Diff) : M (list loc) :=
  let newResults := data in
  newResults ← unless_null (removed diff) (λ removed newResults,
    mret (arr_set newResults (Removed._index removed - 1) None)) newResults;
  newResults ← unless_null (moved diff) (λ moved newResults,
    mret (arr_set newResults (Moved.old_index moved - 1) None)) newResults;
  newResults ← unless_null (copied diff) (λ copied newResults,
    copyRow ← clone (arr_get data (Copied.orig_index copied - 1));
    assign copyRow "_index" (VNum (Copied.new_index copied));;
    mret (arr_set newResults (Copied.new_index copied - 1) copyRow)) newResults;
  newResults ← unless_null (moved diff) (λ moved newResults,
    let movingRow := arr_get data (Moved.old_index moved - 1) in
    assign movingRow "_index" (VNum (Moved.new_index moved));;
    mret (arr_set newResults (Moved.new_index moved - 1) movingRow)) newResults;
  newResults ← unless_null (added diff) (λ added newResults,
    i ← get_prop added "_index";
    mret (match minus_one i with
          | Some k => arr_set newResults k (Some added)
          | None => newResults
          end)) newResults;
  mret (compact newResults).

(** A diff with its [null] lists replaced by empty lists, and the diff
    whose four lists are [null]. *)
Definition nulls_as_empty (diff : Diff) : Diff :=
  mkDiff (Some (default [] (removed diff))) (Some (default [] (moved diff)))
         (Some (default [] (copied diff))) (Some (default [] (added diff))).

Definition null_diff : Diff := mkDiff None None None None.

(** ** Section 4.2 of the specification, phase by phase

    The six steps as the specification words them, each a function of its
    own.  A write phase is given the original [data] and the entries of
    the diff, and yields the slots to write with the rows to put there;
    it is not given the working copy. *)

(** Writing a list of (slot, row) pairs into the working copy, in order. *)
Definition write_slots (ws : list (Z * option loc)) (w : array) : array :=
  foldl (λ w kv, arr_set w kv.1 kv.2) w ws.

(** Steps 1 and 2: "null out" the 1-based positions [ps]. *)
Definition null_slots (ps : list Z) (w : array) : array :=
  write_slots ((λ p, ((p - 1)%Z, None)) <$> ps) w.

(** Step 3: "clone oldData[orig_index-1], set _index = new_index, write at
    new_index-1". *)
Definition copied_rows (data : array) (cs : list Copied.t)
    : M (list (Z * option loc)) :=
  mapM (λ c,
    copyRow ← clone (arr_get data (Copied.orig_index c - 1));
    assign copyRow "_index" (VNum (Copied.new_index c));;
    mret ((Copied.new_index c - 1)%Z, copyRow)) cs.

(** Step 4: "take oldData[old_index-1], set _index = new_index, write at
    new_index-1". *)
Definition moved_rows (data : array) (ms : list Moved.t)
    : M (list (Z * option loc)) :=
  mapM (λ m,
    let movingRow := arr_get data (Moved.old_index m - 1) in
    assign movingRow "_index" (VNum (Moved.new_index m));;
    mret ((Moved.new_index m - 1)%Z, movingRow)) ms.

(** Step 5: "write at _index-1" (an [_index] that is no number names no
    slot). *)
Definition added_rows (rows : list loc) : M (list (Z * option loc)) :=
  slots ← mapM (λ added, i ← get_prop added "_index";
                         mret (minus_one i, added)) rows;
  mret (omap (λ '(k, added), (λ k : Z, (k, Some added)) <$> k) slots).

(** Steps 1 to 6 in the order of section 4.2; step 6 is [compact]. *)
Definition applyDiff_phases (data : array) (diff : Diff) : M (list loc) :=
  let w := data in
  let w := null_slots (Removed._index <$> default [] (removed diff)) w in
  let w := null_slots (Moved.old_index <$> default [] (moved diff)) w in
  cw ← copied_rows data (default [] (copied diff));
  let w := write_slots cw w in
  mw ← moved_rows data (default [] (moved diff));
  let w := write_slots mw w in
  aw ← added_rows (default [] (added diff));
  let w := write_slots aw w in
  mret (compact w).

(** The rows of [data] that the [moved] entries of a diff refer to. *)
Definition moved_sources (data : array) (diff : Diff) : list loc :=
  omap (λ m, arr_get data (Moved.old_index m - 1))
       (default [] (moved diff)).

(** [o'] is [o] except, possibly, for its [_index]. *)
Definition same_but_index (o o' : obj) : Prop :=
  ∀ k, k ≠ "_index" → get o' k = get o k.

(** [frame P h h']: every object of [h] is still in [h'], and is the
    same, or the same with its [_index] set to a value [v] that [P]
    allows at that location. *)
Definition frame (P : loc → jsval → Prop) (h h' : heap) : Prop :=
  ∀ l o, h !! l = Some o →
    ∃ o', h' !! l = Some o'
          ∧ (o' = o ∨ ∃ v, P l v ∧ o' = prop_set "_index" v o).

(** What a [moved] entry of [diff] may write: the [_index] of the row it
    refers to, set to its [new_index]. *)
Definition moved_write (data : array) (diff : Diff) (l : loc) (v : jsval)
    : Prop :=
  ∃ m, m ∈ default [] (moved diff)
       ∧ arr_get data (Moved.old_index m - 1) = Some l
       ∧ v = VNum (Moved.new_index m).

(** Rows that are pairwise distinct objects of the store [h]. *)
Definition distinct_rows (h : heap) (rows : list loc) : Prop :=
  NoDup rows ∧ ∀ l, l ∈ rows → (l < length h)%nat.

(** ** The differ

    [collectionDiff.es6] is required by common.es6 and is not among the
    sources; section 4.1 of the specification describes it. *)

(** [l.indexOf(x)] ([None] for -1). *)
Fixpoint indexOf (x : jsval) (l : list jsval) : option nat :=
  match l with
  | [] => None
  | y :: l' => if decide (x = y) then Some 0%nat else S <$> indexOf x l'
  end.

(** Number of occurrences of [x] in [l]. *)
Definition occurrences (x : jsval) (l : list jsval) : nat :=
  length (filter (x =.) l).

(** A sequence with its 0-based positions. *)
Definition enumerate {A} (l : list A) : list (nat * A) :=
  imap (λ i x, (i, x)) l.

(** Modelled from the spec: [added] of section 4.1, "rows whose hash did
    not appear in oldHashes", each row as it stands. *)
Definition diff_added (oldHashes : list jsval)
    (newRows : list (jsval * loc)) : list loc :=
  omap (λ r, if decide (r.1 ∈ oldHashes) then None else Some r.2) newRows.

(** Modelled from the spec: [removed] of section 4.1, "positions in
    oldHashes whose hash is absent from newRows", by ascending old index. *)
Definition diff_removed (oldHashes newHashes : list jsval)
    : list Removed.t :=
  omap (λ '(i, x),
          if decide (x ∈ newHashes) then None
          else Some (Removed.mk (Z.of_nat i + 1)))
       (enumerate oldHashes).

(** Modelled from the spec: [moved] of section 4.1, "a hash present in
    both but at different positions", where "identity is matched on first
    occurrence in each sequence"; by ascending new index. *)
Definition diff_moved (oldHashes newHashes : list jsval) : list Moved.t :=
  omap (λ '(j, x),
          match indexOf x oldHashes with
          | Some i =>
              if decide (indexOf x newHashes = Some j ∧ i ≠ j)
              then Some (Moved.mk (Z.of_nat i + 1) (Z.of_nat j + 1))
              else None
          | None => None
          end)
       (enumerate newHashes).

(** Modelled from the spec: [copied] of section 4.1, "when a hash occurs
    more times in newRows than in oldHashes; additional occurrences are
    copies of the first original occurrence": the occurrence at new
    position [j] is additional when the positions before [j] already hold
    as many occurrences as the old sequence has. *)
Definition diff_copied (oldHashes newHashes : list jsval)
    : list Copied.t :=
  omap (λ '(j, x),
          match indexOf x oldHashes with
          | Some i =>
              if decide (occurrences x oldHashes
                           ≤ occurrences x (take j newHashes))%nat
              then Some (Copied.mk (Z.of_nat i + 1) (Z.of_nat j + 1))
              else None
          | None => None
          end)
       (enumerate newHashes).

(** Modelled from the spec: the differ of section 4.1 on the old hashes
    and the new rows paired with their hashes; "no change" ([None]) iff
    the four lists are empty. *)
Definition differ (oldHashes : list jsval) (newRows : list (jsval * loc))
    : option Diff :=
  let newHashes := newRows.*1 in
  let a := diff_added oldHashes newRows in
  let r := diff_removed oldHashes newHashes in
  let m := diff_moved oldHashes newHashes in
  let c := diff_copied oldHashes newHashes in
  match a, r, m, c with
  | [], [], [], [] => None
  | _, _, _, _ => Some (mkDiff (Some r) (Some m) (Some c) (Some a))
  end.

(** [rows.map(row => row._hash)]. *)
Definition hashes (rows : list loc) : M (list jsval) :=
  mapM (λ row, get_prop row "_hash") rows.

(** Modelled from the spec: [collectionDiff(oldHashes, newData)], the
    differ applied to the rows' [_hash] properties.  It reads the store
    and changes nothing. *)
Definition collectionDiff (oldHashes : list jsval) (newData : list loc)
    : M (option Diff) :=
  newHashes ← hashes newData;
  mret (differ oldHashes (zip newHashes newData)).

(** ** What common.es6 takes from outside

    The database, the hash and JSON libraries, lodash's comparison and the
    WHERE matcher of [matchRowsToParsedQuery] (a module that is not among
    the sources).  [Where] is the parser's representation of a WHERE
    clause. *)
Class Externals := {
  Where : Type;
  (** [md5.digest_s] and [JSON.stringify]. *)
  md5_digest_s : string → string;
  JSON_stringify : obj → string;
  (** lodash's [baseCompareAscending], the comparison behind [sortByOrder]. *)
  baseCompareAscending : jsval → jsval → comparison;
  (** Whether a candidate row satisfies a WHERE clause under the
      parameter bindings. *)
  where_matches : Where → list jsval → obj → bool;
  (** The rows the database returns for the statement [getResultSetDiff]
      builds from [query] and [oldHashes], allocated in the store, or the
      rejection of the query. *)
  performQuery : string → list jsval → list jsval → M (list loc)
}.

Section with_externals.
Context `{Externals}.

(** The parsed query (parser contract): the select-list, WHERE, ORDER BY
    and LIMIT. *)
Inductive field_item :=
  | Star
  | Field (field_value : string) (name : option string).

Record ordering := mkOrdering {
  ordering_value : string;
  direction : string
}.

Record ParsedQuery := mkParsed {
  fields : list field_item;
  where_ : Where;
  order : option (list ordering);
  limit : option Z
}.

(** A NOTIFY payload: [op] and the array-valued properties ([data], or
    [new_data] and [old_data]) holding row objects. *)
Record Payload := mkPayload {
  op : string;
  arrays : props (list obj)
}.

(** [flattenNotifications], common.es6 lines 361-382.  [pushItem] reads
    [payload[key][0]] only.  A missing property or an empty array makes
    the assignment [data._op = ...] a TypeError. *)
Definition pushItem (payload : Payload) (key : string) (index : nat)
    (out : list obj) : M (list obj) :=
  match prop_lookup key (arrays payload) with
  | None => throw TypeError
  | Some rows =>
      match head rows with
      | None => throw TypeError
      | Some row =>
          let data := row in
          let data := prop_set "_op" (VStr (op payload)) data in
          let data := prop_set "_key" (VStr key) data in
          let data := prop_set "_index" (VNum (Z.of_nat index)) data in
          mret (out ++ [data])
      end
  end.

Definition flattenNotifications (notifications : list Payload)
    : M (list obj) :=
  forEach (λ '(index, payload) out,
    if decide (op payload = "UPDATE") then
      out ← pushItem payload "new_data" index out;
      pushItem payload "old_data" index out
    else
      pushItem payload "data" index out)
    (enumerate notifications) [].

(** Modelled from the spec: [matchRows] of the module
    [matchRowsToParsedQuery], "the subset of rows whose column values
    satisfy the query's WHERE clause" (section 4.3). *)
Definition matchRows (allRows : list obj) (parsed : ParsedQuery)
    (params : list jsval) : list obj :=
  List.filter (where_matches (where_ parsed) params) allRows.

(** [s.toUpperCase()] on ASCII letters. *)
Definition upper_ascii (c : Ascii.ascii) : Ascii.ascii :=
  let n := Ascii.nat_of_ascii c in
  if Nat.leb 97 n && Nat.leb n 122 then Ascii.ascii_of_nat (n - 32) else c.

Fixpoint toUpperCase (s : string) : string :=
  match s with
  | EmptyString => EmptyString
  | String c s' => String (upper_ascii c) (toUpperCase s')
  end.

(** lodash's [_.sortByOrder(collection, props, orders)]: a stable sort by
    the listed properties, each ascending when its order is [true]. *)
Fixpoint compareMultiple (object other : list jsval) (orders : list bool)
    : comparison :=
  match object, other with
  | x :: xs, y :: ys =>
      match baseCompareAscending x y with
      | Eq => compareMultiple xs ys (tail orders)
      | c => match orders with
             | [] => c
             | o :: _ => if o then c else CompOpp c
             end
      end
  | _, _ => Eq
  end.

Fixpoint insert_stable {A} (gt : A → A → bool) (x : A) (l : list A)
    : list A :=
  match l with
  | [] => [x]
  | y :: l' => if gt y x then x :: y :: l' else y :: insert_stable gt x l'
  end.

Definition sort_stable {A} (gt : A → A → bool) (l : list A) : list A :=
  foldl (λ sorted x, insert_stable gt x sorted) [] l.

Definition sortByOrder (h : heap) (collection : list loc)
    (sortProps : list string) (orders : list bool) : list loc :=
  let criteria row := (λ p, get (deref h row) p) <$> sortProps in
  sort_stable
    (λ a b, match compareMultiple (criteria a) (criteria b) orders with
            | Gt => true
            | _ => false
            end)
    collection.

(** [a.slice(0, n)]: a negative [n] counts from the end. *)
Definition slice0 {A} (a : list A) (n : Z) : list A :=
  if decide (n < 0)%Z then take (Z.to_nat (Z.of_nat (length a) + n)) a
  else take (Z.to_nat n) a.

(** [getResultSetDiff], common.es6 lines 289-321. *)
Definition getResultSetDiff (currentData : list loc) (query : string)
    (params : list jsval) : M (option (Diff * list loc)) :=
  oldHashes ← hashes currentData;
  result_rows ← performQuery query oldHashes params;
  diff ← collectionDiff oldHashes result_rows;
  match diff with
  | None => mret None
  | Some diff =>
      newData ← applyDiff (Some <$> currentData) diff;
      mret (Some (diff, newData))
  end.

(** Modelled from the spec: [collectionDiff(oldHashes, newData)] with the
    differ as a parameter: a function [d] of the store, the old hashes
    and the new rows.  Section 4.1 gives the differ an input and an
    output and no effect, so the store is left as it is. *)
Definition collectionDiff_with
    (d : heap → list jsval → list loc → option Diff)
    (oldHashes : list jsval) (newData : list loc) : M (option Diff) :=
  λ h, (h, inr (d h oldHashes newData)).

(** [getResultSetDiff], common.es6 lines 289-321, with the differ [d] in
    the place of [collectionDiff]. *)
Definition getResultSetDiff_with
    (d : heap → list jsval → list loc → option Diff)
    (currentData : list loc) (query : string) (params : list jsval)
    : M (option (Diff * list loc)) :=
  oldHashes ← hashes currentData;
  result_rows ← performQuery query oldHashes params;
  diff ← collectionDiff_with d oldHashes result_rows;
  match diff with
  | None => mret None
  | Some diff =>
      newData ← applyDiff (Some <$> currentData) diff;
      mret (Some (diff, newData))
  end.

(** The select-list is the single item [*]. *)
Definition is_lone_star (fs : list field_item) : bool :=
  match fs with
  | [Star] => true
  | _ => false
  end.

(** Lines 208-213: the map from selected column to output name.  An item
    that is no plain field has no [field] property: [item.field.value]
    is a TypeError ([None]). *)
Fixpoint columnsSelected_of (fs : list field_item)
    (columnsSelected : props string) : option (props string) :=
  match fs with
  | [] => Some columnsSelected
  | Star :: _ => None
  | Field field_value name :: fs' =>
      columnsSelected_of fs'
        (prop_set field_value (default field_value name) columnsSelected)
  end.

(** Lines 215-220: the row rebuilt with the selected columns under their
    output names. *)
Definition reform (fs : list field_item) (cleanRow : obj) : option obj :=
  columnsSelected ← columnsSelected_of fs [];
  Some (foldl (λ (reformedRow : obj) column,
          prop_set (default "" (prop_lookup column columnsSelected))
                   (get cleanRow column) reformedRow)
        [] (keys columnsSelected)).

(** Lines 198-223: the candidate row stripped, projected and hashed
    ([None]: the TypeError of the projection). *)
Definition cleanRow_of (parsed : ParsedQuery) (matchRow : obj)
    : option obj :=
  let cleanRow := matchRow in
  let cleanRow := prop_delete "_op" cleanRow in
  let cleanRow := prop_delete "_key" cleanRow in
  let cleanRow := prop_delete "_index" cleanRow in
  cleanRow ← (if is_lone_star (fields parsed) then Some cleanRow
              else reform (fields parsed) cleanRow);
  Some (prop_set "_hash"
          (VStr (md5_digest_s (JSON_stringify cleanRow))) cleanRow).

(** The row is a DELETE, or the old image of an UPDATE. *)
Definition is_deletion (matchRow : obj) : bool :=
  bool_decide (get matchRow "_op" = VStr "DELETE")
  || (bool_decide (get matchRow "_op" = VStr "UPDATE")
      && bool_decide (get matchRow "_key" = VStr "old_data")).

(** The row is an INSERT, or the new image of an UPDATE. *)
Definition is_insertion (matchRow : obj) : bool :=
  bool_decide (get matchRow "_op" = VStr "INSERT")
  || (bool_decide (get matchRow "_op" = VStr "UPDATE")
      && bool_decide (get matchRow "_key" = VStr "new_data")).

(** Lines 196-242: the loop over the matched rows; its locals are
    [newData] and [hasDelete]. *)
Definition match_loop (parsed : ParsedQuery) (oldHashes : list jsval)
    (matched : list obj) (newData : array)
    : M (array * bool) :=
  forEach (λ matchRow '(newData, hasDelete),
    cleanRow ← or_throw TypeError (cleanRow_of parsed matchRow);
    let curIndex := indexOf (get cleanRow "_hash") oldHashes in
    let '(newData, hasDelete) :=
      match curIndex with
      | Some i =>
          if is_deletion matchRow
          then (arr_set newData (Z.of_nat i) None, true)
          else (newData, hasDelete)
      | None => (newData, hasDelete)
      end in
    if is_insertion matchRow then
      let cleanRow := prop_set "_added" (VNum 1) cleanRow in
      pushed ← alloc cleanRow;
      mret (newData ++ [Some pushed], hasDelete)
    else mret (newData, hasDelete))
    matched (newData, false).

(** Lines 269-272: [newData[index]._index = index + 1] for each index. *)
Definition fix_indexes (newData : list loc) : M unit :=
  forEach (λ index (_ : unit),
    assign (newData !! index) "_index" (VNum (Z.of_nat index + 1)))
    (seq 0 (length newData)) ().

(** The refusal test of lines 244-246. *)
Definition refuses (hasDelete : bool) (parsed : ParsedQuery)
    (currentData : list loc) : bool :=
  hasDelete
  && match limit parsed with
     | Some value => bool_decide (value = Z.of_nat (length currentData))
     | None => false
     end.

(** [getDiffFromSupplied], common.es6 lines 183-279. *)
Definition getDiffFromSupplied (currentData : list loc)
    (notifications : list Payload) (query : string) (parsed : ParsedQuery)
    (params : list jsval) : M (option (Diff * list loc)) :=
  allRows ← flattenNotifications notifications;
  let matched := matchRows allRows parsed params in
  if decide (length matched = 0%nat) then mret None else
  oldHashes ← hashes currentData;
  let newData := Some <$> currentData in
  '(newData, hasDelete) ← match_loop parsed oldHashes matched newData;
  if refuses hasDelete parsed currentData then
    getResultSetDiff currentData query params
  else
    let newData := compact newData in
    newData ← (match order parsed with
               | Some orderings =>
                   let sortProps := ordering_value <$> orderings in
                   let sortOrders :=
                     (λ o, bool_decide (toUpperCase (direction o) = "ASC"))
                       <$> orderings in
                   h ← current_heap;
                   mret (sortByOrder h newData sortProps sortOrders)
               | None => mret newData
               end);
    let newData := match limit parsed with
                   | Some value => slice0 newData value
                   | None => newData
                   end in
    fix_indexes newData;;
    diff ← collectionDiff oldHashes newData;
    match diff with
    | None => mret None
    | Some diff => mret (Some (diff, newData))
    end.

(** A matched row that marks a slot as removed: a deletion whose cleaned
    row has its hash among the old hashes. *)
Definition deletes (parsed : ParsedQuery) (oldHashes : list jsval)
    (matchRow : obj) : bool :=
  match cleanRow_of parsed matchRow with
  | Some cleanRow =>
      is_deletion matchRow
      && bool_decide (get cleanRow "_hash" ∈ oldHashes)
  | None => false
  end.

(** A payload cut down to the first row of each of its arrays. *)
Definition first_rows (payload : Payload) : Payload :=
  mkPayload (op payload) ((λ kv, (kv.1, take 1 kv.2)) <$> arrays payload).

(** The [_hash] values of the rows of [rows] in the store [h]. *)
Definition hashes_in (h : heap) (rows : list loc) : list jsval :=
  (λ row, get (deref h row) "_hash") <$> rows.




(** One turn of the loop of lines 196-242, and the loop started with any
    value of [hasDelete] ([match_loop] starts it with [false]). *)
Definition match_step (parsed : ParsedQuery) (oldHashes : list jsval)
    (matchRow : obj) (locals : array * bool) : M (array * bool) :=
  let '(newData, hasDelete) := locals in
  cleanRow ← or_throw TypeError (cleanRow_of parsed matchRow);
  let curIndex := indexOf (get cleanRow "_hash") oldHashes in
  let '(newData, hasDelete) :=
    match curIndex with
    | Some i =>
        if is_deletion matchRow
        then (arr_set newData (Z.of_nat i) None, true)
        else (newData, hasDelete)
    | None => (newData, hasDelete)
    end in
  if is_insertion matchRow then
    let cleanRow := prop_set "_added" (VNum 1) cleanRow in
    pushed ← alloc cleanRow;
    mret (newData ++ [Some pushed], hasDelete)
  else mret (newData, hasDelete).

Definition match_loop_from (parsed : ParsedQuery) (oldHashes : list jsval)
    (matched : list obj) (newData : array) (hasDelete : bool)
    : M (array * bool) :=
  forEach (match_step parsed oldHashes) matched (newData, hasDelete).

(** The 1-based positions of the current data that the matched rows
    delete: for each deletion whose cleaned row has its hash among the
    old hashes, the first position of that hash
    ([oldHashes.indexOf(cleanRow._hash)]). *)
Definition deleted_positions (parsed : ParsedQuery) (oldHashes : list jsval)
    (matched : list obj) : list Z :=
  omap (λ matchRow,
          if is_deletion matchRow then
            cleanRow ← cleanRow_of parsed matchRow;
            i ← indexOf (get cleanRow "_hash") oldHashes;
            Some (Z.of_nat i + 1)%Z
          else None) matched.

(** The names of the three properties that [flattenNotifications] adds
    and the loop strips before hashing. *)
Definition tag_names : list string := ["_op"; "_key"; "_index"].

(** The columns a select-list names. *)
Definition selected_columns (fs : list field_item) : list string :=
  omap (λ item, match item with
                | Star => None
                | Field field_value _ => Some field_value
                end) fs.

End with_externals.

(** ** What a diff says of two result sets

    [collectionDiff.es6] is not among the sources.  The definitions of
    this part state what section 4.1 of the specification says of the
    diff it returns for the old hashes and the new rows (paired with
    their hashes), without fixing how the diff is computed. *)

(** The positions a diff names, 1-based. *)
Definition removed_positions (diff : Diff) : list Z :=
  Removed._index <$> default [] (removed diff).
Definition moved_from (diff : Diff) : list Z :=
  Moved.old_index <$> default [] (moved diff).
Definition moved_to (diff : Diff) : list Z :=
  Moved.new_index <$> default [] (moved diff).
Definition copied_to (diff : Diff) : list Z :=
  Copied.new_index <$> default [] (copied diff).

(** Modelled from the spec: a [moved] entry is "for a hash present in
    both but at different positions", and a [copied] entry makes a new
    row a copy of an "original occurrence" of its hash: the source of the
    entry is a position of [oldHashes], its target a position of
    [newRows], and the two positions hold the same hash. *)
Definition entry_ok (oldHashes : list jsval) (newRows : list (jsval * loc))
    (source target : Z) : bool :=
  bool_decide (1 ≤ source)%Z && bool_decide (1 ≤ target)%Z
  && match oldHashes !! Z.to_nat (source - 1),
           newRows !! Z.to_nat (target - 1) with
     | Some x, Some row => bool_decide (x = row.1)
     | _, _ => false
     end.

(** Modelled from the spec: [added] holds the "rows whose hash did not
    appear in oldHashes", each a row of [newRows] "with _hash, _index":
    the row stands in [newRows] at the position that its [_index] names
    ([_index - 1], as [applyDiff] computes it). *)
Definition added_ok (h : heap) (oldHashes : list jsval)
    (newRows : list (jsval * loc)) (added : loc) : bool :=
  match minus_one (get (deref h added) "_index") with
  | Some k =>
      bool_decide (0 ≤ k)%Z
      && match newRows !! Z.to_nat k with
         | Some row =>
             bool_decide (row.2 = added) && bool_decide (row.1 ∉ oldHashes)
         | None => false
         end
  | None => false
  end.

(** Modelled from the spec: the diff is the "structural diff between two
    ordered result sets", so it accounts for the position [j] of the new
    rows: the position holds the hash it held among the old hashes and
    the diff neither removes nor moves that old row; or the position is
    the target of a [moved] or of a [copied] entry; or its row is among
    [added], with that position for [_index]. *)
Definition position_ok (h : heap) (oldHashes : list jsval) (diff : Diff)
    (j : nat) (row : jsval * loc) : bool :=
  let p := (Z.of_nat j + 1)%Z in
  (bool_decide (oldHashes !! j = Some row.1)
   && bool_decide (p ∉ removed_positions diff)
   && bool_decide (p ∉ moved_from diff))
  || bool_decide (p ∈ moved_to diff)
  || bool_decide (p ∈ copied_to diff)
  || (bool_decide (row.2 ∈ default [] (added diff))
      && bool_decide (minus_one (get (deref h row.2) "_index")
                      = Some (Z.of_nat j))).

(** Modelled from the spec: [diff] is a diff of section 4.1 for
    [oldHashes] and [newRows].  Its [moved], [copied] and [added] entries
    are as above, no old position is moved twice, every position of the
    new rows is accounted for, and every old position past the end of
    the new rows is removed or moved away.  Nothing is asked of which
    occurrence of a hash an entry picks, of the order of the entries, or
    of [removed] entries that name a position that is written again. *)
Definition accounts_for (h : heap) (oldHashes : list jsval)
    (newRows : list (jsval * loc)) (diff : Diff) : bool :=
  forallb (λ m, entry_ok oldHashes newRows (Moved.old_index m)
                  (Moved.new_index m)) (default [] (moved diff))
  && forallb (λ c, entry_ok oldHashes newRows (Copied.orig_index c)
                     (Copied.new_index c)) (default [] (copied diff))
  && forallb (added_ok h oldHashes newRows) (default [] (added diff))
  && bool_decide (NoDup (moved_from diff))
  && forallb (λ jr, position_ok h oldHashes diff jr.1 jr.2)
       (enumerate newRows)
  && forallb (λ j, bool_decide ((Z.of_nat j + 1)%Z
                                ∈ removed_positions diff ++ moved_from diff))
       (seq (length newRows) (length oldHashes - length newRows)).

(** Where the row [r] at the position [j] of a result comes from, [b]
    being the new row at that position: [r] is the old row of that
    position, unchanged; or an old row of the same hash, or a clone of
    one, with [j + 1] for [_index]; or [b] itself, a row of a hash that
    is not among the old ones. *)
Definition placed (h h' : heap) (old : list loc) (j : nat) (b r : loc)
    : Prop :=
  (old !! j = Some r
   ∧ get (deref h r) "_hash" = get (deref h b) "_hash"
   ∧ deref h' r = deref h r)
  ∨ (∃ a, a ∈ old
          ∧ get (deref h a) "_hash" = get (deref h b) "_hash"
          ∧ deref h' r
            = prop_set "_index" (VNum (Z.of_nat j + 1)) (deref h a))
  ∨ (r = b
     ∧ (get (deref h b) "_hash" ∉ hashes_in h old)
     ∧ minus_one (get (deref h b) "_index") = Some (Z.of_nat j)
     ∧ deref h' b = deref h b).

(** ** The answer to the statement of getResultSetDiff

    The statement of lines 292-312.  [res] is the query; [data] is [res]
    with the hash [_hash] and the row number [_index] of each row;
    [data2] is the part of [data] whose hash is not listed among the old
    hashes, with [_added = 1] in front; the answer is
    [data2.*, data._hash] for every row of [data], joined to [data2] on
    the row number (LEFT JOIN). *)

(** The columns the statement adds to the query's own. *)
Definition synthetic : list string := ["_hash"; "_index"; "_added"].

(** The row object the driver builds from the columns of a row of an
    answer, taken in their order: a column name that comes again keeps
    its place and takes the later value. *)
Definition assign_all (kvs : list (string * jsval)) (o : obj) : obj :=
  foldl (λ o kv, prop_set kv.1 kv.2 o) o kvs.

(** A value as [join] writes it into the text of the statement. *)
Definition text (v : jsval) : string :=
  match v with
  | VStr s => s
  | VNum n => pretty n
  | VNull | VUndefined => ""
  end.

(** The hashes between the parentheses of [NOT IN (...)], line 306: the
    old hashes joined with quotes and commas, within quotes.  Without old
    hashes the list holds the empty text alone.  A hash is read back as
    it was written when it holds no quote, as an MD5 digest does
    ([is_md5] below). *)
Definition listed (oldHashes : list jsval) : list string :=
  match oldHashes with
  | [] => [""]
  | _ => text <$> oldHashes
  end.

(** The row of the answer for the row [r] of the query at the 0-based
    position [j].  [hash_of] is the hash of line 298 and [shown] the
    value the driver makes of a row number (the number, or the string of
    its digits).  A row whose hash is listed has no row in [data2]: it
    comes back with NULL in every column of [data2], its columns and its
    [_index] included, and with its hash.  A row whose hash is not listed
    comes back with [_added = 1], its columns, its row number and its
    hash. *)
Definition statement_row (hash_of : list (string * jsval) → string)
    (shown : Z → jsval) (oldHashes : list jsval) (j : nat)
    (r : list (string * jsval)) : obj :=
  let x := VStr (hash_of r) in
  let data2 := ("_added", VNum 1) :: r
               ++ [("_hash", x); ("_index", shown (Z.of_nat j + 1)%Z)] in
  let joined := if decide (hash_of r ∈ listed oldHashes)
                then (λ kv, (kv.1, VNull)) <$> data2
                else data2 in
  assign_all (joined ++ [("_hash", x)]) [].

(** The answer: a row for every row of the query, in the order of the
    row numbers.  (The statement has no ORDER BY of its own; line 314
    takes the order of the answer for the order of the query.) *)
Definition statement_rows (hash_of : list (string * jsval) → string)
    (shown : Z → jsval) (oldHashes : list jsval)
    (res : list (list (string * jsval))) : list obj :=
  imap (statement_row hash_of shown oldHashes) res.

(** The text of an MD5 digest: 32 hexadecimal digits in lower case. *)
Definition is_hex (c : ascii) : bool :=
  let n := nat_of_ascii c in
  (bool_decide (48 ≤ n)%nat && bool_decide (n ≤ 57)%nat)
  || (bool_decide (97 ≤ n)%nat && bool_decide (n ≤ 102)%nat).

Definition is_md5 (s : string) : bool :=
  bool_decide (String.length s = 32%nat)
  && forallb is_hex (String.list_ascii_of_string s).

Definition md5_hashes (hashes : list jsval) : bool :=
  forallb (λ x, match x with VStr s => is_md5 s | _ => false end) hashes.

(** Every row of [rows] carries its 1-based position in [_index], as a
    number or as the driver shows a row number. *)
Definition indexed_as (shown : Z → jsval) (h : heap) (rows : list loc)
    : Prop :=
  ∀ i l, rows !! i = Some l →
    get (deref h l) "_index" = VNum (Z.of_nat i + 1)
    ∨ get (deref h l) "_index" = shown (Z.of_nat i + 1)%Z.

(** The rows [data] of the store show the rows [res] of a query,
    position by position: the hash of the row, and the value of every
    column of the query. *)
Definition shows (hash_of : list (string * jsval) → string) (h : heap)
    (data : list loc) (res : list (list (string * jsval))) : Prop :=
  Forall2 (λ l r, get (deref h l) "_hash" = VStr (hash_of r)
                  ∧ ∀ k, k ∉ synthetic
                         → get (deref h l) k = get (assign_all r []) k)
          data res.

(** Hashes are stable between the answers [res0] and [res] of a query:
    rows of equal hash have equal columns. *)
Definition stable_hash (hash_of : list (string * jsval) → string)
    (res0 res : list (list (string * jsval))) : Prop :=
  ∀ r0 r, r0 ∈ res0 → r ∈ res → hash_of r0 = hash_of r →
    ∀ k, k ∉ synthetic → get (assign_all r0 []) k = get (assign_all r []) k.

(** ** Edge cases of applyDiff *)

(** The slot [data[k - 1]] holds a row. *)
Definition has_source (data : array) (k : Z) : bool :=
  bool_decide (is_Some (arr_get data (k - 1))).

(** Every [copied] and every [moved] entry of the diff refers to a slot
    of [data] that holds a row. *)
Definition sources_present (data : array) (diff : Diff) : bool :=
  forallb (λ c, has_source data (Copied.orig_index c))
          (default [] (copied diff))
  && forallb (λ m, has_source data (Moved.old_index m))
             (default [] (moved diff)).

(** The rows of [rows] whose 1-based position is not among [ps]. *)
Definition without_positions (ps : list Z) (rows : list loc) : list loc :=
  (filter (λ ir, (Z.of_nat ir.1 + 1)%Z ∉ ps) (enumerate rows)).*2.

(** ** Edge cases of flattenNotifications *)

(** [payload[key]] is an array with a first row. *)
Definition has_first_row (payload : Payload) (key : string) : bool :=
  match prop_lookup key (arrays payload) with
  | Some (_ :: _) => true
  | _ => false
  end.

(** The keys [flattenNotifications] reads of a payload. *)
Definition image_keys (payload : Payload) : list string :=
  if decide (op payload = "UPDATE") then ["new_data"; "old_data"]
  else ["data"].

(** The payload has a first row under each key that is read. *)
Definition flattenable (payload : Payload) : bool :=
  forallb (has_first_row payload) (image_keys payload).

(** [row] with the three properties [pushItem] sets. *)
Definition tagged (payload : Payload) (key : string) (index : nat)
    (row : obj) : obj :=
  prop_set "_index" (VNum (Z.of_nat index))
    (prop_set "_key" (VStr key) (prop_set "_op" (VStr (op payload)) row)).

(** ** Example data

    A row with one column, [name], whose hash is the name itself. *)
Definition example_row (name : string) (index : Z) : obj :=
  [("name", VStr name); ("_hash", VStr name); ("_index", VNum index)].

(** An old result set [a, b] (locations 0 and 1) and a new one [c, a]
    (locations 2 and 3). *)
Definition example_store : heap :=
  [example_row "a" 1; example_row "b" 2;
   example_row "c" 1; example_row "a" 2].
Definition example_old : list loc := [0; 1]%nat.
Definition example_new : list loc := [2; 3]%nat.


(** Example externals: the hash of a row is its name, every candidate
    row matches, and the database answers with the given rows. *)
Definition example_externals (rows : list loc) : Externals := {|
  Where := unit;
  md5_digest_s := λ s, s;
  JSON_stringify := λ o, match get o "name" with VStr s => s | _ => "" end;
  baseCompareAscending := λ a b,
    match a, b with
    | VNum x, VNum y => Z.compare x y
    | VStr x, VStr y => String.compare x y
    | _, _ => Eq
    end;
  where_matches := λ _ _ _, true;
  performQuery := λ _ _ _ h, (h, inr rows)
|}.

(** The query [SELECT * FROM t ORDER BY name ASC LIMIT n]. *)
Definition example_parsed (rows : list loc) (n : Z)
    : @ParsedQuery (example_externals rows) :=
  @mkParsed (example_externals rows) [Star] ()
    (Some [mkOrdering "name" "asc"]) (Some n).

(** The payloads of a DELETE of the row [b] and of an INSERT of a row
    [d]. *)
Definition example_delete : Payload :=
  mkPayload "DELETE" [("data", [[("name", VStr "b")]])].
Definition example_insert : Payload :=
  mkPayload "INSERT" [("data", [[("name", VStr "d")]])].

(** The diff that moves the first old row to the second position. *)
Definition example_move : Diff :=
  mkDiff None (Some [Moved.mk 1 2]) None None.

(** The rows [a, b] (locations 0 and 1), a row [c] whose [_index]
    continues them, and a row [d] without [_index]. *)
Definition example_added_store : heap :=
  [example_row "a" 1; example_row "b" 2; example_row "c" 3;
   [("name", VStr "d")]].

(** The diff that copies the first row to the third position. *)
Definition example_copy : Diff :=
  mkDiff None None (Some [Copied.mk 1 3]) None.

(** The payloads of an INSERT of a row [A], which sorts first, and of an
    UPDATE of the row [a] into [x]. *)
Definition example_insert_first : Payload :=
  mkPayload "INSERT" [("data", [[("name", VStr "A")]])].
Definition example_update : Payload :=
  mkPayload "UPDATE" [("new_data", [[("name", VStr "x")]]);
                      ("old_data", [[("name", VStr "a")]])].

(** The queries [SELECT * FROM t] and
    [SELECT name, age AS years FROM t]. *)
Definition example_plain (rows : list loc)
    : @ParsedQuery (example_externals rows) :=
  @mkParsed (example_externals rows) [Star] () None None.
Definition example_named (rows : list loc)
    : @ParsedQuery (example_externals rows) :=
  @mkParsed (example_externals rows)
    [Field "name" None; Field "age" (Some "years")] () None None.








End Common.

(* ===================================================================== *)
(** * Part III.  lib/LiveMysql.js                                        *)
(* ===================================================================== *)

Module LiveMysql.
Import Js.

(** A trigger object: [{ database?, table }].  ([condition] plays no part
    in [select] and [_removeSelect].) *)
Record Trigger := mkTrigger {
  database : option string;
  table : string
}.

(** A value passed to [select].  A function is known by its name; an
    array of parameter values is an object to [select] (which looks at
    [typeof values] only) and is passed as [Obj]; [Arr] is an array of
    trigger objects. *)
Inductive arg :=
  | Undefined
  | Null
  | Num (n : Z)
  | Str (s : string)
  | Fn (name : string)
  | Obj (o : obj)
  | Arr (elems : list Trigger).

#[global] Instance Trigger_eq_dec : EqDecision Trigger.
Proof. solve_decision. Defined.

#[global] Instance arg_eq_dec : EqDecision arg.
Proof. solve_decision. Defined.

Definition typeof (a : arg) : string :=
  match a with
  | Undefined => "undefined"
  | Null | Obj _ | Arr _ => "object"
  | Num _ => "number"
  | Str _ => "string"
  | Fn _ => "function"
  end.

(** What LiveMysql.js takes from outside: [EJSON.stringify] of the object
    [{query, values, keySelector}] with [{canonical: true}], and
    [LiveMysqlKeySelector.makeTag] on a key selector (a module that is
    not among the sources). *)
Class Externals := {
  EJSON_stringify : string → arg → string → string;
  makeTag : string → string
}.

(** Modelled from the spec: the state of a QueryCache that [select] and
    [_removeSelect] touch (section 3): the constructor's arguments and
    [selects], the subscriptions using the cache, by reference. *)
Record QueryCache := mkQueryCache {
  query : string;
  values : arg;
  queryCacheKey : string;
  keySelector : string;
  minInterval : arg;
  selects : list nat
}.

(** Modelled from the spec: a LiveMysqlSelect, the subscription handle
    binding a cache (by reference) to its triggers (section 4.5). *)
Record LiveMysqlSelect := mkSelect {
  queryCache : nat;
  triggers : list Trigger
}.

(** The LiveMysql object.  [settings_database] is [settings.database];
    [slaveSettings] is the property [this.slaveSettings] that [select]
    reads: the constructor (lines 16-131) assigns [settings],
    [binlogSettings], [zongji], [_select], [_queryCache], [_schemaCache]
    and [zongjiSettings], and no [slaveSettings], so it is [None]
    ([undefined]) unless something else assigned it.  Cache and select
    objects live in the stores [cacheObjs] and [selectObjs] and are
    referred to by position. *)
Record engine := mkEngine {
  settings_database : option string;
  slaveSettings : option obj;
  _select : list nat;
  _queryCache : gmap string nat;
  _schemaCache : gmap string (list string);
  cacheObjs : list QueryCache;
  selectObjs : list LiveMysqlSelect
}.

(** The state the constructor leaves. *)
Definition new (settings_database : option string) : engine :=
  mkEngine settings_database None [] ∅ ∅ [] [].

Definition E := ST engine.

Definition set_schemaCache (f : gmap string (list string)
                                → gmap string (list string)) : E unit :=
  λ e, (mkEngine (settings_database e) (slaveSettings e) (_select e)
          (_queryCache e) (f (_schemaCache e)) (cacheObjs e)
          (selectObjs e), inr ()).

Definition set_queryCache (f : gmap string nat → gmap string nat)
    : E unit :=
  λ e, (mkEngine (settings_database e) (slaveSettings e) (_select e)
          (f (_queryCache e)) (_schemaCache e) (cacheObjs e)
          (selectObjs e), inr ()).

Definition set_select (f : list nat → list nat) : E unit :=
  λ e, (mkEngine (settings_database e) (slaveSettings e) (f (_select e))
          (_queryCache e) (_schemaCache e) (cacheObjs e)
          (selectObjs e), inr ()).

Definition set_cacheObjs (f : list QueryCache → list QueryCache)
    : E unit :=
  λ e, (mkEngine (settings_database e) (slaveSettings e) (_select e)
          (_queryCache e) (_schemaCache e) (f (cacheObjs e))
          (selectObjs e), inr ()).

Definition set_selectObjs (f : list LiveMysqlSelect → list LiveMysqlSelect)
    : E unit :=
  λ e, (mkEngine (settings_database e) (slaveSettings e) (_select e)
          (_queryCache e) (_schemaCache e) (cacheObjs e)
          (f (selectObjs e)), inr ()).

Definition this : E engine := λ e, (e, inr e).

(** [triggers[i].database || self.settings.database]: an absent or empty
    database name is falsy. *)
Definition triggerDatabase_of (default_database : option string)
    (t : Trigger) : option string :=
  match database t with
  | Some d => if decide (d = "") then default_database else Some d
  | None => default_database
  end.

(** The names of the properties that every object inherits from
    [Object.prototype]: [name in {}] is true for them, and the value
    found under such a name (a function, or the prototype itself for
    [__proto__]) has no [indexOf] method. *)
Definition Object_prototype_names : list string :=
  ["constructor"; "__defineGetter__"; "__defineSetter__"; "hasOwnProperty";
   "__lookupGetter__"; "__lookupSetter__"; "isPrototypeOf";
   "propertyIsEnumerable"; "toString"; "valueOf"; "__proto__";
   "toLocaleString"].

(** Lines 151-161, one turn of the loop over the triggers.
    [includeSchema] is the plain object [_schemaCache], whose own
    properties are the entries of the map: [triggerDatabase in
    includeSchema] holds for an entry and for an inherited name as well,
    and for an inherited name that is no entry the call
    [includeSchema[triggerDatabase].indexOf(...)] is a TypeError. *)
Definition include_trigger (t : Trigger) (_ : unit) : E unit :=
  self ← this;
  match triggerDatabase_of (settings_database self) t with
  | None => throw (Error "no database selected on trigger")
  | Some triggerDatabase =>
      let includeSchema := _schemaCache self in
      match includeSchema !! triggerDatabase with
      | None =>
          if decide (triggerDatabase ∈ Object_prototype_names)
          then throw TypeError
          else set_schemaCache (<[triggerDatabase := [table t]]>)
      | Some tables =>
          if decide (table t ∈ tables) then mret ()
          else set_schemaCache (<[triggerDatabase := tables ++ [table t]]>)
      end
  end.

(** Lines 177-183: the interval of a new cache when none is given. *)
Definition default_minInterval (minInterval : arg) : E arg :=
  if decide (minInterval = Undefined) then
    self ← this;
    match slaveSettings self with
    | None => throw TypeError
    | Some o =>
        match get o "minInterval" with
        | VNum n => mret (Num n)
        | _ => mret Null
        end
    end
  else mret minInterval.

Section with_externals.
Context `{Externals}.

(** Modelled from the spec: [new QueryCache(query, values, queryCacheKey,
    keySelector, minInterval, this)] makes a cache with no subscription
    yet. *)
Definition new_QueryCache (query : string) (values : arg)
    (queryCacheKey : string) (keySelector : string) (minInterval : arg)
    : E nat :=
  self ← this;
  set_cacheObjs (λ cs, cs ++ [mkQueryCache query values queryCacheKey
                                (makeTag keySelector) minInterval []]);;
  mret (length (cacheObjs self)).

(** Modelled from the spec: a subscription is attached to its cache
    ([selects] are "the Subscriptions using this cache"). *)
Definition attach (newSelect : nat) (c : QueryCache) : QueryCache :=
  mkQueryCache (query c) (values c) (queryCacheKey c) (keySelector c)
    (minInterval c) (selects c ++ [newSelect]).

(** Modelled from the spec: [new LiveMysqlSelect(queryCache, triggers,
    this)] makes the subscription and attaches it to its cache
    ([selects] are "the Subscriptions using this cache"). *)
Definition new_LiveMysqlSelect (queryCache : nat) (triggers : list Trigger)
    : E nat :=
  self ← this;
  let newSelect := length (selectObjs self) in
  set_selectObjs (λ ss, ss ++ [mkSelect queryCache triggers]);;
  set_cacheObjs (alter (λ c, mkQueryCache (query c) (values c)
                               (queryCacheKey c) (keySelector c)
                               (minInterval c) (selects c ++ [newSelect]))
                       queryCache);;
  mret newSelect.

(** [LiveMysql.prototype.select], lines 135-191. *)
Definition select (query values keySelector triggers minInterval : arg)
    : E nat :=
  match query with
  | Str query_text =>
  if negb (bool_decide (typeof values = "object")
           || bool_decide (values = Undefined))
  then throw (Error "values must be an object, null, or undefined") else
  match keySelector with
  | Fn keySelector_name =>
  match triggers with
  | Arr ((_ :: _) as trigger_list) =>
  if negb (bool_decide (typeof minInterval = "number")
           || bool_decide (minInterval = Undefined))
  then throw (Error "minInterval must be a number or undefined") else
  forEach include_trigger trigger_list ();;
  let values := if decide (values = Null) then Undefined else values in
  let queryCacheKey :=
    EJSON_stringify query_text values (makeTag keySelector_name) in
  self ← this;
  queryCache ←
    match _queryCache self !! queryCacheKey with
    | Some queryCache => mret queryCache
    | None =>
        minInterval ← default_minInterval minInterval;
        queryCache ← new_QueryCache query_text values queryCacheKey
                        keySelector_name minInterval;
        set_queryCache (<[queryCacheKey := queryCache]>);;
        mret queryCache
    end;
  newSelect ← new_LiveMysqlSelect queryCache trigger_list;
  set_select (λ l, l ++ [newSelect]);;
  mret newSelect
  | _ => throw (Error "triggers array required")
  end
  | _ => throw (Error "keySelector required")
  end
  | _ => throw (Error "query must be a string")
  end.

(** [l.indexOf(x)] and [l.splice(i, 1)] on lists of references. *)
Fixpoint indexOf (x : nat) (l : list nat) : option nat :=
  match l with
  | [] => None
  | y :: l' => if decide (x = y) then Some 0%nat else S <$> indexOf x l'
  end.

(** [LiveMysql.prototype._removeSelect], lines 193-215.  [select] is a
    reference to a select object; [select.queryCache] is read from it. *)
Definition _removeSelect (select : nat) : E bool :=
  self ← this;
  match indexOf select (_select self) with
  | Some index =>
      set_select (delete index);;
      match selectObjs self !! select
              ≫= λ s, pair (queryCache s) <$> cacheObjs self !! queryCache s
      with
      | Some (queryCache, c) =>
          match indexOf select (selects c) with
          | Some queryCacheIndex =>
              let remaining := delete queryCacheIndex (selects c) in
              set_cacheObjs (<[queryCache :=
                mkQueryCache (query c) (values c) (queryCacheKey c)
                  (keySelector c) (minInterval c) remaining]>);;
              if decide (length remaining = 0%nat)
              then set_queryCache (delete (queryCacheKey c))
              else mret ()
          | None => mret ()
          end
      | None => mret ()
      end;;
      mret true
  | None => mret false
  end.

(** Lines 163-190: what [select] does once the arguments are checked and
    the triggers included. *)
Definition select_rest (query_text : string) (values : arg)
    (keySelector_name : string) (trigger_list : list Trigger)
    (minInterval : arg) : E nat :=
  let values := if decide (values = Null) then Undefined else values in
  let queryCacheKey :=
    EJSON_stringify query_text values (makeTag keySelector_name) in
  self ← this;
  queryCache ←
    match _queryCache self !! queryCacheKey with
    | Some queryCache => mret queryCache
    | None =>
        minInterval ← default_minInterval minInterval;
        queryCache ← new_QueryCache query_text values queryCacheKey
                        keySelector_name minInterval;
        set_queryCache (<[queryCacheKey := queryCache]>);;
        mret queryCache
    end;
  newSelect ← new_LiveMysqlSelect queryCache trigger_list;
  set_select (λ l, l ++ [newSelect]);;
  mret newSelect.

(** Lines 164-171: the identity key of a call, [values] being
    [undefined] when [null] was passed. *)
Definition identity_values (values : arg) : arg :=
  if decide (values = Null) then Undefined else values.

Definition identity_key (query_text : string) (values : arg)
    (keySelector_name : string) : string :=
  EJSON_stringify query_text (identity_values values)
    (makeTag keySelector_name).

(** The states of a LiveMysql object: the one the constructor leaves
    (whatever [settings.database] is, and whether or not something
    assigned [slaveSettings]), and those that calls of [select] and
    [_removeSelect], returning or throwing, lead to.  ([pause], [resume],
    [end] and the binlog handler assign none of [_select], [_queryCache]
    and [_schemaCache].) *)
Inductive reachable : engine → Prop :=
  | reachable_new d ss : reachable (mkEngine d ss [] ∅ ∅ [] [])
  | reachable_select e query values keySelector triggers minInterval :
      reachable e →
      reachable (select query values keySelector triggers minInterval e).1
  | reachable_removeSelect e s :
      reachable e → reachable (_removeSelect s e).1.

End with_externals.

(** The (database, table) pair is in a schema cache. *)
Definition in_schema (schemaCache : gmap string (list string))
    (pair : string * string) : Prop :=
  ∃ tables, schemaCache !! pair.1 = Some tables ∧ pair.2 ∈ tables.

(** [t] is a trigger of a live subscription: of a select object that is
    in [_select]. *)
Definition live_trigger (e : engine) (t : Trigger) : Prop :=
  ∃ s sel, s ∈ _select e ∧ selectObjs e !! s = Some sel ∧ t ∈ triggers sel.

(** Every trigger of a live subscription has its pair in the schema
    cache. *)
Definition covered (e : engine) : Prop :=
  ∀ t, live_trigger e t →
    ∃ d, triggerDatabase_of (settings_database e) t = Some d
         ∧ in_schema (_schemaCache e) (d, table t).

(** [e] with another schema cache. *)
Definition with_schemaCache (e : engine) sc : engine :=
  mkEngine (settings_database e) (slaveSettings e) (_select e)
    (_queryCache e) sc (cacheObjs e) (selectObjs e).

(** The checks of lines 138-147, as the code makes them. *)
Definition arguments_pass (query values keySelector triggers minInterval
    : arg) : Prop :=
  typeof query = "string"
  ∧ (typeof values = "object" ∨ values = Undefined)
  ∧ (∃ name, keySelector = Fn name)
  ∧ (∃ t ts, triggers = Arr (t :: ts))
  ∧ (typeof minInterval = "number" ∨ minInterval = Undefined).

(** The messages of the five checks of lines 138-147. *)
Definition check_messages : list string :=
  ["query must be a string";
   "values must be an object, null, or undefined";
   "keySelector required";
   "triggers array required";
   "minInterval must be a number or undefined"].

(** ** The registry of caches and the live subscriptions *)

(** Every registered key leads to a cache object that carries the key
    and has subscriptions, each of them live and bound to this cache. *)
Definition registered_caches_ok (e : engine) : Prop :=
  ∀ key qc, _queryCache e !! key = Some qc →
    ∃ c, cacheObjs e !! qc = Some c
         ∧ queryCacheKey c = key
         ∧ selects c ≠ []
         ∧ NoDup (selects c)
         ∧ ∀ s, s ∈ selects c →
             s ∈ _select e
             ∧ ∃ sel, selectObjs e !! s = Some sel ∧ queryCache sel = qc.

(** The live subscriptions are pairwise distinct select objects, each
    among the subscriptions of its cache, which is registered under its
    key. *)
Definition live_selects_ok (e : engine) : Prop :=
  NoDup (_select e)
  ∧ ∀ s, s ∈ _select e →
      ∃ sel c, selectObjs e !! s = Some sel
               ∧ cacheObjs e !! queryCache sel = Some c
               ∧ s ∈ selects c
               ∧ _queryCache e !! queryCacheKey c = Some (queryCache sel).

(** What a call of [select] that returns has done. *)
Definition subscribed (e e' : engine) (key : string) (ts : list Trigger)
    (s : nat) : Prop :=
  s = length (selectObjs e)
  ∧ settings_database e' = settings_database e
  ∧ slaveSettings e' = slaveSettings e
  ∧ _select e' = _select e ++ [s]
  ∧ ∃ qc, selectObjs e' = selectObjs e ++ [mkSelect qc ts]
      ∧ match _queryCache e !! key with
        | Some found =>
            qc = found
            ∧ _queryCache e' = _queryCache e
            ∧ cacheObjs e' = alter (attach s) qc (cacheObjs e)
        | None =>
            qc = length (cacheObjs e)
            ∧ _queryCache e' = <[key := qc]> (_queryCache e)
            ∧ ∃ c, cacheObjs e' = cacheObjs e ++ [c]
                   ∧ queryCacheKey c = key ∧ selects c = [s]
        end.

(** The cache without its subscription at position [i]
    ([queryCache.selects.splice(i, 1)]). *)
Definition detach (i : nat) (c : QueryCache) : QueryCache :=
  mkQueryCache (query c) (values c) (queryCacheKey c) (keySelector c)
    (minInterval c) (delete i (selects c)).

(** One turn of the loop of lines 151-161 on the schema cache, for a
    trigger whose database is [d]. *)
Definition include_pair (d tb : string)
    (includeSchema : gmap string (list string))
    : gmap string (list string) :=
  match includeSchema !! d with
  | None => <[d := [tb]]> includeSchema
  | Some tables =>
      if decide (tb ∈ tables) then includeSchema
      else <[d := tables ++ [tb]]> includeSchema
  end.

(** The schema cache after the turns of the loop for the triggers [ts],
    all of which have a database. *)
Definition include_triggers (default_database : option string)
    (ts : list Trigger) (includeSchema : gmap string (list string))
    : gmap string (list string) :=
  foldl (λ includeSchema t,
           match triggerDatabase_of default_database t with
           | Some d => include_pair d (table t) includeSchema
           | None => includeSchema
           end) includeSchema ts.

(** The lists of tables of a schema cache have no duplicate and are not
    empty. *)
Definition schema_lists_ok (schemaCache : gmap string (list string))
    : Prop :=
  ∀ d tables, schemaCache !! d = Some tables → NoDup tables ∧ tables ≠ [].

(** Example externals (the key is the query text and the tag, joined) and
    example calls on the object the constructor leaves. *)
Definition example_externals : Externals := {|
  EJSON_stringify := λ query values tag, query +:+ "|" +:+ tag;
  makeTag := λ name, name
|}.

Definition example_trigger : Trigger := mkTrigger (Some "d") "t".

(** [select("SELECT 1", undefined, k, [{database: "d", table: "t"}], 50)]
    on a new object, and the handle's removal after it. *)
Definition example_subscribed : engine :=
  (@select example_externals (Str "SELECT 1") Undefined (Fn "k")
     (Arr [example_trigger]) (Num 50) (new None)).1.

Definition example_unsubscribed : engine :=
  (@_removeSelect 0 example_subscribed).1.

End LiveMysql.

(** ** getQueryDetails (src/common.es6, lines 52-95) *)
Module QueryDetails.
Import Js.

(** [\d] of a JavaScript regular expression: an ASCII digit. *)
Definition is_digit (c : Ascii.ascii) : bool :=
  let n := Ascii.nat_of_ascii c in Nat.leb 48 n && Nat.leb n 57.

Definition starts_with_digit (s : string) : bool :=
  match s with
  | String c _ => is_digit c
  | EmptyString => false
  end.

Definition is_dollar (c : Ascii.ascii) : bool :=
  Nat.eqb (Ascii.nat_of_ascii c) 36.

(** [query.replace(/\$\d+/g, 'NULL')], line 53: from left to right,
    each dollar sign that is followed by a digit is replaced, with all
    the digits that follow it, by [NULL].  [skipping] holds while the
    digits of a placeholder are passed over. *)
Fixpoint replace_placeholders (skipping : bool) (s : string) : string :=
  match s with
  | EmptyString => EmptyString
  | String c s' =>
      if skipping && is_digit c then replace_placeholders true s'
      else if is_dollar c && starts_with_digit s'
           then "NULL" +:+ replace_placeholders true s'
           else String c (replace_placeholders false s')
  end.

Definition nullifiedQuery (query : string) : string :=
  replace_placeholders false query.

(** The text is made of digits. *)
Fixpoint all_digits (s : string) : bool :=
  match s with
  | EmptyString => true
  | String c s' => is_digit c && all_digits s'
  end.

(** The text has a placeholder: a dollar sign followed by a digit. *)
Fixpoint has_placeholder (s : string) : bool :=
  match s with
  | EmptyString => false
  | String c s' =>
      (is_dollar c && starts_with_digit s') || has_placeholder s'
  end.

(** The statements [getQueryDetails] sends, by what they do and the
    values they carry (the SQL text around them is fixed). *)
Inductive statement :=
  | CreateView (viewName nullified : string)
  | TablesOfView (viewName : string)
  | IsUpdatable (viewName : string)
  | DropView (viewName : string)
  | PrimaryKeys (table : jsval).

#[global] Instance statement_eq_dec : EqDecision statement.
Proof. solve_decision. Defined.

(** The database behind the client: each statement is answered with the
    rows of its result, or rejected. *)
Class Client := {
  db : Type;
  answer : statement → db → db * (exn + list obj)
}.

Section with_client.
Context `{Client}.

(** [exports.performQuery(client, ...)], with the statements sent so far
    kept beside the database. *)
Definition performQuery (st : statement) : ST (db * list statement) (list obj) :=
  λ '(d, sent), let '(d', r) := answer st d in ((d', sent ++ [st]), r).

Record Details := mkDetails {
  isUpdatable : bool;
  tablesUsed : list jsval;
  primaryKeys : option (list jsval)
}.

(** [getQueryDetails(client, query)]; [suffix] is the random string
    [randomString.alphaLower(10)]. *)
Definition getQueryDetails (suffix query : string)
    : ST (db * list statement) Details :=
  let nullifiedQuery := nullifiedQuery query in
  let viewName := "tmp_view_" +:+ suffix in
  performQuery (CreateView viewName nullifiedQuery);;
  tablesResult ← performQuery (TablesOfView viewName);
  isUpdatableResult ← performQuery (IsUpdatable viewName);
  first ← or_throw TypeError (head isUpdatableResult);
  let isUpdatable :=
    bool_decide (get first "is_updatable" = VStr "YES") in
  performQuery (DropView viewName);;
  let tablesUsed := (λ row, get row "table_name") <$> tablesResult in
  primaryKeys ←
    (if isUpdatable then
       primaryKeysResult ←
         performQuery (PrimaryKeys (default VUndefined (head tablesUsed)));
       mret (Some ((λ row, get row "attname") <$> primaryKeysResult))
     else mret None);
  mret (mkDetails isUpdatable tablesUsed primaryKeys).

(** The three statements before the DROP are answered, the third with at
    least one row. *)
Definition lookups_answered (suffix query : string) (d : db) : Prop :=
  let viewName := "tmp_view_" +:+ suffix in
  ∃ d1 r1 d2 r2 d3 first rest,
    answer (CreateView viewName (nullifiedQuery query)) d = (d1, inr r1)
    ∧ answer (TablesOfView viewName) d1 = (d2, inr r2)
    ∧ answer (IsUpdatable viewName) d2 = (d3, inr (first :: rest)).

End with_client.

(** An example database: it holds the names of its views, knows one
    table [t] with the key [id], and calls every view updatable. *)
Definition example_client : Client := {|
  db := list string;
  answer := λ st views,
    match st with
    | CreateView viewName _ => (viewName :: views, inr [])
    | TablesOfView viewName => (views, inr [[("table_name", VStr "t")]])
    | IsUpdatable viewName =>
        (views, inr (if decide (viewName ∈ views)
                     then [[("is_updatable", VStr "YES")]] else []))
    | DropView viewName => (filter (λ v, v ≠ viewName) views, inr [])
    | PrimaryKeys table => (views, inr [[("attname", VStr "id")]])
    end
|}.

(** An example database that cannot tell whether a view is updatable. *)
Definition example_failing_client : Client := {|
  db := list string;
  answer := λ st views,
    match st with
    | CreateView viewName _ => (viewName :: views, inr [])
    | IsUpdatable viewName => (views, inl (Error "permission denied"))
    | _ => (views, inr [])
    end
|}.

End QueryDetails.

(** ** pause and resume (lib/LiveMysql.js, lines 217-232)

    [zongjiSettings.includeSchema] refers to the schema cache object
    itself (the constructor, line 84, and [resume]) or to an object of
    its own (the [{}] that [pause] makes).  [zongji] is [null] until the
    connection callback of the constructor has run.  ZongJi and
    QueryCache are not among the sources: a call of [zongji.set] is
    recorded with the schema it is given, as it is at the call, and the
    calls of [cache.invalidate()] are counted for each cache (the order
    in which [_.each] visits the registry is not modelled). *)
Module Backend.
Import Js LiveMysql.

Inductive schema_ref :=
  | TheSchemaCache
  | OwnObject (o : gmap string (list string)).

Record connection := mkConnection {
  engine_of : engine;
  includeSchema : schema_ref;
  zongji : option (list (gmap string (list string)));
  invalidated : gmultiset.gmultiset nat
}.

Abbreviation C := (ST connection).

(** The object [zongjiSettings.includeSchema] refers to. *)
Definition published (c : connection) : gmap string (list string) :=
  match includeSchema c with
  | TheSchemaCache => _schemaCache (engine_of c)
  | OwnObject o => o
  end.

(** [self.zongjiSettings.includeSchema = ...]. *)
Definition set_includeSchema (r : schema_ref) : C unit :=
  λ c, (mkConnection (engine_of c) r (zongji c) (invalidated c), inr ()).

(** [self.zongji.set(self.zongjiSettings)]: a TypeError while [zongji]
    is [null]. *)
Definition zongji_set : C unit :=
  λ c, match zongji c with
       | None => (c, inl TypeError)
       | Some calls =>
           (mkConnection (engine_of c) (includeSchema c)
              (Some (calls ++ [published c])) (invalidated c), inr ())
       end.

(** [_.each(self._queryCache, cache => cache.invalidate())]. *)
Definition invalidate_all : C unit :=
  λ c, (mkConnection (engine_of c) (includeSchema c) (zongji c)
          (invalidated c
           ⊎ list_to_set_disj (map_to_list (_queryCache (engine_of c))).*2),
        inr ()).

Definition pause : C unit :=
  set_includeSchema (OwnObject ∅);; zongji_set.

Definition resume : C unit :=
  set_includeSchema TheSchemaCache;; zongji_set;; invalidate_all.

(** A method of the object that leaves [zongjiSettings] and [zongji]
    alone ([select], [_removeSelect]). *)
Definition on_engine {A} (m : E A) : C A :=
  λ c, let '(e', r) := m (engine_of c) in
       (mkConnection e' (includeSchema c) (zongji c) (invalidated c), r).

End Backend.

(* ===================================================================== *)
(** * Part IV.  Facts about src/common.es6                               *)
(* ===================================================================== *)

Module CommonFacts.
Import Js Common.

(** ** Objects *)

Lemma get_prop_set_eq k v (o : obj) : get (prop_set k v o) k = v.
Proof.
  unfold get. induction o as [|[k' v'] o IH]; simpl.
  - by rewrite decide_True.
  - destruct (decide (k = k')) as [->|Hne]; simpl.
    + by rewrite decide_True.
    + by rewrite decide_False.
Qed.

Lemma get_prop_set_ne k k' v (o : obj) :
  k ≠ k' → get (prop_set k v o) k' = get o k'.
Proof.
  intros Hne. unfold get. induction o as [|[k0 v0] o IH]; simpl.
  - rewrite decide_False; [done | congruence].
  - destruct (decide (k = k0)) as [->|Hk]; simpl.
    + rewrite !decide_False; [done | congruence | congruence].
    + destruct (decide (k' = k0)); [done | apply IH].
Qed.

Lemma same_but_index_refl o : same_but_index o o.
Proof. by intros k _. Qed.

Lemma same_but_index_trans o1 o2 o3 :
  same_but_index o1 o2 → same_but_index o2 o3 → same_but_index o1 o3.
Proof. intros H12 H23 k Hk. by rewrite H23, H12. Qed.

Lemma same_but_index_set v o : same_but_index o (prop_set "_index" v o).
Proof. intros k Hk. by apply get_prop_set_ne. Qed.

Lemma prop_set_set k v1 v2 (o : obj) :
  prop_set k v2 (prop_set k v1 o) = prop_set k v2 o.
Proof.
  induction o as [|[k' v'] o IH]; simpl.
  - by rewrite decide_True.
  - destruct (decide (k = k')) as [->|Hne]; simpl.
    + by rewrite decide_True.
    + rewrite decide_False by done. by f_equal.
Qed.

(** ** The frame of a computation on the store *)

Lemma frame_refl P h : frame P h h.
Proof. intros l o Hl. exists o. auto. Qed.

Lemma frame_trans P h1 h2 h3 : frame P h1 h2 → frame P h2 h3 → frame P h1 h3.
Proof.
  intros H12 H23 l o Hl.
  destruct (H12 l o Hl) as (o2 & Hl2 & H2).
  destruct (H23 l o2 Hl2) as (o3 & Hl3 & H3).
  exists o3. split; [done |].
  destruct H3 as [->|(v3 & Hv3 & ->)]; [done |].
  destruct H2 as [->|(v2 & Hv2 & ->)]; [eauto |].
  right. exists v3. by rewrite prop_set_set.
Qed.

Lemma frame_alloc P h o : frame P h (h ++ [o]).
Proof.
  intros l o' Hl. exists o'. split; [| by left].
  by apply lookup_app_l_Some.
Qed.

Lemma frame_set_index (P : loc → jsval → Prop) h l v :
  (l < length h → P l v) → frame P h (alter (prop_set "_index" v) l h).
Proof.
  intros HL l' o Hl'. destruct (decide (l = l')) as [<-|Hne].
  - exists (prop_set "_index" v o). split.
    + by rewrite list_lookup_alter_eq, Hl'.
    + right. exists v. split; [| done]. apply HL. by eapply lookup_lt_Some.
  - exists o. rewrite list_lookup_alter_ne by done. auto.
Qed.

Lemma forEach_frame {A S} P (body : A → S → M S) xs :
  (∀ x s h, x ∈ xs → frame P h (body x s h).1) →
  ∀ s h, frame P h (forEach body xs s h).1.
Proof.
  induction xs as [|x xs IH]; intros Hbody s h; simpl.
  - apply frame_refl.
  - unfold_st. specialize (Hbody x s h) as Hx.
    destruct (body x s h) as [h1 [e|s1]]; simpl in *.
    + apply Hx. by left.
    + eapply frame_trans; [apply Hx; by left |].
      apply IH. intros. apply Hbody. by right.
Qed.

Lemma unless_null_frame {A S} P (body : A → S → M S) xs :
  (∀ x s h, x ∈ default [] xs → frame P h (body x s h).1) →
  ∀ s h, frame P h (unless_null xs body s h).1.
Proof.
  destruct xs as [xs|]; simpl; intros Hbody s h.
  - by apply forEach_frame.
  - apply frame_refl.
Qed.

Lemma clone_frame P x h : frame P h (clone x h).1.
Proof.
  destruct x as [l|]; simpl; [| apply frame_refl].
  unfold_st. unfold read, alloc. simpl. apply frame_alloc.
Qed.

Lemma clone_fresh x h h' r :
  clone x h = (h', inr r) →
  match r with Some l => (length h ≤ l)%nat | None => True end.
Proof.
  destruct x as [l|]; unfold_st; simpl; unfold read, alloc; simpl;
    intros [= <- <-]; done.
Qed.

Lemma bind_frame {A B} P (m : M A) (f : A → M B) h :
  frame P h (m h).1 →
  (∀ a h1, frame P h1 (f a h1).1) →
  frame P h ((m ≫= f) h).1.
Proof.
  intros Hm Hf. unfold_st. destruct (m h) as [h1 [e|a]]; simpl in *.
  - done.
  - eapply frame_trans; [done | apply Hf].
Qed.

Lemma copied_body_frame P data c (w : array) h :
  frame P h
    ((copyRow ← clone (arr_get data (Copied.orig_index c - 1));
      assign copyRow "_index" (VNum (Copied.new_index c));;
      mret (arr_set w (Copied.new_index c - 1) copyRow)) h).1.
Proof.
  unfold_st.
  pose proof (clone_frame P (arr_get data (Copied.orig_index c - 1)) h) as Hf.
  destruct (clone _ h) as [h1 [e|[l'|]]] eqn:Hc; simpl in *; try done.
  unfold set_prop. simpl.
  intros l o Hl. destruct (Hf l o Hl) as (o' & Hl' & Hs).
  exists o'. split; [| done].
  rewrite list_lookup_alter_ne; [done |].
  apply clone_fresh in Hc. apply lookup_lt_Some in Hl. lia.
Qed.

Lemma moved_body_frame data diff m (w : array) h :
  m ∈ default [] (moved diff) →
  frame (moved_write data diff) h
    ((assign (arr_get data (Moved.old_index m - 1)) "_index"
        (VNum (Moved.new_index m));;
      mret (arr_set w (Moved.new_index m - 1)
              (arr_get data (Moved.old_index m - 1)))) h).1.
Proof.
  intros Hm. unfold_st.
  destruct (arr_get data (Moved.old_index m - 1)) as [l|] eqn:Hg;
    simpl; [| apply frame_refl].
  unfold set_prop; simpl. apply frame_set_index. intros _.
  by exists m.
Qed.

(** The store after [applyDiff]: the objects of the input are all there,
    each as it was or with its [_index] set by a [moved] entry. *)
Lemma applyDiff_frame data diff h :
  frame (moved_write data diff) h (applyDiff data diff h).1.
Proof.
  unfold applyDiff.
  apply bind_frame; [| intros w1 h1].
  { apply unless_null_frame. intros; apply frame_refl. }
  apply bind_frame; [| intros w2 h2].
  { apply unless_null_frame. intros; apply frame_refl. }
  apply bind_frame; [| intros w3 h3].
  { apply unless_null_frame. intros. apply copied_body_frame. }
  apply bind_frame; [| intros w4 h4].
  { apply unless_null_frame. intros. by apply moved_body_frame. }
  apply bind_frame; [| intros w5 h5].
  { apply unless_null_frame. intros. apply frame_refl. }
  apply frame_refl.
Qed.

(** ** applyDiff and the phases of section 4.2 *)

Lemma forEach_write_slots {A} (body : A → array → M array)
    (f : A → M (Z * option loc)) xs :
  (∀ x w h, body x w h = (kv ← f x; mret (arr_set w kv.1 kv.2)) h) →
  ∀ w h, forEach body xs w h = (ws ← mapM f xs; mret (write_slots ws w)) h.
Proof.
  intros Hbody. induction xs as [|x xs IH]; intros w h; simpl; [done |].
  unfold_st. rewrite Hbody. unfold_st.
  destruct (f x h) as [h1 [e|kv]]; [done |].
  rewrite IH. unfold_st.
  by destruct (mapM f xs h1) as [h2 [e|ws]].
Qed.

Lemma forEach_null_slots {A} (pos : A → Z) xs (w : array) (h : heap) :
  forEach (λ x w, mret (arr_set w (pos x - 1) None)) xs w h
  = (h, inr (null_slots (pos <$> xs) w)).
Proof.
  revert w. induction xs as [|x xs IH]; intros w; simpl; [done |].
  unfold_st. by rewrite IH.
Qed.

Lemma forEach_added_rows xs (w : array) (h : heap) :
  forEach (λ added newResults,
    i ← get_prop added "_index";
    mret (match minus_one i with
          | Some k => arr_set newResults k (Some added)
          | None => newResults
          end)) xs w h
  = (aw ← added_rows xs; mret (write_slots aw w)) h.
Proof.
  unfold added_rows. revert w.
  induction xs as [|x xs IH]; intros w; simpl; [done |].
  unfold_st. unfold get_prop, read. unfold_st. simpl.
  rewrite IH. unfold_st.
  destruct (@mapM (ST heap) _ _ _ _ _ xs h) as [h2 [e|ws]]; [done |]. simpl.
  by destruct (minus_one _).
Qed.

Lemma unless_null_default {A S} (xs : option (list A))
    (body : A → S → M S) (s : S) (h : heap) :
  unless_null xs body s h = forEach body (default [] xs) s h.
Proof. by destruct xs. Qed.

Lemma null_phase {A} (pos : A → Z) xs (w : array) (h : heap) :
  unless_null xs (λ x w, mret (arr_set w (pos x - 1) None)) w h
  = (h, inr (null_slots (pos <$> default [] xs) w)).
Proof. rewrite unless_null_default. apply forEach_null_slots. Qed.

Lemma copied_phase data cs (w : array) (h : heap) :
  unless_null cs (λ copied newResults,
    copyRow ← clone (arr_get data (Copied.orig_index copied - 1));
    assign copyRow "_index" (VNum (Copied.new_index copied));;
    mret (arr_set newResults (Copied.new_index copied - 1) copyRow)) w h
  = (cw ← copied_rows data (default [] cs); mret (write_slots cw w)) h.
Proof.
  rewrite unless_null_default. apply forEach_write_slots.
  intros x w' h'. unfold_st. destruct (clone _ h') as [h1 [e|v]]; [done |].
  by destruct (assign v _ _ h1) as [h2 [e|[]]].
Qed.

Lemma moved_phase data ms (w : array) (h : heap) :
  unless_null ms (λ moved newResults,
    let movingRow := arr_get data (Moved.old_index moved - 1) in
    assign movingRow "_index" (VNum (Moved.new_index moved));;
    mret (arr_set newResults (Moved.new_index moved - 1) movingRow)) w h
  = (mw ← moved_rows data (default [] ms); mret (write_slots mw w)) h.
Proof.
  rewrite unless_null_default. apply forEach_write_slots.
  intros x w' h'. unfold_st.
  by destruct (assign _ _ _ h') as [h2 [e|[]]].
Qed.

Lemma added_phase xs (w : array) (h : heap) :
  unless_null xs (λ added newResults,
    i ← get_prop added "_index";
    mret (match minus_one i with
          | Some k => arr_set newResults k (Some added)
          | None => newResults
          end)) w h
  = (aw ← added_rows (default [] xs); mret (write_slots aw w)) h.
Proof. rewrite unless_null_default. apply forEach_added_rows. Qed.

Lemma bind_unfold {T A B} (m : ST T A) (f : A → ST T B) s :
  (m ≫= f) s
  = match m s with
    | (s', inr a) => f a s'
    | (s', inl e) => (s', inl e)
    end.
Proof. done. Qed.

Lemma applyDiff_phases_eq data diff h :
  applyDiff data diff h = applyDiff_phases data diff h.
Proof.
  unfold applyDiff, applyDiff_phases.
  rewrite bind_unfold, null_phase.
  rewrite bind_unfold, null_phase.
  rewrite bind_unfold, copied_phase.
  rewrite !(bind_unfold (copied_rows _ _)).
  destruct (copied_rows data _ h) as [h1 [e|cw]]; [done |].
  unfold mret at 1, ST_ret at 1.
  rewrite bind_unfold, moved_phase.
  rewrite !(bind_unfold (moved_rows _ _)).
  destruct (moved_rows data _ h1) as [h2 [e|mw]]; [done |].
  unfold mret at 1, ST_ret at 1.
  rewrite bind_unfold, added_phase.
  rewrite !(bind_unfold (added_rows _)).
  by destruct (added_rows _ h2) as [h3 [e|aw]].
Qed.

Lemma compact_Some (rows : list loc) : compact (Some <$> rows) = rows.
Proof.
  unfold compact. induction rows as [|x rows IH]; [done |].
  simpl. f_equal. exact IH.
Qed.

(** ** The claims about applyDiff *)

(** C2.  [applyDiff] is the composition of the phases of section 4.2 in
    their order: null out the removed positions, null out the moved
    [old_index] positions, write the copied rows (clones of
    [data[orig_index-1]] with [_index] set to [new_index]), write the moved
    rows (the rows [data[old_index-1]] with [_index] set to [new_index]),
    write the added rows at [_index-1], and compact.  The rows a write
    phase writes are computed by [copied_rows], [moved_rows] and
    [added_rows] from the original [data] and the diff: none of them is
    given the working copy, so none reads a slot that was overwritten. *)
Theorem applyDiff_runs_the_phases_in_order data diff h :
  applyDiff data diff h = applyDiff_phases data diff h.
Proof. apply applyDiff_phases_eq. Qed.

(** C3 (amended).  [applyDiff] writes to the array copy only, and every
    row object of the input is, after the call, as it was, or is a row
    that a [moved] entry refers to with its [_index] set to that entry's
    [new_index] and nothing else changed. *)
Theorem applyDiff_changes_only_the_index_of_moved_rows data diff h l o :
  h !! l = Some o →
  ∃ o', (applyDiff data diff h).1 !! l = Some o'
        ∧ (o' = o
           ∨ ∃ m, m ∈ default [] (moved diff)
                  ∧ arr_get data (Moved.old_index m - 1) = Some l
                  ∧ o' = prop_set "_index" (VNum (Moved.new_index m)) o).
Proof.
  intros Hl. destruct (applyDiff_frame data diff h l o Hl) as (o' & Hl' & Ho').
  exists o'. split; [done |].
  destruct Ho' as [->|(v & (m & Hm & Hg & ->) & ->)]; eauto.
Qed.

(** ** Arrays *)

Lemma arr_get_nat (w : array) (j : nat) :
  arr_get w (Z.of_nat j) = mjoin (w !! j).
Proof.
  unfold arr_get. rewrite decide_False by lia. by rewrite Nat2Z.id.
Qed.

Lemma arr_get_arr_set_eq (w : array) k v :
  (0 ≤ k)%Z → arr_get (arr_set w k v) k = v.
Proof.
  intros Hk. unfold arr_get, arr_set. rewrite !decide_False by lia.
  cbv zeta. destruct (decide (Z.to_nat k < length w)) as [Hlt|Hge].
  - by rewrite list_lookup_insert_eq.
  - rewrite lookup_app_r by lia.
    rewrite lookup_app_r by (rewrite length_replicate; lia).
    rewrite length_replicate, Nat.sub_diag. done.
Qed.

Lemma arr_get_arr_set_ne (w : array) k k' v :
  k ≠ k' → arr_get (arr_set w k v) k' = arr_get w k'.
Proof.
  intros Hne. unfold arr_get, arr_set.
  destruct (decide (k' < 0)%Z) as [Hk'|Hk']; [done |].
  destruct (decide (k < 0)%Z) as [Hk|Hk]; [done |]. cbv zeta.
  assert (Z.to_nat k ≠ Z.to_nat k') as Hn by lia.
  destruct (decide (Z.to_nat k < length w)) as [Hlt|Hge].
  - by rewrite list_lookup_insert_ne.
  - destruct (decide (Z.to_nat k' < length w)) as [Hlt'|Hge'].
    + by rewrite lookup_app_l.
    + rewrite lookup_app_r by lia.
      rewrite (lookup_ge_None_2 w) by lia.
      destruct (decide (Z.to_nat k' < Z.to_nat k)) as [Hlt2|Hge2].
      * rewrite lookup_app_l by (rewrite length_replicate; lia).
        rewrite lookup_replicate_2 by lia. done.
      * rewrite lookup_ge_None_2; [done |].
        rewrite length_app, length_replicate. simpl. lia.
Qed.

Lemma write_slots_snoc ws kv (w : array) :
  write_slots (ws ++ [kv]) w = arr_set (write_slots ws w) kv.1 kv.2.
Proof. unfold write_slots. by rewrite foldl_app. Qed.

(** A slot that no pair of [ws] names is left as it was; a slot that the
    pairs of [ws] name with one row only holds that row. *)
Lemma arr_get_write_slots_none ws (w : array) k :
  (∀ v, (k, v) ∉ ws) → arr_get (write_slots ws w) k = arr_get w k.
Proof.
  induction ws as [|[k' v'] ws IH] using rev_ind; intros Hno; [done |].
  rewrite write_slots_snoc. simpl. rewrite arr_get_arr_set_ne.
  - apply IH. intros v Hin. apply (Hno v). apply elem_of_app. by left.
  - intros ->. apply (Hno v'). apply elem_of_app. right.
    by apply list_elem_of_singleton.
Qed.

Lemma arr_get_write_slots_some ws (w : array) k v :
  (0 ≤ k)%Z → (k, v) ∈ ws → (∀ v', (k, v') ∈ ws → v' = v) →
  arr_get (write_slots ws w) k = v.
Proof.
  intros Hk. induction ws as [|[k' v'] ws IH] using rev_ind; intros Hin Hfun.
  { by apply not_elem_of_nil in Hin. }
  rewrite write_slots_snoc. simpl.
  destruct (decide (k' = k)) as [->|Hne].
  - rewrite arr_get_arr_set_eq by done. apply Hfun.
    apply elem_of_app. right. by apply list_elem_of_singleton.
  - rewrite arr_get_arr_set_ne by done. apply IH.
    + apply elem_of_app in Hin as [Hin|Hin%list_elem_of_singleton];
        [done | congruence].
    + intros v'' Hv''. apply Hfun. apply elem_of_app. by left.
Qed.

(** A slot that some pair of [ws] names holds a row for which [P] holds,
    when [P] holds for the rows of all the pairs that name it. *)
Lemma arr_get_write_slots_prop ws (w : array) k (P : option loc → Prop) :
  (0 ≤ k)%Z → (∃ v, (k, v) ∈ ws) → (∀ v, (k, v) ∈ ws → P v) →
  P (arr_get (write_slots ws w) k).
Proof.
  intros Hk. induction ws as [|[k' v'] ws IH] using rev_ind; intros Hin HP.
  { destruct Hin as [v Hin]. by apply not_elem_of_nil in Hin. }
  rewrite write_slots_snoc. simpl.
  destruct (decide (k' = k)) as [->|Hne].
  - rewrite arr_get_arr_set_eq by done. apply HP.
    apply elem_of_app. right. by apply list_elem_of_singleton.
  - rewrite arr_get_arr_set_ne by done. apply IH.
    + destruct Hin as [v Hin]. exists v.
      apply elem_of_app in Hin as [Hin|Hin%list_elem_of_singleton];
        [done | congruence].
    + intros v Hv. apply HP. apply elem_of_app. by left.
Qed.

(** An array that holds rows in its first [n] slots and nothing after
    compacts to these rows. *)
Lemma compact_dense (w : array) n :
  (∀ j, (j < n)%nat → is_Some (mjoin (w !! j))) →
  (∀ j, (n ≤ j)%nat → mjoin (w !! j) = None) →
  ∀ j, compact w !! j = mjoin (w !! j).
Proof.
  unfold compact. revert n. induction w as [|x w IH]; intros n Hlt Hge j.
  { done. }
  destruct n as [|n].
  - assert (x = None) as -> by (apply (Hge 0%nat); lia). simpl.
    rewrite (IH 0%nat); [| intros; lia | intros j' _; apply (Hge (S j')); lia].
    rewrite (Hge j) by lia. apply (Hge (S j)). lia.
  - destruct (Hlt 0%nat) as [r Hr]; [lia |]. simpl in Hr. subst x. simpl.
    destruct j as [|j]; [done |]. simpl.
    apply (IH n).
    + intros j' Hj'. apply (Hlt (S j')). lia.
    + intros j' Hj'. apply (Hge (S j')). lia.
Qed.

Lemma compact_dense_length (w : array) n :
  (∀ j, (j < n)%nat → is_Some (mjoin (w !! j))) →
  (∀ j, (n ≤ j)%nat → mjoin (w !! j) = None) →
  length (compact w) = n.
Proof.
  intros Hlt Hge. pose proof (compact_dense w n Hlt Hge) as Hl.
  destruct (decide (length (compact w) < n)%nat) as [Hs|Hs].
  - destruct (Hlt (length (compact w))) as [r Hr]; [done |].
    rewrite <- Hl in Hr. apply lookup_lt_Some in Hr. lia.
  - destruct (decide (n < length (compact w))%nat) as [Hb|Hb]; [| lia].
    destruct (lookup_lt_is_Some_2 (compact w) n Hb) as [r Hr].
    rewrite Hl, Hge in Hr; [done | lia].
Qed.

(** ** What the write phases compute *)

Lemma get_prop_run l k h : get_prop l k h = (h, inr (get (deref h l) k)).
Proof. done. Qed.

Lemma hashes_run rows h : hashes rows h = (h, inr (hashes_in h rows)).
Proof.
  unfold hashes, hashes_in. induction rows as [|r rows IH]; [done |].
  cbn [mapM fmap list_fmap]. rewrite bind_unfold, get_prop_run.
  rewrite bind_unfold, IH. done.
Qed.


Lemma deref_app_l (h extra : heap) l :
  (l < length h)%nat → deref (h ++ extra) l = deref h l.
Proof. intros Hl. unfold deref. by rewrite lookup_app_l. Qed.

(** Every copied entry whose original is a row of the store gets a new
    object: the original with [_index] set to the entry's [new_index]. *)
Lemma copied_rows_run (data : array) cs h :
  (∀ c, c ∈ cs →
     ∃ l, arr_get data (Copied.orig_index c - 1) = Some l
          ∧ (l < length h)%nat) →
  ∃ clones,
    copied_rows data cs h
    = (h ++ clones,
       inr (imap (λ n c, ((Copied.new_index c - 1)%Z,
                          Some (length h + n)%nat)) cs))
    ∧ length clones = length cs
    ∧ ∀ n c, cs !! n = Some c →
        ∃ l, arr_get data (Copied.orig_index c - 1) = Some l
             ∧ clones !! n
               = Some (prop_set "_index" (VNum (Copied.new_index c))
                         (deref h l)).
Proof.
  unfold copied_rows. revert h.
  induction cs as [|c cs IH]; intros h Hsrc.
  { exists []. simpl. rewrite app_nil_r. split_and!; try done. }
  destruct (Hsrc c) as (l & Hl & Hlt); [by left |].
  destruct (IH (h ++ [prop_set "_index" (VNum (Copied.new_index c))
                        (deref h l)])) as (clones & Hrun & Hlen & Hcl).
  { intros c' Hc'. destruct (Hsrc c') as (l' & Hl' & Hlt'); [by right |].
    exists l'. split; [done |]. rewrite length_app. simpl. lia. }
  eexists (_ :: clones). split_and!.
  - cbn [mapM]. rewrite bind_unfold, bind_unfold, Hl.
    cbn [clone]. rewrite bind_unfold. unfold read at 1.
    rewrite bind_unfold. unfold alloc at 1. unfold mret at 1, ST_ret at 1.
    rewrite bind_unfold. cbn [assign]. unfold set_prop at 1.
    unfold mret at 1, ST_ret at 1. rewrite bind_unfold.
    replace (alter (prop_set "_index" (VNum (Copied.new_index c)))
               (length h) (h ++ [deref h l]))
      with (h ++ [prop_set "_index" (VNum (Copied.new_index c)) (deref h l)]).
    2:{ apply list_eq. intros i.
        destruct (decide (i = length h)) as [->|Hne].
        - rewrite list_lookup_alter_eq.
          rewrite !lookup_app_r, Nat.sub_diag by lia. done.
        - rewrite list_lookup_alter_ne by done.
          destruct (decide (i < length h)%nat).
          + by rewrite !lookup_app_l.
          + rewrite !lookup_app_r by lia.
            by destruct (i - length h)%nat as [|[|?]] eqn:?; [lia | |]. }
    rewrite Hrun. unfold mret, ST_ret. rewrite <- app_assoc. simpl.
    do 3 f_equal.
    + f_equal. f_equal. lia.
    + apply imap_ext. intros n c' _. simpl. do 2 f_equal.
      rewrite length_app. simpl. lia.
  - simpl. by rewrite Hlen.
  - intros [|n] c' Hc'; simpl in Hc'.
    + injection Hc' as <-. exists l. by split.
    + destruct (Hcl n c' Hc') as (l' & Hl' & Hcl').
      destruct (Hsrc c') as (l'' & Hl'' & Hlt'').
      { right. by eapply list_elem_of_lookup_2. }
      assert (l'' = l') as -> by congruence.
      exists l'. split; [done |]. simpl. rewrite Hcl'.
      by rewrite deref_app_l.
Qed.

(** The moved entries whose sources are rows: each source ends with its
    [_index] set by an entry that refers to it, rows that no entry refers
    to are left as they are, and the store keeps its length. *)
Lemma moved_rows_run (data : array) ms h :
  (∀ m, m ∈ ms → is_Some (arr_get data (Moved.old_index m - 1))) →
  ∃ h',
    moved_rows data ms h
    = (h', inr ((λ m, ((Moved.new_index m - 1)%Z,
                       arr_get data (Moved.old_index m - 1))) <$> ms))
    ∧ length h' = length h
    ∧ ∀ l o, h !! l = Some o →
        ∃ o', h' !! l = Some o'
          ∧ ((o' = o
              ∧ ∀ m, m ∈ ms → arr_get data (Moved.old_index m - 1) ≠ Some l)
             ∨ ∃ m, m ∈ ms
                    ∧ arr_get data (Moved.old_index m - 1) = Some l
                    ∧ o' = prop_set "_index" (VNum (Moved.new_index m)) o).
Proof.
  unfold moved_rows. revert h.
  induction ms as [|m ms IH]; intros h Hsrc.
  { exists h. split_and!; try done. intros l o Hl. exists o.
    split; [done |]. left. split; [done |]. by intros m ?%not_elem_of_nil. }
  destruct (Hsrc m) as [l0 Hl0]; [by left |].
  destruct (IH (alter (prop_set "_index" (VNum (Moved.new_index m))) l0 h))
    as (h' & Hrun & Hlen & Hfr).
  { intros m' Hm'. apply Hsrc. by right. }
  exists h'. split_and!.
  - cbn [mapM]. cbv zeta. rewrite bind_unfold, bind_unfold, Hl0.
    cbn [assign]. unfold set_prop at 1. unfold mret at 1, ST_ret at 1.
    rewrite bind_unfold, Hrun. cbn [fmap list_fmap]. by rewrite Hl0.
  - by rewrite Hlen, length_alter.
  - intros l o Hl. destruct (decide (l0 = l)) as [->|Hne].
    + destruct (Hfr l (prop_set "_index" (VNum (Moved.new_index m)) o))
        as (o' & Ho' & Hcase).
      { by rewrite list_lookup_alter_eq, Hl. }
      exists o'. split; [done |]. right.
      destruct Hcase as [[-> _]|(m' & Hm' & Hsrc' & ->)].
      * exists m. split_and!; [by left | done | done].
      * exists m'. split_and!; [by right | done |]. by rewrite prop_set_set.
    + destruct (Hfr l o) as (o' & Ho' & Hcase).
      { by rewrite list_lookup_alter_ne. }
      exists o'. split; [done |].
      destruct Hcase as [[-> Hno]|(m' & Hm' & Hsrc' & ->)].
      * left. split; [done |].
        intros m' [->|Hm']%elem_of_cons; [congruence | by apply Hno].
      * right. exists m'. split_and!; [by right | done | done].
Qed.

Lemma added_rows_run rows h :
  added_rows rows h
  = (h, inr (omap (λ added,
                     (λ k : Z, (k, Some added))
                       <$> minus_one (get (deref h added) "_index")) rows)).
Proof.
  unfold added_rows. rewrite bind_unfold.
  assert (mapM (λ added, i ← get_prop added "_index";
                         mret (minus_one i, added)) rows h
          = (h, inr ((λ added, (minus_one (get (deref h added) "_index"),
                                added)) <$> rows))) as ->.
  { induction rows as [|r rows IH]; [done |].
    cbn [mapM fmap list_fmap]. rewrite bind_unfold, bind_unfold.
    rewrite get_prop_run. unfold mret at 1, ST_ret at 1.
    rewrite bind_unfold, IH. done. }
  unfold mret, ST_ret. do 2 f_equal.
  induction rows as [|r rows IH]; [done |].
  cbn [fmap list_fmap omap list_omap]. rewrite <- IH.
  by destruct (minus_one _).
Qed.

(** ** The lists of the differ, entry by entry *)

Lemma elem_of_enumerate {A} (l : list A) i x :
  (i, x) ∈ enumerate l ↔ l !! i = Some x.
Proof.
  unfold enumerate. rewrite elem_of_lookup_imap. split.
  - by intros (i' & x' & [= -> ->] & Hl).
  - intros Hl. by exists i, x.
Qed.

Lemma elem_of_diff_removed oldHashes newHashes r :
  r ∈ diff_removed oldHashes newHashes
  ↔ ∃ i x, oldHashes !! i = Some x ∧ (x ∉ newHashes)
           ∧ r = Removed.mk (Z.of_nat i + 1).
Proof.
  unfold diff_removed. rewrite list_elem_of_omap. split.
  - intros ([i x] & Hin%elem_of_enumerate & Hr).
    destruct (decide (x ∈ newHashes)); [done |].
    injection Hr as <-. by exists i, x.
  - intros (i & x & Hl & Hx & ->). exists (i, x).
    split; [by apply elem_of_enumerate |]. by rewrite decide_False.
Qed.

Lemma elem_of_diff_moved oldHashes newHashes m :
  m ∈ diff_moved oldHashes newHashes
  ↔ ∃ i j x, newHashes !! j = Some x ∧ indexOf x oldHashes = Some i
             ∧ indexOf x newHashes = Some j ∧ i ≠ j
             ∧ m = Moved.mk (Z.of_nat i + 1) (Z.of_nat j + 1).
Proof.
  unfold diff_moved. rewrite list_elem_of_omap. split.
  - intros ([j x] & Hin%elem_of_enumerate & Hm).
    destruct (indexOf x oldHashes) as [i|] eqn:Hi; [| done].
    destruct (decide _) as [[Hj Hne]|]; [| done].
    injection Hm as <-. by exists i, j, x.
  - intros (i & j & x & Hl & Hi & Hj & Hne & ->). exists (j, x).
    split; [by apply elem_of_enumerate |].
    rewrite Hi. by rewrite decide_True.
Qed.

Lemma elem_of_diff_copied oldHashes newHashes c :
  c ∈ diff_copied oldHashes newHashes
  ↔ ∃ i j x, newHashes !! j = Some x ∧ indexOf x oldHashes = Some i
             ∧ (occurrences x oldHashes
                ≤ occurrences x (take j newHashes))%nat
             ∧ c = Copied.mk (Z.of_nat i + 1) (Z.of_nat j + 1).
Proof.
  unfold diff_copied. rewrite list_elem_of_omap. split.
  - intros ([j x] & Hin%elem_of_enumerate & Hc).
    destruct (indexOf x oldHashes) as [i|] eqn:Hi; [| done].
    destruct (decide _) as [Hocc|]; [| done].
    injection Hc as <-. by exists i, j, x.
  - intros (i & j & x & Hl & Hi & Hocc & ->). exists (j, x).
    split; [by apply elem_of_enumerate |].
    rewrite Hi. by rewrite decide_True.
Qed.

Lemma elem_of_diff_added oldHashes newHashes (newRows : list loc) l :
  l ∈ diff_added oldHashes (zip newHashes newRows)
  ↔ ∃ j x, newHashes !! j = Some x ∧ newRows !! j = Some l
           ∧ (x ∉ oldHashes).
Proof.
  unfold diff_added. rewrite list_elem_of_omap. split.
  - intros ([x l'] & Hin & Hl). simpl in Hl.
    destruct (decide (x ∈ oldHashes)); [done |]. injection Hl as ->.
    apply elem_of_lookup_zip_with in Hin as (j & x' & l'' & [= <- <-] & ? & ?).
    by exists j, x.
  - intros (j & x & Hx & Hl & Hno). exists (x, l). split.
    + apply elem_of_lookup_zip_with. by exists j, x, l.
    + simpl. by rewrite decide_False.
Qed.

(** ** indexOf and occurrences *)

Lemma indexOf_Some x l i :
  indexOf x l = Some i →
  l !! i = Some x ∧ ∀ i', (i' < i)%nat → l !! i' ≠ Some x.
Proof.
  revert i. induction l as [|y l IH]; intros i; simpl; [done |].
  destruct (decide (x = y)) as [->|Hne].
  - intros [= <-]. split; [done |]. intros; lia.
  - destruct (indexOf x l) as [i0|]; [| done]. intros [= <-].
    destruct (IH i0 eq_refl) as [Hl Hfirst]. split; [done |].
    intros [|i'] Hi'; simpl; [congruence |]. apply Hfirst. lia.
Qed.

Lemma indexOf_first x l j :
  l !! j = Some x → ∃ j', (j' ≤ j)%nat ∧ indexOf x l = Some j'.
Proof.
  revert j. induction l as [|y l IH]; intros j; simpl; [done |].
  destruct (decide (x = y)) as [->|Hne].
  - intros _. exists 0%nat. split; [lia | done].
  - destruct j as [|j]; simpl; [congruence |]. intros Hl.
    destruct (IH j Hl) as (j' & Hle & ->). exists (S j'). split; [lia | done].
Qed.

Lemma indexOf_NoDup x l i :
  NoDup l → l !! i = Some x → indexOf x l = Some i.
Proof.
  intros Hnd Hl. destruct (indexOf_first x l i Hl) as (j' & Hle & Hj').
  destruct (indexOf_Some _ _ _ Hj') as [Hl' _].
  by rewrite (NoDup_lookup l i j' x Hnd Hl Hl').
Qed.

Lemma indexOf_elem_of x l : is_Some (indexOf x l) ↔ x ∈ l.
Proof.
  split.
  - intros [i Hi]. apply indexOf_Some in Hi as [Hl _].
    by eapply list_elem_of_lookup_2.
  - intros (j & Hj)%list_elem_of_lookup.
    destruct (indexOf_first x l j Hj) as (j' & _ & ->). eauto.
Qed.

Lemma occurrences_pos x l : (1 ≤ occurrences x l)%nat ↔ x ∈ l.
Proof.
  unfold occurrences. induction l as [|y l IH]; simpl.
  - split; [lia | by intros ?%not_elem_of_nil].
  - rewrite filter_cons. destruct (decide (x = y)) as [->|Hne].
    + simpl. split; [intros _; by left | lia].
    + rewrite IH. split; [by right |].
      by intros [?|?]%elem_of_cons.
Qed.

Lemma occurrences_NoDup x l : NoDup l → x ∈ l → occurrences x l = 1%nat.
Proof.
  unfold occurrences. induction 1 as [|y l Hy Hnd IH]; intros Hx.
  { by apply not_elem_of_nil in Hx. }
  pose proof (occurrences_pos x l) as Hpos. unfold occurrences in Hpos.
  rewrite filter_cons. destruct (decide (x = y)) as [->|Hne].
  - simpl. destruct (length (filter (eq y) l)); [done |].
    destruct Hy. apply Hpos. lia.
  - apply IH. by apply elem_of_cons in Hx as [?|?].
Qed.

Lemma arr_get_null_slots ps (w : array) k :
  arr_get (null_slots ps w) k
  = if decide ((k + 1)%Z ∈ ps ∧ (0 ≤ k)%Z) then None else arr_get w k.
Proof.
  unfold null_slots. destruct (decide _) as [[Hin Hk]|Hno].
  - apply arr_get_write_slots_some; [done | |].
    + apply list_elem_of_fmap. exists (k + 1)%Z. split; [f_equal; lia | done].
    + by intros v' (p & [= _ ->] & _)%list_elem_of_fmap.
  - destruct (decide (0 ≤ k)%Z) as [Hk|Hk].
    + apply arr_get_write_slots_none.
      intros v (p & [= -> ->] & Hp)%list_elem_of_fmap. apply Hno.
      split; [| done]. by replace (p - 1 + 1)%Z with p by lia.
    + unfold arr_get. by rewrite !decide_True by lia.
Qed.

Lemma arr_get_Some_fmap (rows : list loc) (i : nat) :
  arr_get (Some <$> rows) (Z.of_nat i) = rows !! i.
Proof.
  rewrite arr_get_nat, list_lookup_fmap. by destruct (rows !! i).
Qed.

Lemma get_deref_allocated (h : heap) l k :
  get (deref h l) k ≠ VUndefined → (l < length h)%nat.
Proof.
  intros Hget. apply lookup_lt_is_Some. unfold deref in Hget.
  destruct (h !! l); [eauto | done].
Qed.

(** ** The round trip: applying a diff that accounts for two result sets *)

(** What a slot holds after a list of writes, when every write to the
    slot writes something good: something good, if the slot is written or
    held something good before. *)
Lemma arr_get_write_slots_cases ws (w : array) k (P : option loc → Prop) :
  (0 ≤ k)%Z → (∀ v, (k, v) ∈ ws → P v) →
  (∃ v, (k, v) ∈ ws) ∨ P (arr_get w k) →
  P (arr_get (write_slots ws w) k).
Proof.
  intros Hk Hall Hor.
  destruct (decide (k ∈ ws.*1)) as [Hin|Hin].
  - apply arr_get_write_slots_prop; [done | | done].
    apply list_elem_of_fmap in Hin as ([k' v] & -> & Hin). by exists v.
  - assert (∀ v, (k, v) ∉ ws) as Hno.
    { intros v Hv. apply Hin. apply list_elem_of_fmap. by exists (k, v). }
    rewrite arr_get_write_slots_none by done.
    destruct Hor as [[v Hv]|HP]; [by apply Hno in Hv | done].
Qed.

Lemma NoDup_fmap_eq {A B} (f : A → B) (l : list A) x y :
  NoDup (f <$> l) → x ∈ l → y ∈ l → f x = f y → x = y.
Proof.
  intros Hnd (n & Hn)%list_elem_of_lookup (n' & Hn')%list_elem_of_lookup Hf.
  assert (n = n') as ->.
  { apply (NoDup_lookup (f <$> l) n n' (f x)); [done | |].
    - by rewrite list_lookup_fmap, Hn.
    - by rewrite list_lookup_fmap, Hn', Hf. }
  congruence.
Qed.


Lemma forallb_elem {A} (f : A → bool) (l : list A) :
  forallb f l = true ↔ ∀ x, x ∈ l → f x = true.
Proof.
  rewrite forallb_forall. split; intros Hx x Hin; apply Hx;
    by apply list_elem_of_In.
Qed.

Lemma lookup_zip_hashes h (rows : list loc) j x l :
  zip (hashes_in h rows) rows !! j = Some (x, l)
  ↔ rows !! j = Some l ∧ x = get (deref h l) "_hash".
Proof.
  unfold hashes_in. rewrite lookup_zip_with_Some. split.
  - intros (x' & l' & [= -> ->] & Hx & Hl).
    rewrite list_lookup_fmap, Hl in Hx. simpl in Hx. by injection Hx as <-.
  - intros [Hl ->]. exists (get (deref h l) "_hash"), l.
    split_and!; [done | | done]. by rewrite list_lookup_fmap, Hl.
Qed.

Lemma length_zip_hashes h (rows : list loc) :
  length (zip (hashes_in h rows) rows) = length rows.
Proof.
  unfold hashes_in. rewrite length_zip_with, length_fmap. lia.
Qed.

Lemma lookup_hashes_in h (rows : list loc) i x :
  hashes_in h rows !! i = Some x
  ↔ ∃ a, rows !! i = Some a ∧ x = get (deref h a) "_hash".
Proof.
  unfold hashes_in. rewrite list_lookup_fmap. split.
  - destruct (rows !! i) as [a|]; [| done]. intros [= <-]. by exists a.
  - intros (a & -> & ->). done.
Qed.

Lemma entry_ok_spec h old new source target :
  entry_ok (hashes_in h old) (zip (hashes_in h new) new) source target = true →
  ∃ (i j : nat) a b,
    source = (Z.of_nat i + 1)%Z ∧ target = (Z.of_nat j + 1)%Z
    ∧ old !! i = Some a ∧ new !! j = Some b
    ∧ get (deref h a) "_hash" = get (deref h b) "_hash".
Proof.
  unfold entry_ok. rewrite !andb_true_iff, !bool_decide_eq_true.
  intros [[Hs Ht] Hm].
  destruct (hashes_in h old !! _) as [x|] eqn:Hx; [| done].
  destruct (zip _ _ !! _) as [[y b]|] eqn:Hy; [| done].
  apply bool_decide_eq_true in Hm. simpl in Hm. subst y.
  apply lookup_hashes_in in Hx as (a & Ha & ->).
  apply lookup_zip_hashes in Hy as [Hb Hab].
  exists (Z.to_nat (source - 1)), (Z.to_nat (target - 1)), a, b.
  split_and!; [lia | lia | done | done | done].
Qed.

Lemma added_ok_spec h old new l :
  added_ok h (hashes_in h old) (zip (hashes_in h new) new) l = true →
  ∃ j : nat,
    new !! j = Some l
    ∧ minus_one (get (deref h l) "_index") = Some (Z.of_nat j)
    ∧ get (deref h l) "_hash" ∉ hashes_in h old.
Proof.
  unfold added_ok.
  destruct (minus_one _) as [k|]; [| done].
  rewrite andb_true_iff, bool_decide_eq_true. intros [Hk Hm].
  destruct (zip _ _ !! _) as [[y b]|] eqn:Hy; [| done].
  apply andb_true_iff in Hm as [Hb Hn].
  apply bool_decide_eq_true in Hb, Hn. simpl in *. subst b.
  apply lookup_zip_hashes in Hy as [Hl ->].
  exists (Z.to_nat k). split_and!; [done | f_equal; lia | done].
Qed.

(** The old rows [old], distinct objects of the store [h], the new rows
    [new] and a diff that accounts for them. *)
Section accounted.
Context (h : heap) (old new : list loc) (diff : Diff).
Context (Hold : distinct_rows h old).
Context (Hacc : accounts_for h (hashes_in h old) (zip (hashes_in h new) new)
                  diff = true).

Let ms := default [] (moved diff).
Let cs := default [] (copied diff).
Let rs := default [] (removed diff).
Let adds := default [] (added diff).
Let data : array := Some <$> old.

Lemma acc_moved m :
  m ∈ ms →
  ∃ (i j : nat) a b,
    Moved.old_index m = (Z.of_nat i + 1)%Z
    ∧ Moved.new_index m = (Z.of_nat j + 1)%Z
    ∧ old !! i = Some a ∧ new !! j = Some b
    ∧ get (deref h a) "_hash" = get (deref h b) "_hash".
Proof.
  intros Hm. unfold accounts_for in Hacc.
  rewrite !andb_true_iff in Hacc.
  destruct Hacc as [[[[[H1 _] _] _] _] _].
  rewrite forallb_elem in H1. by apply entry_ok_spec, H1.
Qed.

Lemma acc_copied c :
  c ∈ cs →
  ∃ (i j : nat) a b,
    Copied.orig_index c = (Z.of_nat i + 1)%Z
    ∧ Copied.new_index c = (Z.of_nat j + 1)%Z
    ∧ old !! i = Some a ∧ new !! j = Some b
    ∧ get (deref h a) "_hash" = get (deref h b) "_hash".
Proof.
  intros Hm. unfold accounts_for in Hacc.
  rewrite !andb_true_iff in Hacc.
  destruct Hacc as [[[[[_ H1] _] _] _] _].
  rewrite forallb_elem in H1. by apply entry_ok_spec, H1.
Qed.

Lemma acc_added l :
  l ∈ adds →
  ∃ j : nat,
    new !! j = Some l
    ∧ minus_one (get (deref h l) "_index") = Some (Z.of_nat j)
    ∧ get (deref h l) "_hash" ∉ hashes_in h old.
Proof.
  intros Hm. unfold accounts_for in Hacc.
  rewrite !andb_true_iff in Hacc.
  destruct Hacc as [[[[_ H1] _] _] _].
  rewrite forallb_elem in H1. by apply added_ok_spec, H1.
Qed.

Lemma acc_NoDup : NoDup (moved_from diff).
Proof.
  unfold accounts_for in Hacc. rewrite !andb_true_iff in Hacc.
  destruct Hacc as [[[_ H1] _] _]. by apply bool_decide_eq_true in H1.
Qed.

Lemma acc_position (j : nat) b :
  new !! j = Some b →
  (hashes_in h old !! j = Some (get (deref h b) "_hash")
   ∧ ((Z.of_nat j + 1)%Z ∉ removed_positions diff)
   ∧ ((Z.of_nat j + 1)%Z ∉ moved_from diff))
  ∨ ((Z.of_nat j + 1)%Z ∈ moved_to diff)
  ∨ ((Z.of_nat j + 1)%Z ∈ copied_to diff)
  ∨ (b ∈ adds
     ∧ minus_one (get (deref h b) "_index") = Some (Z.of_nat j)).
Proof.
  intros Hb. unfold accounts_for in Hacc. rewrite !andb_true_iff in Hacc.
  destruct Hacc as [[_ H1] _]. rewrite forallb_elem in H1.
  specialize (H1 (j, (get (deref h b) "_hash", b))).
  unfold position_ok in H1. simpl in H1.
  rewrite !orb_true_iff, !andb_true_iff, !bool_decide_eq_true in H1.
  destruct H1 as [[[H1|H1]|H1]|H1]; [| tauto..].
  apply elem_of_enumerate. by apply lookup_zip_hashes.
Qed.

Lemma acc_tail (j : nat) :
  (length new ≤ j < length old)%nat →
  ((Z.of_nat j + 1)%Z ∈ removed_positions diff)
  ∨ ((Z.of_nat j + 1)%Z ∈ moved_from diff).
Proof.
  intros Hj. unfold accounts_for in Hacc. rewrite !andb_true_iff in Hacc.
  destruct Hacc as [_ H1]. rewrite forallb_elem in H1.
  specialize (H1 j). rewrite bool_decide_eq_true, elem_of_app in H1.
  apply H1. apply elem_of_seq.
  rewrite length_zip_hashes. unfold hashes_in. rewrite length_fmap. lia.
Qed.

Lemma old_lt a : a ∈ old → (a < length h)%nat.
Proof. apply Hold. Qed.

Lemma old_pos i i' a : old !! i = Some a → old !! i' = Some a → i = i'.
Proof. destruct Hold as [Hnd _]. by apply NoDup_lookup. Qed.

Lemma data_at (i : nat) : arr_get data (Z.of_nat i + 1 - 1) = old !! i.
Proof.
  replace (Z.of_nat i + 1 - 1)%Z with (Z.of_nat i) by lia.
  apply arr_get_Some_fmap.
Qed.

Lemma data_source k a :
  arr_get data (k - 1) = Some a →
  ∃ i : nat, k = (Z.of_nat i + 1)%Z ∧ old !! i = Some a.
Proof.
  unfold arr_get. destruct (decide _) as [|Hk]; [done |].
  intros Ha. exists (Z.to_nat (k - 1)). split; [lia |].
  unfold data in Ha. rewrite list_lookup_fmap in Ha.
  by destruct (old !! _) as [a'|]; simplify_eq/=.
Qed.

Lemma old_hash a : a ∈ old → get (deref h a) "_hash" ∈ hashes_in h old.
Proof.
  intros Ha. unfold hashes_in. apply list_elem_of_fmap. by exists a.
Qed.

Lemma added_not_old l : l ∈ adds → l ∉ old.
Proof.
  intros Hl Hin. destruct (acc_added l Hl) as (j & _ & _ & Hn).
  by apply Hn, old_hash.
Qed.

(** The clones that the [copied] entries allocate and the store [h2]
    after the writes of the [moved] entries; [w5] is the working copy
    after the five write phases. *)
Section slots.
Context (clones : list obj) (h2 : heap).
Context (Hclones : ∀ n c, cs !! n = Some c →
           ∃ l, arr_get data (Copied.orig_index c - 1) = Some l
                ∧ clones !! n
                  = Some (prop_set "_index" (VNum (Copied.new_index c))
                            (deref h l))).
Context (Hh2 : ∀ l o, (h ++ clones) !! l = Some o →
           ∃ o', h2 !! l = Some o'
             ∧ ((o' = o
                 ∧ ∀ m, m ∈ ms →
                     arr_get data (Moved.old_index m - 1) ≠ Some l)
                ∨ ∃ m, m ∈ ms
                       ∧ arr_get data (Moved.old_index m - 1) = Some l
                       ∧ o' = prop_set "_index" (VNum (Moved.new_index m))
                                o)).

Let cw : list (Z * option loc) :=
  imap (λ n c, ((Copied.new_index c - 1)%Z, Some (length h + n)%nat)) cs.
Let mw : list (Z * option loc) :=
  (λ m, ((Moved.new_index m - 1)%Z,
         arr_get data (Moved.old_index m - 1))) <$> ms.
Let aw : list (Z * option loc) :=
  omap (λ added, (λ k : Z, (k, Some added))
                   <$> minus_one (get (deref h2 added) "_index")) adds.
Let w2 : array :=
  null_slots (moved_from diff) (null_slots (removed_positions diff) data).
Let w5 : array := write_slots aw (write_slots mw (write_slots cw w2)).

Lemma unmoved l :
  (l < length h)%nat →
  (∀ m, m ∈ ms → arr_get data (Moved.old_index m - 1) ≠ Some l) →
  deref h2 l = deref h l.
Proof.
  intros Hl Hno. destruct (lookup_lt_is_Some_2 h l Hl) as [o Ho].
  destruct (Hh2 l o) as (o' & Ho' & [[-> _]|(m & Hm & Hs & _)]).
  - by rewrite lookup_app_l.
  - unfold deref. by rewrite Ho, Ho'.
  - by apply Hno in Hs.
Qed.

Lemma moved_row m a :
  m ∈ ms → arr_get data (Moved.old_index m - 1) = Some a →
  deref h2 a = prop_set "_index" (VNum (Moved.new_index m)) (deref h a).
Proof.
  intros Hm Ha.
  destruct (data_source _ _ Ha) as (i & Hi & Hoi).
  assert (a < length h)%nat as Hl.
  { apply old_lt. by eapply list_elem_of_lookup_2. }
  destruct (lookup_lt_is_Some_2 h a Hl) as [o Ho].
  destruct (Hh2 a o) as (o' & Ho' & [[_ Hno]|(m' & Hm' & Hs & ->)]).
  - by rewrite lookup_app_l.
  - by apply Hno in Ha.
  - destruct (data_source _ _ Hs) as (i' & Hi' & Hoi').
    assert (i = i') as <- by by eapply old_pos.
    assert (m = m') as <-.
    { apply (NoDup_fmap_eq Moved.old_index ms); [apply acc_NoDup | done..|].
      congruence. }
    unfold deref. by rewrite Ho, Ho'.
Qed.

Lemma cloned_row n c :
  cs !! n = Some c →
  ∃ a, arr_get data (Copied.orig_index c - 1) = Some a
       ∧ deref h2 (length h + n)
         = prop_set "_index" (VNum (Copied.new_index c)) (deref h a).
Proof.
  intros Hc. destruct (Hclones n c Hc) as (a & Ha & Hcl).
  exists a. split; [done |].
  destruct (Hh2 (length h + n)%nat
              (prop_set "_index" (VNum (Copied.new_index c)) (deref h a)))
    as (o' & Ho' & [[-> _]|(m & Hm & Hs & _)]).
  - rewrite lookup_app_r by lia.
    replace (length h + n - length h)%nat with n by lia. exact Hcl.
  - unfold deref. by rewrite Ho'.
  - destruct (data_source _ _ Hs) as (i & _ & Hoi).
    apply list_elem_of_lookup_2, old_lt in Hoi. lia.
Qed.

Lemma added_unmoved l : l ∈ adds → deref h2 l = deref h l.
Proof.
  intros Hl. destruct (acc_added l Hl) as (j & _ & Hi & _).
  apply unmoved.
  - apply (get_deref_allocated h l "_index"). intros Hu.
    by rewrite Hu in Hi.
  - intros m Hm Hs. destruct (data_source _ _ Hs) as (i & _ & Hoi).
    apply list_elem_of_lookup_2 in Hoi. by apply added_not_old in Hl.
Qed.

Let good (j : nat) (b : loc) (v : option loc) : Prop :=
  ∃ r, v = Some r ∧ placed h h2 old j b r.

Lemma added_slot k v :
  (k, v) ∈ aw →
  ∃ (j : nat) b, k = Z.of_nat j ∧ new !! j = Some b ∧ good j b v.
Proof.
  unfold aw. intros (l & Hl & Hk)%list_elem_of_omap.
  rewrite (added_unmoved l Hl) in Hk.
  destruct (acc_added l Hl) as (j & Hj & Hi & Hn).
  rewrite Hi in Hk. simpl in Hk. injection Hk as <- <-.
  exists j, l. split_and!; [done..|]. exists l. split; [done |].
  right; right. split_and!; [done..|]. by apply added_unmoved.
Qed.

Lemma added_slot_written j b :
  b ∈ adds → minus_one (get (deref h b) "_index") = Some (Z.of_nat j) →
  ∃ v, (Z.of_nat j, v) ∈ aw.
Proof.
  intros Hb Hi. exists (Some b). unfold aw. apply list_elem_of_omap.
  exists b. split; [done |]. by rewrite (added_unmoved b Hb), Hi.
Qed.

Lemma moved_slot k v :
  (k, v) ∈ mw →
  ∃ (j : nat) b, k = Z.of_nat j ∧ new !! j = Some b ∧ good j b v.
Proof.
  unfold mw. intros (m & [= -> ->] & Hm)%list_elem_of_fmap.
  destruct (acc_moved m Hm) as (i & j & a & b & Hoi & Hni & Ha & Hb & Hh).
  exists j, b. split_and!; [lia | done |].
  assert (arr_get data (Moved.old_index m - 1) = Some a) as Hs.
  { by rewrite Hoi, data_at. }
  exists a. split; [done |]. right; left. exists a. split_and!.
  - by eapply list_elem_of_lookup_2.
  - done.
  - by rewrite (moved_row m a Hm Hs), Hni.
Qed.

Lemma moved_slot_written (j : nat) :
  (Z.of_nat j + 1)%Z ∈ moved_to diff → ∃ v, (Z.of_nat j, v) ∈ mw.
Proof.
  unfold moved_to. intros (m & Hj & Hm)%list_elem_of_fmap.
  eexists. unfold mw. apply list_elem_of_fmap. exists m. split; [| done].
  f_equal. lia.
Qed.

Lemma copied_slot k v :
  (k, v) ∈ cw →
  ∃ (j : nat) b, k = Z.of_nat j ∧ new !! j = Some b ∧ good j b v.
Proof.
  unfold cw. intros (n & c & [= -> ->] & Hc)%elem_of_lookup_imap.
  assert (c ∈ cs) as Hin by by eapply list_elem_of_lookup_2.
  destruct (acc_copied c Hin) as (i & j & a & b & Hoi & Hni & Ha & Hb & Hh).
  exists j, b. split_and!; [lia | done |].
  destruct (cloned_row n c Hc) as (a' & Hs & Hd).
  rewrite Hoi, data_at, Ha in Hs. injection Hs as <-.
  eexists. split; [done |]. right; left. exists a. split_and!.
  - by eapply list_elem_of_lookup_2.
  - done.
  - by rewrite Hd, Hni.
Qed.

Lemma copied_slot_written (j : nat) :
  (Z.of_nat j + 1)%Z ∈ copied_to diff → ∃ v, (Z.of_nat j, v) ∈ cw.
Proof.
  unfold copied_to. intros (c & Hj & Hc)%list_elem_of_fmap.
  apply list_elem_of_lookup in Hc as (n & Hn).
  eexists. unfold cw. apply elem_of_lookup_imap. exists n, c.
  split; [| done]. f_equal. lia.
Qed.

Lemma kept_slot (j : nat) b :
  hashes_in h old !! j = Some (get (deref h b) "_hash") →
  (Z.of_nat j + 1)%Z ∉ removed_positions diff →
  (Z.of_nat j + 1)%Z ∉ moved_from diff →
  good j b (arr_get w2 (Z.of_nat j)).
Proof.
  intros (r & Hr & Hh)%lookup_hashes_in Hnr Hnm. unfold w2.
  rewrite !arr_get_null_slots.
  destruct (decide _) as [[? _]|_]; [done |].
  destruct (decide _) as [[? _]|_]; [done |].
  unfold data. rewrite arr_get_Some_fmap, Hr.
  exists r. split; [done |]. left. split_and!; [done..|].
  apply unmoved.
  - apply old_lt. by eapply list_elem_of_lookup_2.
  - intros m Hm Hs. destruct (data_source _ _ Hs) as (i & Hi & Hoi).
    assert (i = j) as -> by by eapply old_pos.
    apply Hnm. unfold moved_from. apply list_elem_of_fmap. by exists m.
Qed.

(** Every position of the new rows ends with a row placed there, and no
    row is left past the end. *)
Lemma final_slot (j : nat) b :
  new !! j = Some b → good j b (arr_get w5 (Z.of_nat j)).
Proof.
  intros Hb.
  assert (∀ ws : list (Z * option loc),
    (∀ k v, (k, v) ∈ ws →
       ∃ (j : nat) b, k = Z.of_nat j ∧ new !! j = Some b ∧ good j b v) →
    ∀ v, (Z.of_nat j, v) ∈ ws → good j b v) as Hat.
  { intros ws Hws v Hv.
    destruct (Hws _ _ Hv) as (j' & b' & Hj & Hb' & Hg).
    apply Nat2Z.inj in Hj as <-. by simplify_eq. }
  unfold w5.
  destruct (acc_position j b Hb) as [(Hk & Hnr & Hnm)|[Hm|[Hc|[Ha Hi]]]].
  - apply arr_get_write_slots_cases; [lia | apply Hat, added_slot |].
    right. apply arr_get_write_slots_cases; [lia | apply Hat, moved_slot |].
    right. apply arr_get_write_slots_cases; [lia | apply Hat, copied_slot |].
    right. by apply kept_slot.
  - apply arr_get_write_slots_cases; [lia | apply Hat, added_slot |].
    right. apply arr_get_write_slots_cases; [lia | apply Hat, moved_slot |].
    left. by apply moved_slot_written.
  - apply arr_get_write_slots_cases; [lia | apply Hat, added_slot |].
    right. apply arr_get_write_slots_cases; [lia | apply Hat, moved_slot |].
    right. apply arr_get_write_slots_cases; [lia | apply Hat, copied_slot |].
    left. by apply copied_slot_written.
  - apply arr_get_write_slots_cases; [lia | apply Hat, added_slot |].
    left. by eapply added_slot_written.
Qed.

Lemma past_the_end (j : nat) :
  (length new ≤ j)%nat → arr_get w5 (Z.of_nat j) = None.
Proof.
  intros Hj.
  assert (∀ ws : list (Z * option loc),
    (∀ k v, (k, v) ∈ ws →
       ∃ (j : nat) b, k = Z.of_nat j ∧ new !! j = Some b ∧ good j b v) →
    ∀ v, (Z.of_nat j, v) ∉ ws) as Hno.
  { intros ws Hws v Hv.
    destruct (Hws _ _ Hv) as (j' & b' & Hj' & Hb' & _).
    apply Nat2Z.inj in Hj' as <-. apply lookup_lt_Some in Hb'. lia. }
  unfold w5.
  rewrite !arr_get_write_slots_none
    by (apply Hno; first [apply added_slot | apply moved_slot
                         | apply copied_slot]).
  unfold w2. rewrite !arr_get_null_slots.
  destruct (decide _) as [|Hm]; [done |].
  destruct (decide _) as [|Hr]; [done |].
  unfold data. rewrite arr_get_Some_fmap.
  destruct (old !! j) as [a|] eqn:Ha; [| done].
  apply lookup_lt_Some in Ha.
  destruct (acc_tail j) as [Hin|Hin]; [lia | |].
  - destruct Hr. split; [done | lia].
  - destruct Hm. split; [done | lia].
Qed.

Lemma compacted :
  length (compact w5) = length new
  ∧ ∀ j b, new !! j = Some b →
      ∃ r, compact w5 !! j = Some r ∧ placed h h2 old j b r.
Proof.
  assert (∀ j, (j < length new)%nat → is_Some (mjoin (w5 !! j))) as Hin.
  { intros j Hj. destruct (lookup_lt_is_Some_2 new j Hj) as [b Hb].
    destruct (final_slot j b Hb) as (r & Hr & _).
    rewrite arr_get_nat in Hr. by rewrite Hr. }
  assert (∀ j, (length new ≤ j)%nat → mjoin (w5 !! j) = None) as Hout.
  { intros j Hj. rewrite <- arr_get_nat. by apply past_the_end. }
  split; [by apply compact_dense_length |].
  intros j b Hb. rewrite (compact_dense w5 (length new)) by done.
  rewrite <- arr_get_nat. apply (final_slot j b Hb).
Qed.

End slots.

(** [applyDiff] with a diff that accounts for the two result sets
    returns as many rows as there are new rows, each placed. *)
Lemma applyDiff_accounted :
  ∃ h' rows,
    applyDiff (Some <$> old) diff h = (h', inr rows)
    ∧ length rows = length new
    ∧ (length h ≤ length h')%nat
    ∧ ∀ j b, new !! j = Some b →
        ∃ r, rows !! j = Some r ∧ placed h h' old j b r.
Proof.
  rewrite applyDiff_phases_eq. unfold applyDiff_phases.
  destruct (copied_rows_run data cs h) as (clones & Hc & Hclen & Hclones).
  { intros c Hc.
    destruct (acc_copied c Hc) as (i & j & a & b & Hoi & _ & Ha & _).
    exists a. split; [by rewrite Hoi, data_at |].
    apply old_lt. by eapply list_elem_of_lookup_2. }
  destruct (moved_rows_run data ms (h ++ clones)) as (h2 & Hm & Hlen2 & Hh2).
  { intros m Hm.
    destruct (acc_moved m Hm) as (i & j & a & b & Hoi & _ & Ha & _).
    by rewrite Hoi, data_at, Ha. }
  unfold data, cs, ms in Hc, Hm.
  rewrite bind_unfold, Hc, bind_unfold, Hm, bind_unfold, added_rows_run.
  eexists h2, _. split; [reflexivity |].
  destruct (compacted clones h2 Hclones Hh2) as [Hlen Hrows].
  split_and!; [exact Hlen | | exact Hrows].
  rewrite Hlen2, length_app. lia.
Qed.

End accounted.


Lemma collectionDiff_run oldHashes newData h :
  collectionDiff oldHashes newData h
  = (h, inr (differ oldHashes (zip (hashes_in h newData) newData))).
Proof. unfold collectionDiff. by rewrite bind_unfold, hashes_run. Qed.

Lemma applyDiff_empty_lists (rows : list loc) h :
  applyDiff (Some <$> rows) (mkDiff (Some []) (Some []) (Some []) (Some [])) h
  = (h, inr rows).
Proof. unfold applyDiff; simpl. unfold_st. by rewrite compact_Some. Qed.

(** ** The answer to the statement and the re-query *)

Lemma get_assign_all_ext kvs (o o' : obj) k :
  get o k = get o' k → get (assign_all kvs o) k = get (assign_all kvs o') k.
Proof.
  revert o o'. induction kvs as [|[k' v] kvs IH]; intros o o' Heq; [done |].
  apply IH. simpl. destruct (decide (k = k')) as [->|Hk].
  - by rewrite !get_prop_set_eq.
  - by rewrite !get_prop_set_ne.
Qed.

Lemma assign_all_snoc kvs k v (o : obj) :
  assign_all (kvs ++ [(k, v)]) o = prop_set k v (assign_all kvs o).
Proof. unfold assign_all. by rewrite foldl_app. Qed.

Lemma assign_all_app kvs kvs' (o : obj) :
  assign_all (kvs ++ kvs') o = assign_all kvs' (assign_all kvs o).
Proof. unfold assign_all. by rewrite foldl_app. Qed.

Lemma statement_row_hash hash_of shown oldHashes j r :
  get (statement_row hash_of shown oldHashes j r) "_hash"
  = VStr (hash_of r).
Proof.
  unfold statement_row. cbv zeta. by rewrite assign_all_snoc, get_prop_set_eq.
Qed.

(** A row whose hash is not listed comes back with its columns and its
    row number. *)
Lemma statement_row_new hash_of shown oldHashes j r :
  hash_of r ∉ listed oldHashes →
  get (statement_row hash_of shown oldHashes j r) "_index"
  = shown (Z.of_nat j + 1)%Z
  ∧ ∀ k, k ∉ synthetic →
      get (statement_row hash_of shown oldHashes j r) k
      = get (assign_all r []) k.
Proof.
  intros Hn. unfold statement_row. cbv zeta.
  rewrite decide_False by done.
  rewrite assign_all_snoc.
  change (("_added", VNum 1) :: r ++ ?t) with ((("_added", VNum 1) :: r) ++ t).
  change [("_hash", VStr (hash_of r)); ("_index", shown (Z.of_nat j + 1)%Z)]
    with ([("_hash", VStr (hash_of r))]
          ++ [("_index", shown (Z.of_nat j + 1)%Z)]).
  rewrite app_assoc, !assign_all_snoc. split.
  - by rewrite get_prop_set_ne, get_prop_set_eq.
  - intros k Hk. unfold synthetic in Hk.
    rewrite !get_prop_set_ne by set_solver.
    change (("_added", VNum 1) :: r) with ([("_added", VNum 1)] ++ r).
    rewrite assign_all_app. apply get_assign_all_ext. simpl.
    unfold get. simpl. rewrite decide_False by set_solver. done.
Qed.

Lemma is_md5_nonempty s : is_md5 s = true → s ≠ "".
Proof. by intros Hs ->. Qed.

(** For MD5 digests, the hashes listed in the statement are the old
    hashes. *)
Lemma listed_md5 oldHashes s :
  md5_hashes oldHashes = true → is_md5 s = true →
  s ∈ listed oldHashes ↔ VStr s ∈ oldHashes.
Proof.
  intros Hold Hs. unfold md5_hashes in Hold. rewrite forallb_elem in Hold.
  destruct oldHashes as [|x oldHashes].
  - simpl. split; [| by intros ?%not_elem_of_nil].
    intros ->%list_elem_of_singleton. done.
  - change (listed (x :: oldHashes)) with (text <$> x :: oldHashes).
    rewrite list_elem_of_fmap. split.
    + intros (v & -> & Hv). specialize (Hold v Hv).
      by destruct v.
    + intros Hin. by exists (VStr s).
Qed.

Section requery_facts.
Context `{Externals}.

(** [getResultSetDiff] is [getResultSetDiff_with] for the differ of
    section 4.1. *)
Lemma getResultSetDiff_with_differ currentData query params h :
  getResultSetDiff_with (λ h oldHashes newData,
      differ oldHashes (zip (hashes_in h newData) newData))
    currentData query params h
  = getResultSetDiff currentData query params h.
Proof.
  unfold getResultSetDiff_with, getResultSetDiff.
  rewrite !bind_unfold. destruct (hashes currentData h) as [h1 [e|oldHashes]];
    [done |].
  rewrite !bind_unfold.
  destruct (performQuery query oldHashes params h1) as [h2 [e|rows]]; [done |].
  rewrite !bind_unfold, collectionDiff_run. done.
Qed.

Context (hash_of : list (string * jsval) → string) (shown : Z → jsval).
Context (d : heap → list jsval → list loc → option Diff).
Context (currentData : list loc) (query : string) (params : list jsval).
Context (res : list (list (string * jsval))) (h : heap) (diff : Diff).

Let oldHashes := hashes_in h currentData.
Let answered := statement_rows hash_of shown oldHashes res.
Let rows := seq (length h) (length res).

Context (Hdist : distinct_rows h currentData).
Context (Hold : md5_hashes oldHashes = true).
Context (Hnew : forallb (λ r, is_md5 (hash_of r)) res = true).
Context (Hq : performQuery query oldHashes params h
              = (h ++ answered, inr rows)).
Context (Hd : d (h ++ answered) oldHashes rows = Some diff).
Context (Hacc : accounts_for (h ++ answered) oldHashes
                  (zip (hashes_in (h ++ answered) rows) rows) diff = true).

Lemma current_deref l : l ∈ currentData → deref (h ++ answered) l = deref h l.
Proof. intros Hl. apply deref_app_l. by apply Hdist. Qed.

Lemma current_hashes : hashes_in (h ++ answered) currentData = oldHashes.
Proof.
  unfold oldHashes, hashes_in. apply list_fmap_ext.
  intros i l Hl. rewrite current_deref; [done |].
  by eapply list_elem_of_lookup_2.
Qed.

Lemma answered_row j r :
  res !! j = Some r →
  rows !! j = Some (length h + j)%nat
  ∧ deref (h ++ answered) (length h + j)
    = statement_row hash_of shown oldHashes j r.
Proof.
  intros Hr. split.
  - apply lookup_seq. split; [done |]. by apply lookup_lt_Some in Hr.
  - unfold deref. rewrite lookup_app_r by lia.
    replace (length h + j - length h)%nat with j by lia.
    unfold answered, statement_rows. by rewrite list_lookup_imap, Hr.
Qed.

(** The re-query returns a row for each row of the query: the current
    row of that position, unchanged; a current row of the same hash, or a
    clone of one, with the position for [_index]; or the row of the
    answer with its columns and its row number. *)
Lemma requery_placed :
  ∃ h' data,
    getResultSetDiff_with d currentData query params h
    = (h', inr (Some (diff, data)))
    ∧ length data = length res
    ∧ ∀ j r, res !! j = Some r →
        ∃ l, data !! j = Some l
          ∧ get (deref h' l) "_hash" = VStr (hash_of r)
          ∧ ((currentData !! j = Some l ∧ deref h' l = deref h l)
             ∨ (∃ a, a ∈ currentData
                     ∧ get (deref h a) "_hash" = VStr (hash_of r)
                     ∧ deref h' l
                       = prop_set "_index" (VNum (Z.of_nat j + 1))
                           (deref h a))
             ∨ (get (deref h' l) "_index" = shown (Z.of_nat j + 1)%Z
                ∧ ∀ k, k ∉ synthetic →
                    get (deref h' l) k = get (assign_all r []) k)).
Proof.
  destruct (applyDiff_accounted (h ++ answered) currentData rows diff)
    as (h' & data & Hrun & Hlen & _ & Hrows).
  { destruct Hdist as [Hnd Hlt]. split; [done |].
    intros l Hl. rewrite length_app. apply Hlt in Hl. lia. }
  { by rewrite current_hashes. }
  exists h', data. split_and!.
  - unfold getResultSetDiff_with.
    rewrite bind_unfold, hashes_run, bind_unfold.
    fold oldHashes. rewrite Hq, bind_unfold.
    unfold collectionDiff_with at 1. rewrite Hd, bind_unfold, Hrun. done.
  - rewrite Hlen. unfold rows. by rewrite length_seq.
  - intros j r Hr. destruct (answered_row j r Hr) as [Hj Hrow].
    destruct (Hrows j _ Hj) as (l & Hl & Hp). exists l. split; [done |].
    assert (get (deref (h ++ answered) (length h + j)) "_hash"
            = VStr (hash_of r)) as Hx.
    { rewrite Hrow. apply statement_row_hash. }
    destruct Hp as [(Hk & Hh & Hsame)|[(a & Ha & Hh & Hsame)|
                    (-> & Hh & _ & Hsame)]].
    + assert (l ∈ currentData) as Hin by by eapply list_elem_of_lookup_2.
      rewrite Hsame. rewrite Hh, Hx. split; [done |].
      left. split; [done |]. by apply current_deref.
    + rewrite Hx, (current_deref a Ha) in Hh.
      rewrite Hsame, (current_deref a Ha).
      rewrite get_prop_set_ne by done. split; [done |].
      right; left. by exists a.
    + rewrite Hsame, Hrow. split; [apply statement_row_hash |].
      right; right. apply statement_row_new.
      rewrite Hx, current_hashes in Hh.
      rewrite listed_md5; [done | done |].
      rewrite forallb_elem in Hnew. apply Hnew.
      by eapply list_elem_of_lookup_2.
Qed.

End requery_facts.


Section requery_more.
Context `{Externals}.
Context (hash_of : list (string * jsval) → string) (shown : Z → jsval).
Context (d : heap → list jsval → list loc → option Diff).
Context (currentData : list loc) (query : string) (params : list jsval).
Context (res : list (list (string * jsval))) (h : heap) (diff : Diff).

Lemma requery_indexed :
  let oldHashes := hashes_in h currentData in
  let h1 := h ++ statement_rows hash_of shown oldHashes res in
  let result_rows := seq (length h) (length res) in
  distinct_rows h currentData →
  indexed_as shown h currentData →
  md5_hashes oldHashes = true →
  forallb (λ r, is_md5 (hash_of r)) res = true →
  performQuery query oldHashes params h = (h1, inr result_rows) →
  d h1 oldHashes result_rows = Some diff →
  accounts_for h1 oldHashes (zip (hashes_in h1 result_rows) result_rows)
    diff = true →
  ∃ h' data,
    getResultSetDiff_with d currentData query params h
    = (h', inr (Some (diff, data)))
    ∧ length data = length res
    ∧ indexed_as shown h' data.
Proof.
  intros oldHashes h1 result_rows Hdist Hidx Hold Hnew Hq Hd Hacc.
  destruct (requery_placed hash_of shown d currentData query params res h
              diff Hdist Hold Hnew Hq Hd Hacc)
    as (h' & data & Hrun & Hlen & Hrows).
  exists h', data. split_and!; [done..|].
  intros j l Hl.
  destruct (lookup_lt_is_Some_2 res j) as [r Hr].
  { rewrite <- Hlen. by apply lookup_lt_Some in Hl. }
  destruct (Hrows j r Hr) as (l' & Hl' & _ & Hp).
  rewrite Hl in Hl'. injection Hl' as <-.
  destruct Hp as [[Hk ->]|[(a & _ & _ & ->)|[Hi _]]].
  - by apply Hidx.
  - left. by rewrite get_prop_set_eq.
  - by right.
Qed.

Lemma requery_shows res0 :
  let oldHashes := hashes_in h currentData in
  let h1 := h ++ statement_rows hash_of shown oldHashes res in
  let result_rows := seq (length h) (length res) in
  distinct_rows h currentData →
  shows hash_of h currentData res0 →
  stable_hash hash_of res0 res →
  md5_hashes oldHashes = true →
  forallb (λ r, is_md5 (hash_of r)) res = true →
  performQuery query oldHashes params h = (h1, inr result_rows) →
  d h1 oldHashes result_rows = Some diff →
  accounts_for h1 oldHashes (zip (hashes_in h1 result_rows) result_rows)
    diff = true →
  ∃ h' data,
    getResultSetDiff_with d currentData query params h
    = (h', inr (Some (diff, data)))
    ∧ shows hash_of h' data res.
Proof.
  intros oldHashes h1 result_rows Hdist Hcur Hst Hold Hnew Hq Hd Hacc.
  destruct (requery_placed hash_of shown d currentData query params res h
              diff Hdist Hold Hnew Hq Hd Hacc)
    as (h' & data & Hrun & Hlen & Hrows).
  exists h', data. split; [done |].
  apply Forall2_same_length_lookup. split; [done |].
  intros j l r Hl Hr.
  destruct (Hrows j r Hr) as (l' & Hl' & Hh & Hp).
  rewrite Hl in Hl'. injection Hl' as <-. split; [done |].
  assert (r ∈ res) as Hrin by by eapply list_elem_of_lookup_2.
  assert (∀ a, a ∈ currentData →
            get (deref h a) "_hash" = VStr (hash_of r) →
            ∀ k, k ∉ synthetic →
              get (deref h a) k = get (assign_all r []) k) as Hsame.
  { intros a (i & Hi)%list_elem_of_lookup Ha k Hk.
    apply Forall2_same_length_lookup in Hcur as [Hlen0 Hcur].
    destruct (lookup_lt_is_Some_2 res0 i) as [r0 Hr0].
    { rewrite <- Hlen0. by apply lookup_lt_Some in Hi. }
    destruct (Hcur i a r0 Hi Hr0) as [Ha0 Hk0].
    rewrite Hk0 by done. apply Hst; [by eapply list_elem_of_lookup_2 | done | |
                                     done].
    congruence. }
  destruct Hp as [[Hk Hsm]|[(a & Ha & Hha & Hsm)|[_ Hcols]]].
  - intros k Hk'. rewrite Hsm. apply Hsame; [by eapply list_elem_of_lookup_2 | |
                                             done].
    by rewrite <- Hsm.
  - intros k Hk'. rewrite Hsm.
    rewrite get_prop_set_ne by (unfold synthetic in Hk'; set_solver).
    by apply Hsame.
  - done.
Qed.

End requery_more.

(** ** The differ of section 4.1 and the re-query *)

Lemma NoDup_omap_inj {A B} (f : A → option B) (l : list A) :
  (∀ x y z, x ∈ l → y ∈ l → f x = Some z → f y = Some z → x = y) →
  NoDup l → NoDup (omap f l).
Proof.
  intros Hinj. induction 1 as [|x l Hx Hnd IH]; simpl; [constructor |].
  assert (NoDup (omap f l)) as IH'.
  { apply IH. intros x' y z Hx' Hy. apply Hinj; by constructor. }
  destruct (f x) as [z|] eqn:Hz; [| done].
  constructor; [| done].
  intros (y & Hy & Hfy)%list_elem_of_omap.
  assert (x = y) as -> by (eapply Hinj; [by left | by right | done..]).
  done.
Qed.

Lemma NoDup_enumerate {A} (l : list A) : NoDup (enumerate l).
Proof.
  apply NoDup_alt. intros i j [k x] Hi Hj.
  unfold enumerate in *. rewrite list_lookup_imap in Hi, Hj.
  destruct (l !! i); [| done]. destruct (l !! j); [| done].
  simpl in *. congruence.
Qed.

(** The differ as section 4.1 is modelled ([differ]) gives a diff that
    accounts for the two result sets when the old hashes are pairwise
    distinct and the new rows of unknown hash carry their positions. *)
Section differ_accounts.
Context (h : heap) (oldHashes : list jsval) (new : list loc).
Context (Hnodup : NoDup oldHashes).
Context (Hadded : ∀ j l, new !! j = Some l →
           get (deref h l) "_hash" ∉ oldHashes →
           minus_one (get (deref h l) "_index") = Some (Z.of_nat j)).

Let hn := hashes_in h new.
Let newRows := zip hn new.
Let diff :=
  mkDiff (Some (diff_removed oldHashes hn)) (Some (diff_moved oldHashes hn))
         (Some (diff_copied oldHashes hn))
         (Some (diff_added oldHashes newRows)).

Lemma new_row (j : nat) x :
  hn !! j = Some x →
  ∃ l, new !! j = Some l ∧ x = get (deref h l) "_hash"
       ∧ newRows !! j = Some (x, l).
Proof.
  intros (l & Hl & ->)%lookup_hashes_in. exists l. split_and!; [done..|].
  by apply lookup_zip_hashes.
Qed.

Lemma old_index_of x i i' :
  oldHashes !! i = Some x → indexOf x oldHashes = Some i' → i = i'.
Proof.
  intros Hi [Hi' _]%indexOf_Some. by eapply NoDup_lookup.
Qed.

Lemma differ_entry_ok (i j : nat) x :
  hn !! j = Some x → indexOf x oldHashes = Some i →
  entry_ok oldHashes newRows (Z.of_nat i + 1) (Z.of_nat j + 1) = true.
Proof.
  intros Hj [Hi _]%indexOf_Some. unfold entry_ok.
  replace (Z.to_nat (Z.of_nat i + 1 - 1)) with i by lia.
  replace (Z.to_nat (Z.of_nat j + 1 - 1)) with j by lia.
  destruct (new_row j x Hj) as (l & _ & _ & ->). rewrite Hi. simpl.
  rewrite !andb_true_iff, !bool_decide_eq_true. split_and!; [lia | lia | done].
Qed.

Lemma differ_moved_ok :
  forallb (λ m, entry_ok oldHashes newRows (Moved.old_index m)
                  (Moved.new_index m)) (diff_moved oldHashes hn) = true.
Proof.
  apply forallb_elem.
  intros m (i & j & x & Hj & Hi & _ & _ & ->)%elem_of_diff_moved.
  by eapply differ_entry_ok.
Qed.

Lemma differ_copied_ok :
  forallb (λ c, entry_ok oldHashes newRows (Copied.orig_index c)
                  (Copied.new_index c)) (diff_copied oldHashes hn) = true.
Proof.
  apply forallb_elem.
  intros c (i & j & x & Hj & Hi & _ & ->)%elem_of_diff_copied.
  by eapply differ_entry_ok.
Qed.

Lemma differ_added_ok :
  forallb (added_ok h oldHashes newRows) (diff_added oldHashes newRows)
  = true.
Proof.
  apply forallb_elem.
  intros l (j & x & Hj & Hl & Hx)%elem_of_diff_added.
  destruct (new_row j x Hj) as (l' & Hl' & -> & Hrow).
  assert (l' = l) as -> by congruence.
  unfold added_ok. rewrite (Hadded j l Hl Hx).
  replace (Z.to_nat (Z.of_nat j)) with j by lia. rewrite Hrow. simpl.
  rewrite !andb_true_iff, !bool_decide_eq_true. split_and!; [lia | done..].
Qed.

Lemma differ_moved_NoDup : NoDup (Moved.old_index <$> diff_moved oldHashes hn).
Proof.
  apply NoDup_fmap_2_strong.
  - intros m m' (i & j & x & Hj & Hi & Hfj & _ & ->)%elem_of_diff_moved
      (i' & j' & x' & Hj' & Hi' & Hfj' & _ & ->)%elem_of_diff_moved Heq.
    simpl in Heq. assert (i = i') as <- by lia.
    apply indexOf_Some in Hi as [Hi _], Hi' as [Hi' _].
    assert (x = x') as <- by congruence.
    assert (j = j') as <- by congruence. done.
  - unfold diff_moved. apply NoDup_omap_inj; [| apply NoDup_enumerate].
    intros [j x] [j' x'] m Hin%elem_of_enumerate Hin'%elem_of_enumerate Hm Hm'.
    destruct (indexOf x oldHashes); [| done].
    destruct (indexOf x' oldHashes); [| done].
    repeat case_decide; simplify_eq/=.
    assert (j = j') as <- by lia. congruence.
Qed.

Lemma differ_position_ok (j : nat) x l :
  newRows !! j = Some (x, l) → position_ok h oldHashes diff j (x, l) = true.
Proof.
  intros [Hl ->]%lookup_zip_hashes. remember (get (deref h l) "_hash") as x.
  assert (hn !! j = Some x) as Hj.
  { apply lookup_hashes_in. exists l. by subst. }
  unfold position_ok. simpl.
  rewrite !orb_true_iff, !andb_true_iff, !bool_decide_eq_true.
  unfold removed_positions, moved_from, moved_to, copied_to. simpl.
  destruct (decide (x ∈ oldHashes)) as [Hin|Hin].
  2:{ right. split.
      - apply elem_of_diff_added. by exists j, x.
      - apply Hadded; [done | by subst]. }
  apply indexOf_elem_of in Hin as [i Hi].
  destruct (indexOf_first x hn j Hj) as (j' & Hle & Hj').
  destruct (decide (j' = j)) as [->|Hne].
  - destruct (decide (i = j)) as [->|Hij].
    + left; left; left. split_and!.
      * by apply indexOf_Some in Hi as [? _].
      * intros (r & Hr & (i' & x' & Hi' & Hx' & ->)%elem_of_diff_removed)
          %list_elem_of_fmap.
        simpl in Hr. assert (i' = j) as -> by lia.
        apply indexOf_Some in Hi as [Hi _]. assert (x' = x) as -> by congruence.
        apply Hx'. by eapply list_elem_of_lookup_2.
      * intros (m & Hm & (i' & j0 & x' & Hj0 & Hi' & Hfj0 & Hn & ->)
                  %elem_of_diff_moved)%list_elem_of_fmap.
        simpl in Hm. assert (i' = j) as -> by lia.
        apply indexOf_Some in Hi as [Hi _].
        pose proof (proj1 (indexOf_Some _ _ _ Hi')) as Hi''.
        assert (x' = x) as -> by congruence. congruence.
    + left; left; right. apply list_elem_of_fmap.
      exists (Moved.mk (Z.of_nat i + 1) (Z.of_nat j + 1)). split; [done |].
      apply elem_of_diff_moved. by exists i, j, x.
  - left; right. apply list_elem_of_fmap.
    exists (Copied.mk (Z.of_nat i + 1) (Z.of_nat j + 1)). split; [done |].
    apply elem_of_diff_copied. exists i, j, x. split_and!; [done..| | done].
    rewrite (occurrences_NoDup x oldHashes Hnodup).
    2:{ apply indexOf_elem_of. eauto. }
    apply occurrences_pos, elem_of_take. exists j'. split; [| lia].
    by apply indexOf_Some in Hj' as [? _].
Qed.

Lemma differ_tail_ok (j : nat) :
  (length newRows ≤ j < length oldHashes)%nat →
  (Z.of_nat j + 1)%Z ∈ removed_positions diff ++ moved_from diff.
Proof.
  intros [Hge Hlt]. unfold newRows, hn in Hge.
  rewrite length_zip_hashes in Hge.
  destruct (lookup_lt_is_Some_2 oldHashes j Hlt) as [x Hx].
  unfold removed_positions, moved_from. simpl. apply elem_of_app.
  destruct (decide (x ∈ hn)) as [Hin|Hin].
  - right. apply list_elem_of_lookup in Hin as (j0 & Hj0).
    destruct (indexOf_first x hn j0 Hj0) as (j' & _ & Hj').
    assert (j' < length new)%nat as Hj'lt.
    { apply indexOf_Some in Hj' as [Hj' _]. apply lookup_lt_Some in Hj'.
      unfold hn, hashes_in in Hj'. by rewrite length_fmap in Hj'. }
    apply list_elem_of_fmap.
    exists (Moved.mk (Z.of_nat j + 1) (Z.of_nat j' + 1)). split; [done |].
    apply elem_of_diff_moved. exists j, j', x. split_and!; try done.
    + by apply indexOf_Some in Hj' as [? _].
    + by apply indexOf_NoDup.
    + lia.
  - left. apply list_elem_of_fmap. exists (Removed.mk (Z.of_nat j + 1)).
    split; [done |]. apply elem_of_diff_removed. by exists j, x.
Qed.

Lemma full_diff_accounts_for : accounts_for h oldHashes newRows diff = true.
Proof.
  unfold accounts_for. rewrite !andb_true_iff. split_and!.
  - apply differ_moved_ok.
  - apply differ_copied_ok.
  - apply differ_added_ok.
  - apply bool_decide_eq_true, differ_moved_NoDup.
  - apply forallb_elem. intros [j [x l]] Hin%elem_of_enumerate.
    by apply differ_position_ok.
  - apply forallb_elem. intros j [Hge Hlt]%elem_of_seq.
    apply bool_decide_eq_true, differ_tail_ok. lia.
Qed.

Lemma differ_accounts_for d :
  differ oldHashes newRows = Some d →
  accounts_for h oldHashes newRows d = true.
Proof.
  intros Hd. rewrite <- full_diff_accounts_for. f_equal.
  unfold differ in Hd. fold hn in Hd.
  assert (newRows.*1 = hn) as Hfst.
  { unfold newRows, hn, hashes_in. rewrite fst_zip; [done |].
    by rewrite length_fmap. }
  rewrite Hfst in Hd.
  destruct (diff_added _ _), (diff_removed _ _), (diff_moved _ _),
    (diff_copied _ _); by simplify_eq.
Qed.

End differ_accounts.

Section modelled_differ.
Context `{Externals}.

(** So [getResultSetDiff], with the differ as section 4.1 is modelled,
    returns data that show the rows of the query when the hashes of the
    current data are pairwise distinct and the driver shows a row number
    as a value that counts as that number. *)
Lemma getResultSetDiff_requery
    hash_of shown currentData query params res0 res h diff :
  let oldHashes := hashes_in h currentData in
  let h1 := h ++ statement_rows hash_of shown oldHashes res in
  let result_rows := seq (length h) (length res) in
  distinct_rows h currentData →
  NoDup oldHashes →
  shows hash_of h currentData res0 →
  indexed_as shown h currentData →
  stable_hash hash_of res0 res →
  md5_hashes oldHashes = true →
  forallb (λ r, is_md5 (hash_of r)) res = true →
  (∀ j : nat, minus_one (shown (Z.of_nat j + 1)%Z) = Some (Z.of_nat j)) →
  performQuery query oldHashes params h = (h1, inr result_rows) →
  differ oldHashes (zip (hashes_in h1 result_rows) result_rows)
  = Some diff →
  ∃ h' data,
    getResultSetDiff currentData query params h
    = (h', inr (Some (diff, data)))
    ∧ shows hash_of h' data res
    ∧ indexed_as shown h' data.
Proof.
  intros oldHashes h1 result_rows Hdist Hnd Hcur Hidx Hst Hold Hnew Hshown
    Hq Hd.
  assert (accounts_for h1 oldHashes
            (zip (hashes_in h1 result_rows) result_rows) diff = true)
    as Hacc.
  { apply differ_accounts_for; [done | | done].
    intros j l [-> Hj]%lookup_seq Hx.
    destruct (lookup_lt_is_Some_2 res j Hj) as [r Hr].
    destruct (answered_row hash_of shown currentData res h j r Hr)
      as [_ Hrow].
    fold oldHashes h1 in Hrow. rewrite Hrow in Hx |- *.
    rewrite statement_row_hash in Hx.
    destruct (statement_row_new hash_of shown oldHashes j r) as [-> _];
      [| apply Hshown].
    rewrite listed_md5; [done | done |].
    rewrite forallb_elem in Hnew. apply Hnew.
    by eapply list_elem_of_lookup_2. }
  rewrite <- getResultSetDiff_with_differ.
  set (d := λ (h : heap) (oldHashes : list jsval) (newData : list loc),
              differ oldHashes (zip (hashes_in h newData) newData)).
  destruct (requery_shows hash_of shown d currentData query params res h
              diff res0 Hdist Hcur Hst Hold Hnew Hq Hd Hacc)
    as (h' & data & Hrun & Hshows).
  destruct (requery_indexed hash_of shown d currentData query params res h
              diff Hdist Hidx Hold Hnew Hq Hd Hacc)
    as (h'' & data' & Hrun' & _ & Hidx').
  rewrite Hrun in Hrun'. injection Hrun' as <- <-.
  by exists h', data.
Qed.

End modelled_differ.

(** ** flattenNotifications and getDiffFromSupplied *)

Section with_externals.
Context `{Externals}.

Lemma forEach_ext {T A S} (body body' : A → S → ST T S) xs :
  (∀ x s t, x ∈ xs → body x s t = body' x s t) →
  ∀ s t, forEach body xs s t = forEach body' xs s t.
Proof.
  induction xs as [|x xs IH]; intros Hb s t; simpl; [done |].
  rewrite !bind_unfold, Hb by (by left).
  destruct (body' x s t) as [t1 [e|s1]]; [done |].
  apply IH. intros. apply Hb. by right.
Qed.

Lemma forEach_fmap {T A B S} (g : A → B) (body : B → S → ST T S) xs s t :
  forEach body (g <$> xs) s t = forEach (λ x, body (g x)) xs s t.
Proof.
  revert s t. induction xs as [|x xs IH]; intros s t; simpl; [done |].
  rewrite !bind_unfold. destruct (body (g x) s t) as [t1 [e|s1]]; [done |].
  apply IH.
Qed.

Lemma enumerate_fmap {A B} (g : A → B) (l : list A) :
  enumerate (g <$> l) = (λ ix, (ix.1, g ix.2)) <$> enumerate l.
Proof. unfold enumerate. by rewrite imap_fmap, fmap_imap. Qed.

Lemma prop_lookup_fmap {V W} (g : V → W) k (o : props V) :
  prop_lookup k ((λ kv, (kv.1, g kv.2)) <$> o) = g <$> prop_lookup k o.
Proof.
  induction o as [|[k' v] o IH]; simpl; [done |].
  by destruct (decide (k = k')).
Qed.

Lemma pushItem_first_rows payload key index out h :
  pushItem (first_rows payload) key index out h
  = pushItem payload key index out h.
Proof.
  unfold pushItem, first_rows; simpl. rewrite prop_lookup_fmap.
  destruct (prop_lookup key (arrays payload)) as [rows|]; simpl; [| done].
  by destruct rows.
Qed.

Lemma flattenNotifications_first_rows notifications h :
  flattenNotifications (first_rows <$> notifications) h
  = flattenNotifications notifications h.
Proof.
  unfold flattenNotifications.
  rewrite enumerate_fmap, forEach_fmap.
  apply forEach_ext. intros [index payload] out t _; simpl.
  destruct (decide (op payload = "UPDATE")) as [Hop|Hop].
  - rewrite !bind_unfold, pushItem_first_rows.
    destruct (pushItem payload _ _ _ _) as [t1 [e|out1]]; [done |].
    apply pushItem_first_rows.
  - apply pushItem_first_rows.
Qed.

(** C9.  Of each payload only [op] and the first row of each of its
    arrays are used: cutting every array down to its first row changes
    neither what [flattenNotifications] returns (or throws) nor what
    [getDiffFromSupplied] does. *)
Theorem only_the_first_row_of_a_payload_is_used
    currentData notifications query parsed params h :
  flattenNotifications notifications h
  = flattenNotifications (first_rows <$> notifications) h
  ∧ getDiffFromSupplied currentData notifications query parsed params h
    = getDiffFromSupplied currentData (first_rows <$> notifications)
        query parsed params h.
Proof.
  split; [by rewrite flattenNotifications_first_rows |].
  unfold getDiffFromSupplied.
  by rewrite !(bind_unfold (flattenNotifications _)),
    flattenNotifications_first_rows.
Qed.

(** *** The refusal rule *)

Lemma forEach_state_unchanged {T A S} (body : A → S → ST T S) xs :
  (∀ x s t, (body x s t).1 = t) → ∀ s t, (forEach body xs s t).1 = t.
Proof.
  intros Hb. induction xs as [|x xs IH]; intros s t; simpl; [done |].
  rewrite bind_unfold. specialize (Hb x s t).
  destruct (body x s t) as [t1 [e|s1]]; simpl in *; [done |].
  subst t1. apply IH.
Qed.

Lemma pushItem_state_unchanged payload key index out h :
  (pushItem payload key index out h).1 = h.
Proof.
  unfold pushItem. destruct (prop_lookup _ _) as [rows|]; [| done].
  by destruct (head rows).
Qed.

Lemma flattenNotifications_state_unchanged notifications h :
  (flattenNotifications notifications h).1 = h.
Proof.
  apply forEach_state_unchanged. intros [index payload] out t.
  destruct (decide _) as [Hop|Hop]; [| apply pushItem_state_unchanged].
  rewrite bind_unfold.
  pose proof (pushItem_state_unchanged payload "new_data" index out t) as H1.
  destruct (pushItem payload "new_data" index out t) as [t1 [e|out1]];
    simpl in *; [done |].
  subst t1. apply pushItem_state_unchanged.
Qed.

Lemma indexOf_is_Some x l : is_Some (indexOf x l) ↔ x ∈ l.
Proof.
  induction l as [|y l IH]; simpl.
  - split; [by intros [? ?] | by intros ?%not_elem_of_nil].
  - destruct (decide (x = y)) as [->|Hne].
    + split; [intros _; by left | eauto].
    + rewrite fmap_is_Some, IH. split; [by right |].
      intros [?|?]%elem_of_cons; [done | done].
Qed.

Lemma cleanRow_of_is_Some parsed r r' :
  is_Some (cleanRow_of parsed r) → is_Some (cleanRow_of parsed r').
Proof.
  unfold cleanRow_of, reform.
  destruct (is_lone_star (fields parsed)); simpl; [eauto |].
  destruct (columnsSelected_of (fields parsed) []); simpl; [eauto |].
  by intros [? ?].
Qed.

Lemma match_loop_run parsed oldHashes matched :
  (∀ r, r ∈ matched → is_Some (cleanRow_of parsed r)) →
  ∀ (newData : array) (hasDelete : bool) h,
  ∃ pushed newData',
    forEach (λ matchRow '(newData, hasDelete),
      cleanRow ← or_throw TypeError (cleanRow_of parsed matchRow);
      let curIndex := indexOf (get cleanRow "_hash") oldHashes in
      let '(newData, hasDelete) :=
        match curIndex with
        | Some i =>
            if is_deletion matchRow
            then (arr_set newData (Z.of_nat i) None, true)
            else (newData, hasDelete)
        | None => (newData, hasDelete)
        end in
      if is_insertion matchRow then
        let cleanRow := prop_set "_added" (VNum 1) cleanRow in
        pushed ← alloc cleanRow;
        mret (newData ++ [Some pushed], hasDelete)
      else mret (newData, hasDelete))
      matched (newData, hasDelete) h
    = (h ++ pushed,
       inr (newData',
            hasDelete || existsb (deletes parsed oldHashes) matched)).
Proof.
  induction matched as [|r matched IH]; intros Hok newData hasDelete h.
  - exists [], newData. simpl. by rewrite app_nil_r, orb_false_r.
  - cbn [forEach existsb]. rewrite bind_unfold, bind_unfold.
    destruct (Hok r) as [c Hc]; [by left |].
    unfold deletes at 1. rewrite Hc. cbn [or_throw].
    unfold mret at 1, ST_ret at 1.
    assert (∀ r', r' ∈ matched → is_Some (cleanRow_of parsed r')) as Hok'.
    { intros. apply Hok. by right. }
    pose proof (indexOf_is_Some (get c "_hash") oldHashes) as Hfound.
    destruct (indexOf (get c "_hash") oldHashes) as [i|] eqn:Hi.
    + assert (get c "_hash" ∈ oldHashes) as Hin by (apply Hfound; eauto).
      rewrite (bool_decide_eq_true_2 _ Hin), andb_true_r.
      destruct (is_deletion r), (is_insertion r).
      * rewrite bind_unfold. unfold alloc at 1. unfold mret at 1, ST_ret at 1.
        edestruct (IH Hok') as (pushed & nd' & ->).
        eexists (_ :: pushed), nd'. rewrite <- app_assoc. simpl.
        by rewrite orb_true_r.
      * unfold mret at 1, ST_ret at 1.
        edestruct (IH Hok') as (pushed & nd' & ->).
        exists pushed, nd'. by rewrite orb_true_r.
      * rewrite bind_unfold. unfold alloc at 1. unfold mret at 1, ST_ret at 1.
        edestruct (IH Hok') as (pushed & nd' & ->).
        eexists (_ :: pushed), nd'. by rewrite <- app_assoc.
      * unfold mret at 1, ST_ret at 1.
        edestruct (IH Hok') as (pushed & nd' & ->).
        by exists pushed, nd'.
    + assert (get c "_hash" ∉ oldHashes) as Hin.
      { intros Hin. apply Hfound in Hin. by destruct Hin. }
      rewrite (bool_decide_eq_false_2 _ Hin), andb_false_r.
      destruct (is_insertion r).
      * rewrite bind_unfold. unfold alloc at 1. unfold mret at 1, ST_ret at 1.
        edestruct (IH Hok') as (pushed & nd' & ->).
        eexists (_ :: pushed), nd'. by rewrite <- app_assoc.
      * unfold mret at 1, ST_ret at 1.
        edestruct (IH Hok') as (pushed & nd' & ->).
        by exists pushed, nd'.
Qed.

(** C4.  When a matched row is a deletion (a DELETE, or the [old_data]
    image of an UPDATE) whose hash is found in the current data, and the
    parsed query has a LIMIT equal to the length of the current data, the
    call is the full re-query: it returns what [getResultSetDiff] returns
    (run in the store as the loop left it, that is with the rows the loop
    pushed for insertions, [pushed], allocated). *)
Theorem deletion_at_the_limit_forces_a_full_requery
    currentData notifications query parsed params h
    allRows matchRow cleanRow :
  (flattenNotifications notifications h).2 = inr allRows →
  matchRow ∈ matchRows allRows parsed params →
  is_deletion matchRow = true →
  cleanRow_of parsed matchRow = Some cleanRow →
  get cleanRow "_hash" ∈ hashes_in h currentData →
  limit parsed = Some (Z.of_nat (length currentData)) →
  ∃ pushed,
    getDiffFromSupplied currentData notifications query parsed params h
    = getResultSetDiff currentData query params (h ++ pushed).
Proof.
  intros Hflat Hin Hdel Hclean Hfound Hlimit.
  unfold getDiffFromSupplied. rewrite bind_unfold.
  pose proof (flattenNotifications_state_unchanged notifications h) as Hst.
  destruct (flattenNotifications notifications h) as [h0 [e|rows]];
    simpl in Hflat, Hst; [done |].
  injection Hflat as ->. subst h0.
  destruct (decide (length (matchRows allRows parsed params) = 0%nat))
    as [Hlen|Hlen].
  { apply length_zero_iff_nil in Hlen. rewrite Hlen in Hin.
    by apply not_elem_of_nil in Hin. }
  rewrite bind_unfold, hashes_run, bind_unfold. unfold match_loop.
  edestruct (match_loop_run parsed (hashes_in h currentData)
               (matchRows allRows parsed params)) as (pushed & nd' & ->).
  { intros r _. eapply cleanRow_of_is_Some. by rewrite Hclean. }
  exists pushed.
  assert (existsb (deletes parsed (hashes_in h currentData))
            (matchRows allRows parsed params) = true) as ->.
  { apply existsb_exists. exists matchRow. split.
    - by apply list_elem_of_In.
    - unfold deletes. rewrite Hclean, Hdel. simpl.
      by apply bool_decide_eq_true_2. }
  unfold refuses. rewrite Hlimit. simpl.
  by rewrite bool_decide_eq_true_2.
Qed.

(** *** The indexes of the rows of the incremental path *)





Lemma insert_stable_perm {A} (gt : A → A → bool) x l :
  insert_stable gt x l ≡ₚ x :: l.
Proof.
  induction l as [|y l IH]; simpl; [done |].
  destruct (gt y x); [done |]. rewrite IH. apply Permutation_swap.
Qed.

Lemma sort_stable_perm {A} (gt : A → A → bool) l : sort_stable gt l ≡ₚ l.
Proof.
  unfold sort_stable.
  assert (∀ acc, foldl (λ sorted x, insert_stable gt x sorted) acc l
                 ≡ₚ l ++ acc) as Hgen.
  { induction l as [|x l IH]; intros acc; simpl; [done |].
    rewrite IH, insert_stable_perm. by rewrite Permutation_middle. }
  by rewrite Hgen, app_nil_r.
Qed.

Lemma slice0_sublist {A} (a : list A) n : slice0 a n `sublist_of` a.
Proof. unfold slice0. destruct (decide _); apply sublist_take. Qed.




(** *** The round trip *)


(** *** The indexes of the returned data *)




End with_externals.

(** ** The claims on concrete data *)









(** C3, the claim as stated fails: a [moved] entry makes [applyDiff]
    set the [_index] of the row object it refers to, an object of the
    input. *)
Lemma applyDiff_sets_the_index_of_a_moved_input_row :
  get (deref example_store 0) "_index" = VNum 1
  ∧ arr_get (Some <$> example_old) 0 = Some 0%nat
  ∧ get (deref (applyDiff (Some <$> example_old) example_move
                  example_store).1 0) "_index" = VNum 2.
Proof. by vm_compute. Qed.

Lemma applyDiff_changes_only_the_index_of_moved_rows_witness :
  ∃ o', (applyDiff (Some <$> example_old) example_move example_store).1
        !! 0%nat = Some o'
        ∧ (o' = example_row "a" 1
           ∨ ∃ m, m ∈ default [] (moved example_move)
                  ∧ arr_get (Some <$> example_old) (Moved.old_index m - 1)
                    = Some 0%nat
                  ∧ o' = prop_set "_index" (VNum (Moved.new_index m))
                           (example_row "a" 1)).
Proof.
  apply (applyDiff_changes_only_the_index_of_moved_rows
           (Some <$> example_old) example_move example_store 0%nat
           (example_row "a" 1)).
  reflexivity.
Defined.

Lemma deletion_at_the_limit_forces_a_full_requery_witness :
  ∃ pushed,
    @getDiffFromSupplied (example_externals example_new) example_old
      [example_delete] "SELECT * FROM t ORDER BY name ASC LIMIT 2"
      (example_parsed example_new 2) [] example_store
    = @getResultSetDiff (example_externals example_new) example_old
        "SELECT * FROM t ORDER BY name ASC LIMIT 2" []
        (example_store ++ pushed).
Proof.
  apply (@deletion_at_the_limit_forces_a_full_requery
           (example_externals example_new) example_old [example_delete]
           "SELECT * FROM t ORDER BY name ASC LIMIT 2"
           (example_parsed example_new 2) [] example_store
           [[("name", VStr "b"); ("_op", VStr "DELETE");
             ("_key", VStr "data"); ("_index", VNum 0)]]
           [("name", VStr "b"); ("_op", VStr "DELETE");
            ("_key", VStr "data"); ("_index", VNum 0)]
           [("name", VStr "b"); ("_hash", VStr "b")]).
  - reflexivity.
  - vm_compute. apply list_elem_of_here.
  - reflexivity.
  - reflexivity.
  - vm_compute. apply list_elem_of_further, list_elem_of_here.
  - reflexivity.
Defined.



End CommonFacts.

(* ===================================================================== *)
(** * Part V.  Facts about lib/LiveMysql.js                              *)
(* ===================================================================== *)

Module LiveMysqlFacts.
Import Js LiveMysql.

Lemma engine_bind_unfold {A B} (m : E A) (f : A → E B) e :
  (m ≫= f) e
  = match m e with
    | (e', inr a) => f a e'
    | (e', inl x) => (e', inl x)
    end.
Proof. done. Qed.

(** ** The loop over the triggers *)

Lemma with_schemaCache_id e : with_schemaCache e (_schemaCache e) = e.
Proof. by destruct e. Qed.

Lemma in_schema_include sc d tb pair :
  in_schema sc pair → in_schema (include_pair d tb sc) pair.
Proof.
  intros (tables & Hl & Hin). unfold include_pair.
  destruct (sc !! d) as [tables'|] eqn:Hd.
  - destruct (decide (tb ∈ tables')); [by exists tables |].
    destruct (decide (d = pair.1)) as [->|Hne].
    + exists (tables' ++ [tb]). rewrite lookup_insert_eq. split; [done |].
      rewrite Hd in Hl. injection Hl as ->. apply elem_of_app. by left.
    + exists tables. by rewrite lookup_insert_ne.
  - destruct (decide (d = pair.1)) as [->|Hne]; [congruence |].
    exists tables. by rewrite lookup_insert_ne.
Qed.

Lemma in_schema_included sc d tb : in_schema (include_pair d tb sc) (d, tb).
Proof.
  unfold include_pair. destruct (sc !! d) as [tables'|] eqn:Hd.
  - destruct (decide (tb ∈ tables')); [by exists tables' |].
    exists (tables' ++ [tb]). simpl. rewrite lookup_insert_eq. split; [done |].
    apply elem_of_app. right. by apply list_elem_of_singleton.
  - exists [tb]. simpl. rewrite lookup_insert_eq. split; [done |].
    by apply list_elem_of_singleton.
Qed.

(** One turn of the loop: without a database it throws; with a database
    that is an inherited name and no entry it throws a TypeError;
    otherwise it includes the pair. *)
Lemma include_trigger_run t e sc :
  include_trigger t () (with_schemaCache e sc)
  = match triggerDatabase_of (settings_database e) t with
    | None =>
        (with_schemaCache e sc,
         inl (Error "no database selected on trigger"))
    | Some d =>
        if decide (sc !! d = None ∧ d ∈ Object_prototype_names)
        then (with_schemaCache e sc, inl TypeError)
        else (with_schemaCache e (include_pair d (table t) sc), inr ())
    end.
Proof.
  unfold include_trigger. rewrite engine_bind_unfold.
  unfold this at 1. cbn [settings_database _schemaCache with_schemaCache].
  destruct (triggerDatabase_of (settings_database e) t) as [d|]; [| done].
  cbv zeta. unfold include_pair.
  destruct (sc !! d) as [tables|] eqn:Hd.
  - destruct (decide (Some tables = None ∧ _)) as [[? _]|_]; [done |].
    by destruct (decide (table t ∈ tables)).
  - destruct (decide (d ∈ Object_prototype_names)) as [Hin|Hin].
    + by destruct (decide (None = None ∧ _)) as [_|[]].
    + by destruct (decide (None = None ∧ _)) as [[_ ?]|_].
Qed.

(** What the loop of lines 151-161 does: it changes [_schemaCache] only
    and never removes a pair; when it ends, it has put every trigger's
    pair in; and it ends when every trigger has a database that is no
    inherited name. *)
Lemma include_triggers_run_from ts e sc0 :
  ∃ sc r,
    forEach include_trigger ts () (with_schemaCache e sc0)
    = (with_schemaCache e sc, r)
    ∧ (∀ pair, in_schema sc0 pair → in_schema sc pair)
    ∧ (r = inr () →
       ∀ t, t ∈ ts →
         ∃ d, triggerDatabase_of (settings_database e) t = Some d
              ∧ in_schema sc (d, table t))
    ∧ ((∀ t, t ∈ ts →
          ∃ d, triggerDatabase_of (settings_database e) t = Some d
               ∧ d ∉ Object_prototype_names)
       → r = inr ()).
Proof.
  revert sc0. induction ts as [|t ts IH]; intros sc0.
  - exists sc0, (inr ()). split_and!; try done.
    by intros _ t ?%not_elem_of_nil.
  - cbn [forEach]. rewrite engine_bind_unfold, include_trigger_run.
    destruct (triggerDatabase_of (settings_database e) t) as [d|] eqn:Hd;
      cycle 1.
    { exists sc0, (inl (Error "no database selected on trigger")).
      split_and!; try done.
      intros Hs. destruct (Hs t) as (? & ? & _); [by left | congruence]. }
    destruct (decide (sc0 !! d = None ∧ d ∈ Object_prototype_names))
      as [[_ Hin]|Hno].
    { exists sc0, (inl TypeError). split_and!; try done.
      intros Hs. destruct (Hs t) as (d' & Hd' & Hout); [by left |].
      assert (d' = d) as -> by congruence. done. }
    destruct (IH (include_pair d (table t) sc0))
      as (sc & r & Hrun & Hmono & Hall & Hok).
    rewrite Hrun. exists sc, r. split_and!; [done | | |].
    + intros pair Hp. apply Hmono. by apply in_schema_include.
    + intros Hr t' [->|Ht']%elem_of_cons; [| by apply Hall].
      exists d. split; [done |]. apply Hmono, in_schema_included.
    + intros Hs. apply Hok. intros t' Ht'. apply Hs. by right.
Qed.

Lemma include_triggers_run ts e :
  ∃ sc r,
    forEach include_trigger ts () e = (with_schemaCache e sc, r)
    ∧ (∀ pair, in_schema (_schemaCache e) pair → in_schema sc pair)
    ∧ (r = inr () →
       ∀ t, t ∈ ts →
         ∃ d, triggerDatabase_of (settings_database e) t = Some d
              ∧ in_schema sc (d, table t))
    ∧ ((∀ t, t ∈ ts →
          ∃ d, triggerDatabase_of (settings_database e) t = Some d
               ∧ d ∉ Object_prototype_names)
       → r = inr ()).
Proof.
  pose proof (include_triggers_run_from ts e (_schemaCache e)) as Hrun.
  by rewrite with_schemaCache_id in Hrun.
Qed.

(** The loop up to the first trigger it cannot include: the triggers
    before it, which have a database that is no inherited name, have
    their pairs included, and the loop throws on that trigger, the error
    "no database selected on trigger" when it has no database and a
    TypeError when its database is an inherited name. *)
Lemma include_triggers_until ts1 t ts2 e sc0 :
  (∀ t', t' ∈ ts1 →
     ∃ d, triggerDatabase_of (settings_database e) t' = Some d
          ∧ d ∉ Object_prototype_names) →
  forEach include_trigger (ts1 ++ t :: ts2) () (with_schemaCache e sc0)
  = let sc := include_triggers (settings_database e) ts1 sc0 in
    match triggerDatabase_of (settings_database e) t with
    | None =>
        (with_schemaCache e sc,
         inl (Error "no database selected on trigger"))
    | Some d =>
        if decide (sc !! d = None ∧ d ∈ Object_prototype_names)
        then (with_schemaCache e sc, inl TypeError)
        else forEach include_trigger ts2 ()
               (with_schemaCache e (include_pair d (table t) sc))
    end.
Proof.
  intros Hok. revert sc0. cbv zeta.
  induction ts1 as [|t1 ts1 IH]; intros sc0.
  - cbn [app forEach]. rewrite engine_bind_unfold, include_trigger_run.
    cbn [include_triggers foldl].
    destruct (triggerDatabase_of (settings_database e) t) as [d|]; [| done].
    by destruct (decide _).
  - cbn [app forEach]. rewrite engine_bind_unfold, include_trigger_run.
    destruct (Hok t1) as (d1 & Hd1 & Hout); [by left |].
    unfold include_triggers. cbn [foldl]. rewrite Hd1.
    rewrite decide_False by (by intros [_ ?]).
    apply (IH (λ t' Ht', Hok t' (list_elem_of_further _ _ _ Ht'))
              (include_pair d1 (table t1) sc0)).
Qed.

(** ** select and _removeSelect, step by step *)

Lemma bool_decide_or_true (P Q : Prop) `{!Decision P, !Decision Q} :
  P ∨ Q → bool_decide P || bool_decide Q = true.
Proof.
  intros [HP|HQ].
  - by rewrite (bool_decide_eq_true_2 _ HP).
  - by rewrite (bool_decide_eq_true_2 _ HQ), orb_true_r.
Qed.

Lemma bool_decide_or_false (P Q : Prop) `{!Decision P, !Decision Q} :
  ¬ (P ∨ Q) → bool_decide P || bool_decide Q = false.
Proof.
  intros Hno.
  rewrite !bool_decide_eq_false_2; [done | |]; intros ?; apply Hno; auto.
Qed.

Section with_externals.
Context `{Externals}.

Lemma select_valid query_text values keySelector_name t ts minInterval e :
  (typeof values = "object" ∨ values = Undefined) →
  (typeof minInterval = "number" ∨ minInterval = Undefined) →
  select (Str query_text) values (Fn keySelector_name) (Arr (t :: ts))
    minInterval e
  = (forEach include_trigger (t :: ts) ();;
     select_rest query_text values keySelector_name (t :: ts) minInterval) e.
Proof.
  intros Hv Hm. unfold select, select_rest.
  assert (bool_decide (typeof values = "object")
          || bool_decide (values = Undefined) = true) as ->.
  { destruct Hv as [Hv|Hv]; rewrite (bool_decide_eq_true_2 _ Hv);
      [done | by rewrite orb_true_r]. }
  assert (bool_decide (typeof minInterval = "number")
          || bool_decide (minInterval = Undefined) = true) as ->.
  { destruct Hm as [Hm|Hm]; rewrite (bool_decide_eq_true_2 _ Hm);
      [done | by rewrite orb_true_r]. }
  done.
Qed.

(** The arguments fail a check of lines 138-147: the call throws the
    check's error and the object is as it was. *)
Lemma select_invalid query values keySelector triggers minInterval e :
  ¬ arguments_pass query values keySelector triggers minInterval →
  ∃ msg, msg ∈ check_messages
         ∧ select query values keySelector triggers minInterval e
           = (e, inl (Error msg)).
Proof.
  intros Hbad. unfold select.
  assert (∀ msg, msg ∈ check_messages →
    ∃ msg', msg' ∈ check_messages
            ∧ (throw (Error msg) : E loc) e = (e, inl (Error msg'))) as Hthrow.
  { intros msg Hmsg. by exists msg. }
  destruct query as [| | |query_text| | |];
    try (apply Hthrow; unfold check_messages; set_solver).
  destruct (bool_decide (typeof values = "object")
            || bool_decide (values = Undefined)) eqn:Hv;
    [| apply Hthrow; unfold check_messages; set_solver].
  cbn [negb].
  destruct keySelector as [| | | |name| |];
    try (apply Hthrow; unfold check_messages; set_solver).
  destruct triggers as [| | | | | |[|t ts]];
    try (apply Hthrow; unfold check_messages; set_solver).
  destruct (bool_decide (typeof minInterval = "number")
            || bool_decide (minInterval = Undefined)) eqn:Hm;
    [| apply Hthrow; unfold check_messages; set_solver].
  destruct Hbad. unfold arguments_pass. split_and!; eauto.
  - apply orb_true_iff in Hv as [Hv|Hv]; apply bool_decide_eq_true_1 in Hv;
      auto.
  - apply orb_true_iff in Hm as [Hm|Hm]; apply bool_decide_eq_true_1 in Hm;
      auto.
Qed.

(** What [select_rest] leaves: the triggers' loop is over, so
    [_schemaCache] and the settings stay; either a select object for the
    triggers is made and pushed on [_select], or the call throws and
    [_select] and the select objects are as they were. *)
Lemma select_rest_effect query_text values name ts minInterval e :
  let e' := (select_rest query_text values name ts minInterval e).1 in
  settings_database e' = settings_database e
  ∧ slaveSettings e' = slaveSettings e
  ∧ _schemaCache e' = _schemaCache e
  ∧ ((_select e' = _select e ∧ selectObjs e' = selectObjs e)
     ∨ ∃ qc, _select e' = _select e ++ [length (selectObjs e)]
             ∧ selectObjs e' = selectObjs e ++ [mkSelect qc ts]).
Proof.
  unfold select_rest, default_minInterval, new_QueryCache,
    new_LiveMysqlSelect, set_selectObjs, set_cacheObjs, set_select,
    set_queryCache, this.
  unfold_st. cbv beta zeta.
  set (key := EJSON_stringify _ _ _).
  repeat (case_match; simplify_eq/=); split_and!; eauto.
Qed.

(** Lines 173-190 with a numeric [minInterval], or with the identity
    already registered: the cache of the identity is found, or made and
    registered, and a new select object is attached to it. *)
Lemma select_rest_run query_text values name ts minInterval e :
  typeof minInterval = "number"
  ∨ is_Some (_queryCache e !! identity_key query_text values name) →
  let key := identity_key query_text values name in
  let newSelect := length (selectObjs e) in
  let r := select_rest query_text values name ts minInterval e in
  r.2 = inr newSelect
  ∧ settings_database r.1 = settings_database e
  ∧ _schemaCache r.1 = _schemaCache e
  ∧ _select r.1 = _select e ++ [newSelect]
  ∧ ∃ qc, _queryCache r.1 !! key = Some qc
      ∧ selectObjs r.1 = selectObjs e ++ [mkSelect qc ts]
      ∧ match _queryCache e !! key with
        | Some found =>
            qc = found
            ∧ _queryCache r.1 = _queryCache e
            ∧ cacheObjs r.1 = alter (attach newSelect) qc (cacheObjs e)
        | None =>
            qc = length (cacheObjs e)
            ∧ _queryCache r.1 = <[key := qc]> (_queryCache e)
            ∧ cacheObjs r.1
              = cacheObjs e
                ++ [mkQueryCache query_text (identity_values values) key
                      (makeTag name) minInterval [newSelect]]
        end.
Proof.
  intros Hm. cbn zeta.
  unfold select_rest, default_minInterval, new_QueryCache,
    new_LiveMysqlSelect, set_selectObjs, set_cacheObjs, set_select,
    set_queryCache, this.
  fold (identity_values values).
  fold (identity_key query_text values name).
  unfold_st. cbv beta zeta.
  destruct (_queryCache e !! identity_key query_text values name)
    as [found|] eqn:Hkey; simpl.
  - split_and!; try done. exists found. by rewrite Hkey.
  - destruct Hm as [Hm|[? [=]]].
    destruct minInterval; try done. simpl.
    split_and!; try done. exists (length (cacheObjs e)).
    rewrite lookup_insert_eq.
    split_and!; try done.
    rewrite <- (Nat.add_0_r (length (cacheObjs e))) at 1.
    by rewrite alter_app_r.
Qed.

(** A call of [select] whose arguments pass the checks and whose triggers
    all have a database that is no inherited name, with a numeric
    [minInterval] or a registered identity. *)
Lemma select_run query_text values name t ts minInterval e :
  (typeof values = "object" ∨ values = Undefined) →
  (typeof minInterval = "number"
   ∨ minInterval = Undefined
     ∧ is_Some (_queryCache e !! identity_key query_text values name)) →
  (∀ t', t' ∈ t :: ts →
     ∃ d, triggerDatabase_of (settings_database e) t' = Some d
          ∧ d ∉ Object_prototype_names) →
  let key := identity_key query_text values name in
  let newSelect := length (selectObjs e) in
  let r := select (Str query_text) values (Fn name) (Arr (t :: ts))
             minInterval e in
  r.2 = inr newSelect
  ∧ settings_database r.1 = settings_database e
  ∧ _select r.1 = _select e ++ [newSelect]
  ∧ ∃ qc, _queryCache r.1 !! key = Some qc
      ∧ selectObjs r.1 = selectObjs e ++ [mkSelect qc (t :: ts)]
      ∧ match _queryCache e !! key with
        | Some found =>
            qc = found
            ∧ _queryCache r.1 = _queryCache e
            ∧ cacheObjs r.1 = alter (attach newSelect) qc (cacheObjs e)
        | None =>
            qc = length (cacheObjs e)
            ∧ _queryCache r.1 = <[key := qc]> (_queryCache e)
            ∧ cacheObjs r.1
              = cacheObjs e
                ++ [mkQueryCache query_text (identity_values values) key
                      (makeTag name) minInterval [newSelect]]
        end.
Proof.
  intros Hv Hm Hdb. cbn zeta.
  rewrite select_valid by (tauto || done). rewrite engine_bind_unfold.
  destruct (include_triggers_run (t :: ts) e)
    as (sc & r & -> & _ & _ & Hok).
  rewrite (Hok Hdb).
  pose proof (select_rest_run query_text values name (t :: ts) minInterval
                (with_schemaCache e sc)) as Hrest.
  cbn zeta in Hrest. simpl in Hrest.
  destruct Hrest as (Hr & Hd & _ & Hsel & Hqc); [tauto |].
  by split_and!.
Qed.

Lemma arguments_pass_or_not query values keySelector triggers minInterval :
  arguments_pass query values keySelector triggers minInterval
  ∨ ¬ arguments_pass query values keySelector triggers minInterval.
Proof.
  unfold arguments_pass.
  destruct (decide (typeof query = "string")); [| right; naive_solver].
  destruct (decide (typeof values = "object")),
         (decide (values = Undefined)); try (right; naive_solver).
  all: destruct (decide (typeof minInterval = "number")),
         (decide (minInterval = Undefined)); try (right; naive_solver).
  all: destruct keySelector; try (right; naive_solver).
  all: destruct triggers as [| | | | | |[|t ts]]; try (right; naive_solver).
  all: left; naive_solver.
Qed.

Lemma select_effect query values keySelector triggers minInterval e :
  let e' := (select query values keySelector triggers minInterval e).1 in
  settings_database e' = settings_database e
  ∧ (∀ pair, in_schema (_schemaCache e) pair →
             in_schema (_schemaCache e') pair)
  ∧ ((_select e' = _select e ∧ selectObjs e' = selectObjs e)
     ∨ ∃ qc ts,
         _select e' = _select e ++ [length (selectObjs e)]
         ∧ selectObjs e' = selectObjs e ++ [mkSelect qc ts]
         ∧ ∀ t, t ∈ ts →
             ∃ d, triggerDatabase_of (settings_database e) t = Some d
                  ∧ in_schema (_schemaCache e') (d, table t)).
Proof.
  destruct (arguments_pass_or_not query values keySelector triggers
              minInterval) as [Hok|Hbad]; cycle 1.
  { destruct (select_invalid _ _ _ _ _ e Hbad) as (msg & _ & ->).
    simpl. eauto. }
  destruct Hok as (Hq & Hv & [name ->] & (t & ts & ->) & Hm).
  destruct query as [| | |query_text| | |]; try done.
  rewrite select_valid by done. rewrite engine_bind_unfold.
  destruct (include_triggers_run (t :: ts) e)
    as (sc & r & -> & Hmono & Hall & Hok).
  destruct r as [x|[]].
  { simpl. eauto. }
  specialize (Hall eq_refl).
  pose proof (select_rest_effect query_text values name (t :: ts) minInterval
                (with_schemaCache e sc)) as (Hd & _ & Hsc & Hsel).
  cbn zeta in *. rewrite Hd, Hsc. simpl. split_and!; [done | done |].
  destruct Hsel as [Hsel|(qc & Hs1 & Hs2)]; [by left |].
  right. exists qc, (t :: ts). eauto.
Qed.

Lemma removeSelect_effect s e :
  let e' := (_removeSelect s e).1 in
  settings_database e' = settings_database e
  ∧ slaveSettings e' = slaveSettings e
  ∧ _schemaCache e' = _schemaCache e
  ∧ selectObjs e' = selectObjs e
  ∧ _select e' ⊆ _select e.
Proof.
  unfold _removeSelect, set_select, set_cacheObjs, set_queryCache, this.
  unfold_st. cbv beta zeta.
  repeat (case_match; simplify_eq/=); split_and!; try done.
  all: apply sublist_subseteq, sublist_delete.
Qed.

End with_externals.

(** ** The claims about select and _removeSelect *)

Section claims.
Context `{Externals}.

Lemma covered_reachable e : reachable e → covered e.
Proof.
  induction 1 as [d ss|e q v k tr m Hr IH|e s Hr IH].
  - intros t (s & sel & Hs & _). by apply not_elem_of_nil in Hs.
  - pose proof (select_effect q v k tr m e) as (Hd & Hmono & Hsel).
    cbn zeta in *. intros t (s & sel & Hs & Hsel' & Ht). rewrite Hd.
    destruct Hsel as [[Hs1 Hs2]|(qc & ts & Hs1 & Hs2 & Hts)].
    + rewrite Hs1 in Hs. rewrite Hs2 in Hsel'.
      destruct (IH t) as (d' & Hd' & Hin); [by exists s, sel |].
      exists d'. split; [done |]. by apply Hmono.
    + rewrite Hs1 in Hs. rewrite Hs2 in Hsel'.
      apply lookup_app_Some in Hsel' as [Hold|[Hge Hnew]].
      * apply elem_of_app in Hs as [Hs|Hs%list_elem_of_singleton].
        -- destruct (IH t) as (d' & Hd' & Hin); [by exists s, sel |].
           exists d'. split; [done |]. by apply Hmono.
        -- apply lookup_lt_Some in Hold. lia.
      * apply list_lookup_singleton_Some in Hnew as [_ <-]. by apply Hts.
  - pose proof (removeSelect_effect s e) as (Hd & _ & Hsc & Hobjs & Hsub).
    cbn zeta in *. intros t (s' & sel & Hs & Hsel' & Ht).
    rewrite Hd, Hsc. apply IH. exists s', sel. rewrite <- Hobjs. auto.
Qed.

(** C6 (amended).  At every reachable state the schema cache holds the
    (database, table) pair of every trigger of every live subscription;
    [select] adds the pairs of its triggers and removes none, and
    [_removeSelect] leaves the schema cache as it is: the cache is a
    superset of the union of the live triggers' pairs, and nothing
    removes a pair from it. *)
Theorem schemaCache_holds_the_pairs_of_live_triggers e :
  reachable e →
  covered e
  ∧ (∀ query values keySelector triggers minInterval pair,
       in_schema (_schemaCache e) pair →
       in_schema (_schemaCache
         (select query values keySelector triggers minInterval e).1) pair)
  ∧ (∀ s, _schemaCache (_removeSelect s e).1 = _schemaCache e).
Proof.
  intros Hr. split_and!.
  - by apply covered_reachable.
  - intros q v k tr m pair. apply select_effect.
  - intros s. apply removeSelect_effect.
Qed.

(** C8 (amended).  [select] checks its arguments synchronously, in the
    order query, values, keySelector, triggers, minInterval: when the
    query is no string it throws "query must be a string"; else when the
    values are neither an object (or null) nor undefined, "values must
    be an object, null, or undefined"; else when the keySelector is no
    function, "keySelector required"; else when the triggers are no
    non-empty array, "triggers array required"; else when the
    minInterval is neither a number nor undefined, "minInterval must be
    a number or undefined"; and in each case the object is as it was (an
    empty query string and a negative minInterval pass the checks).
    When the checks pass and a trigger has no database, its own or the
    default one, the triggers listed before it having databases that are
    no names of inherited properties, it throws "no database selected
    on trigger". *)
Theorem select_checks_its_arguments
    query values keySelector triggers minInterval e :
  let r := select query values keySelector triggers minInterval e in
  (typeof query ≠ "string" →
   r = (e, inl (Error "query must be a string")))
  ∧ (typeof query = "string" →
     ¬ (typeof values = "object" ∨ values = Undefined) →
     r = (e, inl (Error "values must be an object, null, or undefined")))
  ∧ (typeof query = "string" →
     (typeof values = "object" ∨ values = Undefined) →
     (∀ name, keySelector ≠ Fn name) →
     r = (e, inl (Error "keySelector required")))
  ∧ (typeof query = "string" →
     (typeof values = "object" ∨ values = Undefined) →
     (∃ name, keySelector = Fn name) →
     (∀ t ts, triggers ≠ Arr (t :: ts)) →
     r = (e, inl (Error "triggers array required")))
  ∧ (typeof query = "string" →
     (typeof values = "object" ∨ values = Undefined) →
     (∃ name, keySelector = Fn name) →
     (∃ t ts, triggers = Arr (t :: ts)) →
     ¬ (typeof minInterval = "number" ∨ minInterval = Undefined) →
     r = (e, inl (Error "minInterval must be a number or undefined")))
  ∧ (arguments_pass query values keySelector triggers minInterval →
     ∀ ts1 t ts2,
       triggers = Arr (ts1 ++ t :: ts2) →
       (∀ t', t' ∈ ts1 →
          ∃ d, triggerDatabase_of (settings_database e) t' = Some d
               ∧ d ∉ Object_prototype_names) →
       triggerDatabase_of (settings_database e) t = None →
       r.2 = inl (Error "no database selected on trigger")).
Proof.
  cbn zeta. split_and!.
  - intros Hq. by destruct query.
  - intros Hq Hv. destruct query; try done. unfold select.
    by rewrite (bool_decide_or_false _ _ Hv).
  - intros Hq Hv Hk. destruct query; try done. unfold select.
    rewrite (bool_decide_or_true _ _ Hv). cbn [negb].
    destruct keySelector; try done. by destruct (Hk name).
  - intros Hq Hv [name ->] Ht. destruct query; try done. unfold select.
    rewrite (bool_decide_or_true _ _ Hv). cbn [negb].
    destruct triggers as [| | | | | |[|t ts]]; try done.
    by destruct (Ht t ts).
  - intros Hq Hv [name ->] (t & ts & ->) Hm. destruct query; try done.
    unfold select. rewrite (bool_decide_or_true _ _ Hv). cbn [negb].
    by rewrite (bool_decide_or_false _ _ Hm).
  - intros (Hq & Hv & [name ->] & (t0 & ts0 & ->) & Hm) ts1 t ts2 [= Hts]
      Hok Hnone.
    destruct query as [| | |query_text| | |]; try done.
    rewrite select_valid by done. rewrite engine_bind_unfold.
    rewrite Hts, <- (with_schemaCache_id e) at 1.
    rewrite include_triggers_until by done. cbv zeta. by rewrite Hnone.
Qed.

(** [select] finds or creates the cache of an identity.  A call whose
    arguments pass the checks and whose triggers all have a database
    that is no name of an inherited property ([toString],
    [constructor], ...), with a numeric [minInterval] (or none, when the
    identity is already registered), returns a fresh handle, pushed on
    [_select] and bound to the triggers and to the cache registered
    under the identity key: the registered one when there is one, the
    registry and the number of caches being as they were; otherwise a new
    cache, registered under the key, which has the new handle as its only
    subscription. *)
Theorem select_finds_or_creates_the_cache
    query_text values name t ts minInterval e :
  (typeof values = "object" ∨ values = Undefined) →
  (typeof minInterval = "number"
   ∨ minInterval = Undefined
     ∧ is_Some (_queryCache e !! identity_key query_text values name)) →
  (∀ t', t' ∈ t :: ts →
     ∃ d, triggerDatabase_of (settings_database e) t' = Some d
          ∧ d ∉ Object_prototype_names) →
  let key := identity_key query_text values name in
  let newSelect := length (selectObjs e) in
  let r := select (Str query_text) values (Fn name) (Arr (t :: ts))
             minInterval e in
  r.2 = inr newSelect
  ∧ _select r.1 = _select e ++ [newSelect]
  ∧ ∃ qc, _queryCache r.1 !! key = Some qc
      ∧ selectObjs r.1 = selectObjs e ++ [mkSelect qc (t :: ts)]
      ∧ match _queryCache e !! key with
        | Some found =>
            qc = found
            ∧ _queryCache r.1 = _queryCache e
            ∧ cacheObjs r.1 = alter (attach newSelect) qc (cacheObjs e)
        | None =>
            qc = length (cacheObjs e)
            ∧ _queryCache r.1 = <[key := qc]> (_queryCache e)
            ∧ ∃ c, cacheObjs r.1 = cacheObjs e ++ [c]
                   ∧ query c = query_text
                   ∧ LiveMysql.values c = identity_values values
                   ∧ queryCacheKey c = key
                   ∧ LiveMysql.minInterval c = minInterval
                   ∧ selects c = [newSelect]
        end.
Proof.
  intros Hv Hm Hdb.
  pose proof (select_run query_text values name t ts minInterval e Hv Hm Hdb)
    as Hrun.
  cbn zeta in *.
  destruct Hrun as (Hr & _ & Hsel & qc & Hqc & Hobjs & Hcase).
  split; [done |]. split; [done |]. exists qc.
  split; [done |]. split; [done |].
  destruct (_queryCache e !! identity_key query_text values name);
    [done |].
  destruct Hcase as (-> & Hreg & Hcs). split; [done |]. split; [done |].
  by eexists.
Qed.

(** Two calls of [select], one after the other, whose queries, values
    and key selectors give the same identity key, the triggers of both
    having databases that are no names of inherited properties: the
    second call makes no cache and leaves the registry as it is, and the
    two handles, which differ, are bound to the same cache, the one
    registered under the key. *)
Theorem a_second_select_shares_the_cache
    query1 values1 name1 t1 ts1 m1 query2 values2 name2 t2 ts2 m2 e :
  identity_key query1 values1 name1 = identity_key query2 values2 name2 →
  (typeof values1 = "object" ∨ values1 = Undefined) →
  (typeof values2 = "object" ∨ values2 = Undefined) →
  typeof m1 = "number" →
  (typeof m2 = "number" ∨ m2 = Undefined) →
  (∀ t', t' ∈ (t1 :: ts1) ++ (t2 :: ts2) →
     ∃ d, triggerDatabase_of (settings_database e) t' = Some d
          ∧ d ∉ Object_prototype_names) →
  let first := select (Str query1) values1 (Fn name1) (Arr (t1 :: ts1))
                 m1 e in
  let second := select (Str query2) values2 (Fn name2) (Arr (t2 :: ts2))
                  m2 first.1 in
  ∃ s1 s2 qc,
    first.2 = inr s1 ∧ second.2 = inr s2 ∧ s1 ≠ s2
    ∧ selectObjs second.1 !! s1 = Some (mkSelect qc (t1 :: ts1))
    ∧ selectObjs second.1 !! s2 = Some (mkSelect qc (t2 :: ts2))
    ∧ _queryCache second.1 !! identity_key query1 values1 name1 = Some qc
    ∧ _queryCache second.1 = _queryCache first.1
    ∧ length (cacheObjs second.1) = length (cacheObjs first.1).
Proof.
  intros Hkey Hv1 Hv2 Hm1 Hm2 Hdb. cbn zeta.
  pose proof (select_run query1 values1 name1 t1 ts1 m1 e Hv1) as Hfirst.
  cbn zeta in Hfirst.
  destruct Hfirst as (Hr1 & Hd1 & _ & qc & Hqc1 & Hobjs1 & _).
  { by left. }
  { intros t' Ht'. apply Hdb, elem_of_app. by left. }
  set (e1 := (select (Str query1) values1 (Fn name1) (Arr (t1 :: ts1))
                m1 e).1) in *.
  pose proof (select_run query2 values2 name2 t2 ts2 m2 e1 Hv2) as Hsecond.
  cbn zeta in Hsecond. rewrite <- Hkey, Hqc1 in Hsecond.
  destruct Hsecond as (Hr2 & _ & _ & qc' & Hqc2 & Hobjs2 & -> & Hreg & Hcs).
  { destruct Hm2 as [Hm2|Hm2]; [by left | right; eauto]. }
  { intros t' Ht'. rewrite Hd1. apply Hdb, elem_of_app. by right. }
  exists (length (selectObjs e)), (length (selectObjs e1)), qc.
  rewrite Hobjs2, Hcs, length_alter.
  split_and!; try done.
  - rewrite Hobjs1, length_app. simpl. lia.
  - rewrite Hobjs1, <- (assoc (++)). by apply list_lookup_middle.
  - by apply list_lookup_middle.
Qed.

End claims.

(** C6, the claim as stated fails: after a subscription on ("d", "t") is
    made and removed, no subscription is live and the pair is still in
    the schema cache. *)
Lemma schemaCache_keeps_the_pair_of_a_removed_subscription :
  @reachable example_externals example_unsubscribed
  ∧ _select example_unsubscribed = []
  ∧ _schemaCache example_unsubscribed !! "d" = Some ["t"].
Proof.
  split_and!.
  - apply reachable_removeSelect, reachable_select, reachable_new.
  - by vm_compute.
  - by vm_compute.
Qed.

Lemma schemaCache_holds_the_pairs_of_live_triggers_witness :
  @covered example_subscribed
  ∧ (∀ query values keySelector triggers minInterval pair,
       in_schema (_schemaCache example_subscribed) pair →
       in_schema (_schemaCache
         (@select example_externals query values keySelector triggers
            minInterval example_subscribed).1) pair)
  ∧ (∀ s, _schemaCache (@_removeSelect s example_subscribed).1
          = _schemaCache example_subscribed).
Proof.
  apply (@schemaCache_holds_the_pairs_of_live_triggers example_externals).
  apply reachable_select, reachable_new.
Defined.

(** C7, the failing input: on the object the constructor leaves, a call
    with a new identity and no [minInterval] throws a TypeError on
    [this.slaveSettings.minInterval], after the schema cache took the
    trigger's pair; no cache is registered and no handle returned. *)
Lemma select_without_minInterval_throws :
  @select example_externals (Str "SELECT 1") Undefined (Fn "k")
    (Arr [example_trigger]) Undefined (new None)
  = (mkEngine None None [] ∅ {["d" := ["t"]]} [] [], inl TypeError).
Proof. by vm_compute. Qed.

(** C8, the claim as stated fails: a call with the empty query string
    and a negative minInterval passes the checks and returns a handle. *)
Lemma select_accepts_an_empty_query_and_a_negative_interval :
  (@select example_externals (Str "") Undefined (Fn "k")
     (Arr [example_trigger]) (Num (-5)) (new None)).2
  = inr 0%nat.
Proof. by vm_compute. Qed.

Lemma select_checks_its_arguments_witness :
  @select example_externals (Num 1) Undefined (Fn "k")
    (Arr [example_trigger]) Undefined (new None)
  = (new None, inl (Error "query must be a string"))
  ∧ @select example_externals (Str "q") (Num 2) (Num 3) (Arr []) (Str "x")
      (new None)
    = (new None,
       inl (Error "values must be an object, null, or undefined"))
  ∧ @select example_externals (Str "q") Null (Fn "k") (Arr []) (Str "x")
      (new None)
    = (new None, inl (Error "triggers array required"))
  ∧ @select example_externals (Str "q") Null (Fn "k")
      (Arr [example_trigger]) (Str "x") (new None)
    = (new None, inl (Error "minInterval must be a number or undefined"))
  ∧ (@select example_externals (Str "q") Undefined (Fn "k")
       (Arr [example_trigger; mkTrigger None "t"]) Undefined (new None)).2
    = inl (Error "no database selected on trigger").
Proof.
  split_and!.
  - apply (@select_checks_its_arguments example_externals
             (Num 1) Undefined (Fn "k") (Arr [example_trigger])
             Undefined (new None)).
    discriminate.
  - apply (@select_checks_its_arguments example_externals
             (Str "q") (Num 2) (Num 3) (Arr []) (Str "x") (new None)).
    + reflexivity.
    + intros [Hv|Hv]; discriminate Hv.
  - apply (@select_checks_its_arguments example_externals
             (Str "q") Null (Fn "k") (Arr []) (Str "x") (new None)).
    + reflexivity.
    + by left.
    + by exists "k".
    + intros t ts Ht. discriminate Ht.
  - apply (@select_checks_its_arguments example_externals
             (Str "q") Null (Fn "k") (Arr [example_trigger]) (Str "x")
             (new None)).
    + reflexivity.
    + by left.
    + by exists "k".
    + by exists example_trigger, [].
    + intros [Hm|Hm]; discriminate Hm.
  - apply (proj2 (proj2 (proj2 (proj2 (proj2
             (@select_checks_its_arguments example_externals
                (Str "q") Undefined (Fn "k")
                (Arr [example_trigger; mkTrigger None "t"]) Undefined
                (new None))))))
             (conj eq_refl
                (conj (or_intror eq_refl)
                   (conj (ex_intro _ "k" eq_refl)
                      (conj (ex_intro _ example_trigger
                               (ex_intro _ [mkTrigger None "t"] eq_refl))
                            (or_intror eq_refl)))))
             [example_trigger] (mkTrigger None "t") [] eq_refl).
    + intros t' Ht'%list_elem_of_singleton. subst t'.
      exists "d". split; [reflexivity |].
      unfold Object_prototype_names. set_solver.
    + reflexivity.
Defined.

Lemma select_finds_or_creates_the_cache_witness :
  (@select example_externals (Str "SELECT 1") Undefined (Fn "k")
     (Arr [example_trigger]) (Num 50) (new None)).2
  = inr 0%nat
  ∧ _queryCache example_subscribed !! "SELECT 1|k" = Some 0%nat
  ∧ ∃ c, cacheObjs example_subscribed = [c]
         ∧ query c = "SELECT 1"
         ∧ queryCacheKey c = "SELECT 1|k"
         ∧ LiveMysql.minInterval c = Num 50
         ∧ selects c = [0%nat].
Proof.
  pose proof (@select_finds_or_creates_the_cache example_externals
                "SELECT 1" Undefined "k" example_trigger [] (Num 50)
                (new None)) as Hrun.
  cbn zeta in Hrun.
  destruct Hrun as (Hr & _ & qc & Hqc & _ & Hfound).
  - by right.
  - by left.
  - intros t' ->%list_elem_of_singleton.
    exists "d". split; [reflexivity |].
    unfold Object_prototype_names. set_solver.
  - change (_queryCache (new None) !! _) with (@None nat) in Hfound.
    destruct Hfound as (-> & _ & c & Hcs & Hq & _ & Hk & Hm & Hs).
    split; [exact Hr |]. split; [exact Hqc |].
    exists c. split; [exact Hcs |]. split; [exact Hq |].
    split; [exact Hk |]. split; [exact Hm | exact Hs].
Defined.

Lemma a_second_select_shares_the_cache_witness :
  ∃ qc,
    selectObjs
      (@select example_externals (Str "SELECT 1") Null (Fn "k")
         (Arr [mkTrigger (Some "e") "u"]) Undefined example_subscribed).1
    = [mkSelect qc [example_trigger];
       mkSelect qc [mkTrigger (Some "e") "u"]].
Proof.
  pose proof (@a_second_select_shares_the_cache example_externals
                "SELECT 1" Undefined "k" example_trigger [] (Num 50)
                "SELECT 1" Null "k" (mkTrigger (Some "e") "u") [] Undefined
                (new None)) as Hrun.
  cbn zeta in Hrun.
  destruct Hrun as (s1 & s2 & qc & Hs1 & Hs2 & _ & H1 & H2 & _).
  - done.
  - by right.
  - by left.
  - done.
  - by right.
  - intros t' Ht'.
    apply elem_of_cons in Ht' as [->|Ht'].
    + exists "d". split; [reflexivity |].
      unfold Object_prototype_names. set_solver.
    + apply list_elem_of_singleton in Ht' as ->.
      exists "e". split; [reflexivity |].
      unfold Object_prototype_names. set_solver.
  - exists qc. injection Hs1 as <-. injection Hs2 as <-.
    vm_compute in H1, H2. vm_compute. congruence.
Defined.

End LiveMysqlFacts.

(* ===================================================================== *)
(** * Part VI.  More about applyDiff                                     *)
(* ===================================================================== *)

Module ApplyDiffFacts.
Import Js Common CommonFacts.

(** ** Which calls return *)

Lemma mapM_result {A B} (f : A → M B) (ok : A → bool) xs :
  (∀ x h, if ok x then ∃ h' y, f x h = (h', inr y)
          else (f x h).2 = inl TypeError) →
  ∀ h, if forallb ok xs then ∃ h' ys, mapM f xs h = (h', inr ys)
       else (mapM f xs h).2 = inl TypeError.
Proof.
  intros Hf. induction xs as [|x xs IH]; intros h.
  { simpl. by exists h, []. }
  cbn [mapM forallb]. rewrite bind_unfold.
  specialize (Hf x h). destruct (ok x); simpl.
  - destruct Hf as (h1 & y & ->). rewrite bind_unfold.
    specialize (IH h1). destruct (forallb ok xs).
    + destruct IH as (h2 & ys & ->). by exists h2, (y :: ys).
    + by destruct (mapM f xs h1) as [h2 [e|ys]]; simplify_eq/=.
  - by destruct (f x h) as [h1 [e|y]]; simplify_eq/=.
Qed.

Lemma copied_rows_result data cs h :
  if forallb (λ c, has_source data (Copied.orig_index c)) cs
  then ∃ h' cw, copied_rows data cs h = (h', inr cw)
  else (copied_rows data cs h).2 = inl TypeError.
Proof.
  apply mapM_result. intros c h0. unfold has_source.
  destruct (arr_get data (Copied.orig_index c - 1)) as [l|] eqn:Hl.
  - rewrite bool_decide_eq_true_2 by eauto. by eexists _, _.
  - rewrite bool_decide_eq_false_2 by (by intros [? ?]). done.
Qed.

Lemma moved_rows_result data ms h :
  if forallb (λ m, has_source data (Moved.old_index m)) ms
  then ∃ h' mw, moved_rows data ms h = (h', inr mw)
  else (moved_rows data ms h).2 = inl TypeError.
Proof.
  apply mapM_result. intros m h0. unfold has_source. cbv zeta.
  destruct (arr_get data (Moved.old_index m - 1)) as [l|] eqn:Hl.
  - rewrite bool_decide_eq_true_2 by eauto. by eexists _, _.
  - rewrite bool_decide_eq_false_2 by (by intros [? ?]). done.
Qed.

Lemma applyDiff_returns_or_throws data diff h :
  if sources_present data diff
  then ∃ rows, (applyDiff data diff h).2 = inr rows
  else (applyDiff data diff h).2 = inl TypeError.
Proof.
  rewrite applyDiff_phases_eq. unfold applyDiff_phases, sources_present.
  cbv zeta. rewrite bind_unfold.
  pose proof (copied_rows_result data (default [] (copied diff)) h) as Hc.
  destruct (forallb _ (default [] (copied diff))); simpl; cycle 1.
  { by destruct (copied_rows _ _ h) as [h1 [e|cw]]; simplify_eq/=. }
  destruct Hc as (h1 & cw & ->). rewrite bind_unfold.
  pose proof (moved_rows_result data (default [] (moved diff)) h1) as Hm.
  destruct (forallb _ (default [] (moved diff))); simpl; cycle 1.
  { by destruct (moved_rows _ _ h1) as [h2 [e|mw]]; simplify_eq/=. }
  destruct Hm as (h2 & mw & ->).
  rewrite bind_unfold, added_rows_run. by eexists.
Qed.

(** [applyDiff] returns when every [copied] and [moved] entry refers to
    a slot of [data] that holds a row, and throws a TypeError otherwise
    (on [copyRow._index = ...] or [movingRow._index = ...], the row being
    [undefined]); entries of [removed] and [added] never make it throw,
    whatever their positions. *)
Theorem applyDiff_needs_the_source_rows data diff h :
  if sources_present data diff
  then ∃ rows, (applyDiff data diff h).2 = inr rows
  else (applyDiff data diff h).2 = inl TypeError.
Proof. apply applyDiff_returns_or_throws. Qed.

(** C10 (amended).  A [null] list is treated as an empty one, whichever
    of the four it is: the call does what it does with the empty list in
    its place.  A [null] list does not make the call total: it returns
    when every entry of the [copied] and [moved] lists that are not
    [null] refers to a slot of [data] that holds a row, and throws a
    TypeError otherwise.  With the four lists [null] it returns, leaves
    the store as it is, and yields the rows of the input in order. *)
Theorem applyDiff_null_lists data diff rows h :
  applyDiff data diff h = applyDiff data (nulls_as_empty diff) h
  ∧ (if sources_present data diff
     then ∃ rows', (applyDiff data diff h).2 = inr rows'
     else (applyDiff data diff h).2 = inl TypeError)
  ∧ applyDiff data null_diff h = (h, inr (compact data))
  ∧ applyDiff (Some <$> rows) null_diff h = (h, inr rows).
Proof.
  split_and!.
  - by destruct diff as [[r|] [m|] [c|] [a|]].
  - apply applyDiff_returns_or_throws.
  - done.
  - unfold applyDiff, null_diff; simpl. unfold_st.
    by rewrite compact_Some.
Qed.

(** C10, the claim as stated fails: with three of the four lists [null]
    and a [moved] entry whose [old_index] is past the end of the data,
    the call throws a TypeError. *)
Lemma applyDiff_with_null_lists_throws :
  applyDiff (Some <$> example_old)
    (mkDiff None (Some [Moved.mk 5 1]) None None) example_store
  = (example_store, inl TypeError).
Proof. by vm_compute. Qed.

(** ** Arrays that read the same compact to the same rows *)

Lemma omap_seq_none {A} (f : nat → option A) k n :
  (∀ i, f i = None) → omap f (seq k n) = [].
Proof.
  intros Hf. revert k. induction n as [|n IH]; intros k; [done |].
  simpl. by rewrite Hf, IH.
Qed.

Lemma omap_after_fmap {A B C} (f : B → option C) (g : A → B) (l : list A) :
  omap f (g <$> l) = omap (λ x, f (g x)) l.
Proof.
  induction l as [|x l IH]; [done |]. cbn [fmap list_fmap omap list_omap].
  by rewrite IH.
Qed.

Lemma compact_seq (w : array) n :
  (length w ≤ n)%nat → compact w = omap (λ i, mjoin (w !! i)) (seq 0 n).
Proof.
  unfold compact. revert n. induction w as [|x w IH]; intros n Hn.
  { by rewrite omap_seq_none. }
  destruct n as [|n]; simpl in Hn; [lia |].
  cbn [seq]. rewrite <- fmap_S_seq.
  cbn [omap list_omap lookup list_lookup]. simpl.
  rewrite (IH n) by lia. rewrite omap_after_fmap. by destruct x.
Qed.

Lemma compact_ext (w w' : array) :
  (∀ j : nat, mjoin (w !! j) = mjoin (w' !! j)) → compact w = compact w'.
Proof.
  intros Hj.
  rewrite (compact_seq w (length w `max` length w')) by lia.
  rewrite (compact_seq w' (length w `max` length w')) by lia.
  apply list_omap_ext. apply Forall2_same_length_lookup_2; [done |].
  intros i x y Hx Hy. assert (x = y) as <- by congruence. apply Hj.
Qed.

Lemma compact_without_positions (ps : list Z) (rows : list loc) k :
  compact (imap (λ i row, if decide ((Z.of_nat (k + i) + 1)%Z ∈ ps)
                          then None else Some row) rows)
  = (filter (λ ir, (Z.of_nat ir.1 + 1)%Z ∉ ps)
            (imap (λ i x, ((k + i)%nat, x)) rows)).*2.
Proof.
  unfold compact. revert k. induction rows as [|row rows IH]; intros k.
  { done. }
  cbn [imap]. rewrite filter_cons. cbn [fst].
  rewrite (imap_ext _ (λ i row, if decide ((Z.of_nat (S k + i) + 1)%Z ∈ ps)
                                then None else Some row)); cycle 1.
  { intros i x _. simpl. by replace (k + S i)%nat with (S (k + i)) by lia. }
  rewrite (imap_ext ((λ i x, ((k + i)%nat, x)) ∘ S)
             (λ i x, ((S k + i)%nat, x))); cycle 1.
  { intros i x _. simpl. f_equal. lia. }
  cbn [omap list_omap]. rewrite IH.
  destruct (decide ((Z.of_nat (k + 0) + 1)%Z ∈ ps)) as [Hin|Hin].
  - by rewrite decide_False by tauto.
  - by rewrite decide_True.
Qed.

Lemma compact_null_slots (ps : list Z) (rows : list loc) :
  compact (null_slots ps (Some <$> rows)) = without_positions ps rows.
Proof.
  unfold without_positions, enumerate.
  rewrite <- (compact_without_positions _ rows 0). apply compact_ext.
  intros j. rewrite <- !arr_get_nat.
  rewrite arr_get_null_slots, !arr_get_nat, list_lookup_imap.
  rewrite list_lookup_fmap. simpl.
  destruct (rows !! j) as [row|]; simpl.
  - destruct (decide (_ ∧ _)) as [[Hin _]|Hnin].
    + by rewrite decide_True.
    + rewrite decide_False; [done |]. intros Hin. apply Hnin. split; [done | lia].
  - by destruct (decide (_ ∧ _)).
Qed.

(** A diff that only removes: [applyDiff] returns the rows whose 1-based
    position is not listed, in order, and leaves the store as it is.  A
    listed position outside [1..N] (zero, negative, or past the end)
    removes nothing. *)
Theorem applyDiff_removes_the_listed_positions rs (rows : list loc) h :
  applyDiff (Some <$> rows) (mkDiff (Some rs) None None None) h
  = (h, inr (without_positions (Removed._index <$> rs) rows)).
Proof.
  rewrite applyDiff_phases_eq. unfold applyDiff_phases. simpl.
  unfold copied_rows, moved_rows. simpl.
  rewrite bind_unfold. unfold mret at 1, ST_ret at 1.
  rewrite bind_unfold. unfold mret at 1, ST_ret at 1.
  rewrite bind_unfold, added_rows_run. unfold mret, ST_ret. simpl.
  do 2 f_equal. rewrite <- compact_null_slots.
  by unfold null_slots at 1.
Qed.

(** ** Added rows *)

Lemma write_slots_cons kv ws (w : array) :
  write_slots (kv :: ws) w = write_slots ws (arr_set w kv.1 kv.2).
Proof. done. Qed.

Lemma arr_set_push (rows : list loc) (a : loc) :
  arr_set (Some <$> rows) (Z.of_nat (length rows)) (Some a)
  = Some <$> (rows ++ [a]).
Proof.
  unfold arr_set. rewrite decide_False by lia.
  rewrite Nat2Z.id, length_fmap, decide_False by lia.
  by rewrite Nat.sub_diag, fmap_app.
Qed.

Lemma write_added_rows (rows added : list loc) (h : heap) :
  (∀ j a, added !! j = Some a →
     get (deref h a) "_index" = VNum (Z.of_nat (length rows + j) + 1)) →
  write_slots
    (omap (λ a, (λ k : Z, (k, Some a))
                  <$> minus_one (get (deref h a) "_index")) added)
    (Some <$> rows)
  = Some <$> (rows ++ added).
Proof.
  revert rows. induction added as [|a added IH]; intros rows Hidx.
  { by rewrite app_nil_r. }
  cbn [omap list_omap]. rewrite (Hidx 0%nat a) by done.
  cbn [minus_one fmap option_fmap option_map].
  rewrite write_slots_cons. cbn [fst snd].
  replace (Z.of_nat (length rows + 0) + 1 - 1)%Z
    with (Z.of_nat (length rows)) by lia.
  rewrite arr_set_push, IH.
  - by rewrite <- app_assoc.
  - intros j a' Ha'. rewrite (Hidx (S j) a') by done.
    rewrite length_app. simpl. do 2 f_equal. lia.
Qed.

(** A diff that only adds rows whose [_index] continue the positions of
    the data ([N+1], [N+2], ...): [applyDiff] returns the data followed
    by the added rows, the added row objects themselves, and leaves the
    store as it is. *)
Theorem applyDiff_appends_the_added_rows (rows added : list loc) h :
  (∀ j a, added !! j = Some a →
     get (deref h a) "_index" = VNum (Z.of_nat (length rows + j) + 1)) →
  applyDiff (Some <$> rows) (mkDiff None None None (Some added)) h
  = (h, inr (rows ++ added)).
Proof.
  intros Hidx. rewrite applyDiff_phases_eq. unfold applyDiff_phases. simpl.
  unfold copied_rows, moved_rows. simpl.
  rewrite bind_unfold. unfold mret at 1, ST_ret at 1.
  rewrite bind_unfold. unfold mret at 1, ST_ret at 1.
  rewrite bind_unfold, added_rows_run. unfold mret, ST_ret.
  unfold null_slots, write_slots at 2 3 4 5. simpl.
  by rewrite write_added_rows, compact_Some.
Qed.

(** An added row that has no [_index] is dropped without an error:
    [newResults[undefined - 1] = added] writes no element of the array. *)
Theorem applyDiff_drops_an_added_row_without_index
    (rows added : list loc) h :
  (∀ a, a ∈ added → get (deref h a) "_index" = VUndefined) →
  applyDiff (Some <$> rows) (mkDiff None None None (Some added)) h
  = (h, inr rows).
Proof.
  intros Hidx. rewrite applyDiff_phases_eq. unfold applyDiff_phases. simpl.
  unfold copied_rows, moved_rows. simpl.
  rewrite bind_unfold. unfold mret at 1, ST_ret at 1.
  rewrite bind_unfold. unfold mret at 1, ST_ret at 1.
  rewrite bind_unfold, added_rows_run. unfold mret, ST_ret.
  assert (omap (λ a, (λ k : Z, (k, Some a))
                       <$> minus_one (get (deref h a) "_index")) added
          = []) as ->.
  { induction added as [|a added IH]; [done |].
    cbn [omap list_omap]. rewrite (Hidx a) by left. simpl.
    apply IH. intros a' Ha'. apply Hidx. by right. }
  unfold null_slots, write_slots. simpl. by rewrite compact_Some.
Qed.

(** ** Where the returned rows come from *)

Lemma elem_of_arr_set (x : option loc) (w : array) k v :
  x ∈ arr_set w k v → x ∈ w ∨ x = v ∨ x = None.
Proof.
  unfold arr_set. destruct (decide (k < 0)%Z); [by left |].
  destruct (decide (Z.to_nat k < length w)%nat) as [Hlt|Hge].
  - intros (i & Hi)%list_elem_of_lookup.
    destruct (decide (i = Z.to_nat k)) as [->|Hne].
    + rewrite list_lookup_insert_eq in Hi by done. right. left. congruence.
    + rewrite list_lookup_insert_ne in Hi by done.
      left. by eapply list_elem_of_lookup_2.
  - rewrite !elem_of_app, list_elem_of_singleton.
    intros [Hx|[Hx|Hx]]; [by left | | by right; left].
    apply elem_of_replicate in Hx as [-> _]. by right; right.
Qed.

Lemma elem_of_write_slots (l : loc) ws (w : array) :
  Some l ∈ write_slots ws w → Some l ∈ w ∨ ∃ k, (k, Some l) ∈ ws.
Proof.
  revert w. induction ws as [|[k v] ws IH]; intros w; [by left |].
  rewrite write_slots_cons. simpl. intros [Hw|(k' & Hk')]%IH.
  - apply elem_of_arr_set in Hw as [Hw|[Hw|Hw]]; [by left | | done].
    right. exists k. rewrite Hw. by left.
  - right. exists k'. by right.
Qed.

Lemma arr_get_elem_of (data : array) k l :
  arr_get data k = Some l → Some l ∈ data.
Proof.
  unfold arr_get. destruct (decide (k < 0)%Z); [done |].
  destruct (data !! Z.to_nat k) as [x|] eqn:Hx; [| done].
  simpl. intros ->. by eapply list_elem_of_lookup_2.
Qed.

Lemma copied_rows_fresh data cs :
  ∀ h h' cw, copied_rows data cs h = (h', inr cw) →
  length h' = (length h + length cs)%nat
  ∧ ∀ k l, (k, Some l) ∈ cw → (length h ≤ l < length h')%nat.
Proof.
  unfold copied_rows. induction cs as [|c cs IH]; intros h h' cw Hrun.
  { injection Hrun as <- <-. split; [simpl; lia |].
    by intros k l ?%not_elem_of_nil. }
  cbn [mapM] in Hrun. rewrite bind_unfold, bind_unfold in Hrun.
  destruct (arr_get data (Copied.orig_index c - 1)) as [l0|]; [| done].
  cbn [clone] in Hrun. rewrite bind_unfold in Hrun. unfold read at 1 in Hrun.
  rewrite bind_unfold in Hrun. unfold alloc at 1 in Hrun.
  unfold mret at 1, ST_ret at 1 in Hrun.
  rewrite bind_unfold in Hrun. cbn [assign] in Hrun.
  unfold set_prop at 1 in Hrun. unfold mret at 1, ST_ret at 1 in Hrun.
  rewrite bind_unfold in Hrun.
  destruct (@mapM (ST heap) _ _ _ _ _ cs _) as [h1 [e|cw1]] eqn:Hrest;
    [done |].
  injection Hrun as <- <-.
  apply IH in Hrest as [Hlen Hfresh].
  rewrite length_alter, length_app in Hlen. simpl in *.
  split; [lia |].
  intros k l [[= _ ->]|Hin]%elem_of_cons; [lia |].
  apply Hfresh in Hin. rewrite length_alter, length_app in Hin. simpl in Hin.
  lia.
Qed.

(** [applyDiff] invents no rows: every row it returns is a row of the
    input, an added row of the diff, or a clone it made for a [copied]
    entry (a new object of the store); it makes one clone per [copied]
    entry and no other object. *)
Theorem applyDiff_returns_known_rows data diff h h' rows :
  applyDiff data diff h = (h', inr rows) →
  length h' = (length h + length (default [] (copied diff)))%nat
  ∧ ∀ l, l ∈ rows →
      Some l ∈ data ∨ l ∈ default [] (added diff)
      ∨ (length h ≤ l < length h')%nat.
Proof.
  rewrite applyDiff_phases_eq. unfold applyDiff_phases. cbv zeta.
  rewrite bind_unfold.
  destruct (copied_rows data _ h) as [h1 [e|cw]] eqn:Hc; [done |].
  apply copied_rows_fresh in Hc as [Hlen1 Hfresh].
  rewrite bind_unfold.
  pose proof (moved_rows_result data (default [] (moved diff)) h1) as Hm.
  destruct (forallb _ (default [] (moved diff))) eqn:Hall; cycle 1.
  { by destruct (moved_rows _ _ h1) as [h2 [e|mw]]; simplify_eq/=. }
  clear Hm.
  destruct (moved_rows_run data (default [] (moved diff)) h1)
    as (h2 & -> & Hlen2 & _).
  { intros m Hm. rewrite forallb_forall in Hall.
    apply list_elem_of_In, Hall in Hm. unfold has_source in Hm.
    by apply bool_decide_eq_true_1 in Hm. }
  rewrite bind_unfold, added_rows_run. unfold mret, ST_ret.
  intros [= <- <-]. split; [lia |].
  intros l (x & Hx & Hid)%list_elem_of_omap. unfold id in Hid. subst x.
  apply elem_of_write_slots in Hx as [Hx|(k & Hk)].
  - apply elem_of_write_slots in Hx as [Hx|(k & Hk)].
    + apply elem_of_write_slots in Hx as [Hx|(k & Hk)].
      * left. unfold null_slots in Hx.
        apply elem_of_write_slots in Hx as [Hx|(k & Hk)].
        -- apply elem_of_write_slots in Hx as [Hx|(k & Hk)]; [done |].
           by apply list_elem_of_fmap in Hk as (? & [=] & _).
        -- by apply list_elem_of_fmap in Hk as (? & [=] & _).
      * right; right. rewrite Hlen2. by eapply Hfresh.
    + left. apply list_elem_of_fmap in Hk as (m & [= _ Hsrc] & _).
      by eapply arr_get_elem_of.
  - right; left.
    apply list_elem_of_omap in Hk as (a & Ha & Hk).
    destruct (minus_one _); simplify_eq/=. done.
Qed.

Lemma applyDiff_appends_the_added_rows_witness :
  applyDiff (Some <$> [0; 1]%nat) (mkDiff None None None (Some [2%nat]))
    example_added_store
  = (example_added_store, inr [0; 1; 2]%nat).
Proof.
  apply (applyDiff_appends_the_added_rows [0; 1]%nat [2%nat]
           example_added_store).
  intros [|j] a Ha; simplify_eq/=. reflexivity.
Defined.

Lemma applyDiff_drops_an_added_row_without_index_witness :
  applyDiff (Some <$> [0; 1]%nat) (mkDiff None None None (Some [3%nat]))
    example_added_store
  = (example_added_store, inr [0; 1]%nat).
Proof.
  apply (applyDiff_drops_an_added_row_without_index [0; 1]%nat [3%nat]
           example_added_store).
  intros a Ha%list_elem_of_singleton. subst a. reflexivity.
Defined.

Lemma applyDiff_returns_known_rows_witness :
  length (applyDiff (Some <$> example_old) example_copy example_store).1
  = (length example_store + length (default [] (copied example_copy)))%nat
  ∧ ∀ l, l ∈ [0; 1; 4]%nat →
      Some l ∈ Some <$> example_old
      ∨ l ∈ default [] (added example_copy)
      ∨ (length example_store ≤ l
         < length (applyDiff (Some <$> example_old) example_copy
                     example_store).1)%nat.
Proof.
  apply (applyDiff_returns_known_rows (Some <$> example_old) example_copy
           example_store _ [0; 1; 4]%nat).
  reflexivity.
Defined.

End ApplyDiffFacts.

(* ===================================================================== *)
(** * Part VII.  More about flattenNotifications and getDiffFromSupplied *)
(* ===================================================================== *)

Module NotificationFacts.
Import Js Common CommonFacts ApplyDiffFacts.

(** ** flattenNotifications *)

Lemma pushItem_run payload key index out h :
  pushItem payload key index out h
  = match prop_lookup key (arrays payload) ≫= head with
    | Some row => (h, inr (out ++ [tagged payload key index row]))
    | None => (h, inl TypeError)
    end.
Proof.
  unfold pushItem. destruct (prop_lookup key (arrays payload)) as [rows|];
    [| done].
  simpl. by destruct (head rows).
Qed.

Lemma has_first_row_head payload key :
  has_first_row payload key = true
  ↔ is_Some (prop_lookup key (arrays payload) ≫= head).
Proof.
  unfold has_first_row.
  destruct (prop_lookup key (arrays payload)) as [[|row rows]|]; simpl.
  - split; [done | by intros [? ?]].
  - split; [eauto | done].
  - split; [done | by intros [? ?]].
Qed.

(** One turn of the loop of lines 371-379. *)
Lemma flatten_step payload index out h :
  (if decide (op payload = "UPDATE") then
     out ← pushItem payload "new_data" index out;
     pushItem payload "old_data" index out
   else pushItem payload "data" index out) h
  = match mapM (λ key, prop_lookup key (arrays payload) ≫= head)
               (image_keys payload) with
    | Some firsts =>
        (h, inr (out ++ zip_with (λ key row, tagged payload key index row)
                                 (image_keys payload) firsts))
    | None => (h, inl TypeError)
    end.
Proof.
  unfold image_keys. destruct (decide (op payload = "UPDATE")) as [Hop|Hop].
  - rewrite bind_unfold, !pushItem_run. cbn [mapM].
    destruct (prop_lookup "new_data" (arrays payload) ≫= head) as [r1|];
      [| done].
    rewrite pushItem_run.
    destruct (prop_lookup "old_data" (arrays payload) ≫= head) as [r2|];
      [| done].
    simpl. by rewrite <- app_assoc.
  - rewrite pushItem_run. cbn [mapM].
    by destruct (prop_lookup "data" (arrays payload) ≫= head) as [r1|].
Qed.

Lemma flattenable_firsts payload :
  flattenable payload = true
  ↔ is_Some (mapM (λ key, prop_lookup key (arrays payload) ≫= head)
                  (image_keys payload)).
Proof.
  unfold flattenable. rewrite mapM_is_Some, forallb_forall, Forall_forall.
  split; intros Hall key Hkey.
  - apply has_first_row_head, Hall. by apply list_elem_of_In.
  - apply has_first_row_head, Hall. by apply list_elem_of_In.
Qed.

Lemma flatten_loop notifications :
  ∀ k out h,
    forEach (λ '(index, payload) out,
      if decide (op payload = "UPDATE") then
        out ← pushItem payload "new_data" index out;
        pushItem payload "old_data" index out
      else
        pushItem payload "data" index out)
      (imap (λ i x, ((k + i)%nat, x)) notifications) out h
    = if forallb flattenable notifications
      then (h, inr (out ++ mjoin (imap (λ i payload,
              zip_with (λ key row, tagged payload key (k + i) row)
                (image_keys payload)
                (default [] (mapM (λ key,
                   prop_lookup key (arrays payload) ≫= head)
                   (image_keys payload)))) notifications)))
      else (h, inl TypeError).
Proof.
  induction notifications as [|payload notifications IH]; intros k out h.
  { simpl. by rewrite app_nil_r. }
  cbn [imap forEach forallb]. rewrite bind_unfold, flatten_step.
  pose proof (flattenable_firsts payload) as Hfl.
  destruct (mapM _ (image_keys payload)) as [firsts|]; cycle 1.
  { assert (flattenable payload = false) as ->; [| done].
    apply not_true_is_false. intros Ht. apply Hfl in Ht. by destruct Ht. }
  rewrite (proj2 Hfl) by eauto. simpl.
  rewrite (imap_ext _ (λ i x, ((S k + i)%nat, x))); cycle 1.
  { intros i x _. simpl. f_equal. lia. }
  rewrite IH. destruct (forallb flattenable notifications); [| done].
  rewrite <- app_assoc. do 2 f_equal. do 2 (apply (f_equal (app _))).
  f_equal. apply imap_ext. intros i x _. simpl.
  by replace (k + S i)%nat with (S (k + i)) by lia.
Qed.

Lemma flattened_length (t : nat → Payload → string → obj → obj)
    notifications :
  forallb flattenable notifications = true →
  length (mjoin (imap (λ i payload,
            zip_with (t i payload) (image_keys payload)
              (default [] (mapM (λ key,
                 prop_lookup key (arrays payload) ≫= head)
                 (image_keys payload)))) notifications))
  = sum_list ((λ p, length (image_keys p)) <$> notifications).
Proof.
  revert t. induction notifications as [|payload notifications IH];
    intros t Hall; [done |].
  cbn [imap mjoin list_join fmap list_fmap sum_list sum_list_with].
  cbn [forallb] in Hall. apply andb_true_iff in Hall as [Hp Hall].
  rewrite length_app. f_equal.
  - apply flattenable_firsts in Hp as [firsts Hf]. rewrite Hf. simpl.
    rewrite length_zip_with_l_eq; [done |]. by eapply length_mapM.
  - apply (IH (λ i, t (S i)) Hall).
Qed.

(** [flattenNotifications] returns when every payload has a first row
    under each key that is read ([new_data] and [old_data] for an UPDATE,
    [data] otherwise), and then yields two rows for each UPDATE payload
    and one for each other payload; when a payload lacks the array, or
    has an empty one, it throws a TypeError.  The store is as it was. *)
Theorem flattenNotifications_needs_first_rows notifications h :
  if forallb flattenable notifications
  then ∃ out, flattenNotifications notifications h = (h, inr out)
              ∧ length out
                = sum_list ((λ p, length (image_keys p)) <$> notifications)
  else flattenNotifications notifications h = (h, inl TypeError).
Proof.
  unfold flattenNotifications, enumerate.
  pose proof (flatten_loop notifications 0 [] h) as Hrun. simpl in Hrun.
  rewrite Hrun. clear Hrun.
  destruct (forallb flattenable notifications) eqn:Hall; [| done].
  eexists. split; [done |].
  by apply (flattened_length (λ i payload key row,
                                tagged payload key i row)).
Qed.

(** Every row [flattenNotifications] yields is the first row of an array
    of a payload, with [_op] set to the payload's [op], [_key] to the
    name of the array and [_index] to the 0-based position of the payload
    in the notifications (a column of one of these names is
    overwritten). *)
Theorem flattened_rows_are_tagged_first_rows notifications h h' out row :
  flattenNotifications notifications h = (h', inr out) →
  row ∈ out →
  ∃ index payload key first,
    notifications !! index = Some payload
    ∧ key ∈ image_keys payload
    ∧ prop_lookup key (arrays payload) ≫= head = Some first
    ∧ row = tagged payload key index first.
Proof.
  unfold flattenNotifications, enumerate.
  pose proof (flatten_loop notifications 0 [] h) as Hrun. simpl in Hrun.
  rewrite Hrun. clear Hrun.
  destruct (forallb flattenable notifications); [| done].
  intros [= <- <-] Hrow.
  apply list_elem_of_join in Hrow as (rows & Hrow & Hrows).
  apply elem_of_lookup_imap in Hrows as (index & payload & -> & Hp).
  exists index, payload.
  destruct (mapM _ (image_keys payload)) as [firsts|] eqn:Hf; simpl in Hrow;
    [| rewrite zip_with_nil_r in Hrow; by apply not_elem_of_nil in Hrow].
  apply elem_of_lookup_zip_with in Hrow as (i & key & first & -> & Hk & Hfi).
  exists key, first. split_and!; [done | by eapply list_elem_of_lookup_2 | | done].
  rewrite mapM_Some in Hf.
  by eapply Forall2_lookup_lr in Hf.
Qed.

(** ** getDiffFromSupplied *)

Section with_externals.
Context `{Externals}.

(** What the loop over the matched rows does to the store and to
    [newData]: the store is extended by the rows pushed for insertions,
    each marked [_added], and a row of [newData] after the loop is a row
    it held before or one of the pushed rows. *)
Lemma match_loop_effect parsed oldHashes matched :
  ∀ (newData : array) hasDelete h h1 newData' hasDelete',
  match_loop_from parsed oldHashes matched newData hasDelete h
  = (h1, inr (newData', hasDelete')) →
  ∃ pushed,
    h1 = h ++ pushed
    ∧ (∀ o, o ∈ pushed → get o "_added" = VNum 1)
    ∧ ∀ l, Some l ∈ newData' →
        Some l ∈ newData ∨ (length h ≤ l < length h1)%nat.
Proof.
  unfold match_loop_from.
  induction matched as [|r matched IH];
    intros newData hasDelete h h1 newData' hasDelete' Hrun.
  { injection Hrun as <- <- <-. exists []. rewrite app_nil_r.
    split_and!; [done | by intros o ?%not_elem_of_nil | by left]. }
  cbn [forEach] in Hrun. rewrite bind_unfold in Hrun.
  unfold match_step at 1 in Hrun. rewrite bind_unfold in Hrun.
  destruct (cleanRow_of parsed r) as [c|]; [| done].
  cbn [or_throw] in Hrun. unfold mret at 1, ST_ret at 1 in Hrun.
  set (step := match indexOf (get c "_hash") oldHashes with
               | Some i =>
                   if is_deletion r
                   then (arr_set newData (Z.of_nat i) None, true)
                   else (newData, hasDelete)
               | None => (newData, hasDelete)
               end) in Hrun.
  assert (∀ l, Some l ∈ step.1 → Some l ∈ newData) as Hstep.
  { unfold step. destruct (indexOf _ _); [| done].
    destruct (is_deletion r); [| done]. simpl.
    intros l [Hl|[Hl|Hl]]%elem_of_arr_set; done. }
  destruct step as [w b]. simpl in Hstep.
  destruct (is_insertion r).
  - rewrite bind_unfold in Hrun. unfold alloc at 1 in Hrun.
    unfold mret at 1, ST_ret at 1 in Hrun.
    apply IH in Hrun as (pushed & -> & Hadded & Hrows).
    eexists (_ :: pushed). rewrite <- app_assoc. split_and!; [done | |].
    + intros o [->|Ho]%elem_of_cons; [apply get_prop_set_eq | by apply Hadded].
    + intros l Hl. apply Hrows in Hl as [Hl|Hl].
      * apply elem_of_app in Hl as [Hl|Hl%list_elem_of_singleton].
        -- left. by apply Hstep.
        -- right. injection Hl as ->. rewrite !length_app. simpl. lia.
      * right. rewrite !length_app in *. simpl in *. lia.
  - unfold mret at 1, ST_ret at 1 in Hrun.
    apply IH in Hrun as (pushed & -> & Hadded & Hrows).
    exists pushed. split_and!; [done | done |].
    intros l Hl. apply Hrows in Hl as [Hl|Hl]; [left; by apply Hstep | by right].
Qed.

(** The loop of lines 269-272 always returns; it keeps the size of the
    store and changes nothing but [_index] properties. *)
Lemma fix_indexes_frame (newData : list loc) h :
  ∃ h', fix_indexes newData h = (h', inr ())
        ∧ length h' = length h
        ∧ frame (λ _ _, True) h h'.
Proof.
  unfold fix_indexes.
  assert (∀ index, index ∈ seq 0 (length newData) →
                   (index < length newData)%nat) as Hin.
  { intros index Hi%elem_of_seq. lia. }
  revert Hin h. generalize (seq 0 (length newData)).
  intros idxs. induction idxs as [|index idxs IH]; intros Hin h.
  { exists h. split_and!; [done | done | apply frame_refl]. }
  destruct (lookup_lt_is_Some_2 newData index) as [l Hl].
  { apply Hin. by left. }
  destruct (IH (λ i Hi, Hin i (list_elem_of_further _ _ _ Hi))
               (alter (prop_set "_index" (VNum (Z.of_nat index + 1))) l h))
    as (h' & Hrun & Hlen & Hfr).
  exists h'. split_and!.
  - cbn [forEach]. rewrite bind_unfold, Hl. cbn [assign].
    unfold set_prop at 1. exact Hrun.
  - by rewrite Hlen, length_alter.
  - eapply frame_trans; [| exact Hfr]. by apply frame_set_index.
Qed.

Lemma frame_same_but_index P h h' l o :
  frame P h h' → h !! l = Some o →
  ∃ o', h' !! l = Some o' ∧ same_but_index o o'.
Proof.
  intros Hfr Hl. destruct (Hfr l o Hl) as (o' & Hl' & [->|(v & _ & ->)]).
  - exists o. split; [done | apply same_but_index_refl].
  - eexists. split; [done | apply same_but_index_set].
Qed.

(** The ways [getDiffFromSupplied] returns: no candidate row matches; or
    the loop over the matched rows runs and then either the call is the
    full re-query, or the rows left are sorted, cut to the limit and
    renumbered, and the differ is asked. *)
Lemma getDiffFromSupplied_returns
    currentData notifications query parsed params h h' result :
  getDiffFromSupplied currentData notifications query parsed params h
  = (h', inr result) →
  ∃ allRows,
    flattenNotifications notifications h = (h, inr allRows)
    ∧ ((matchRows allRows parsed params = [] ∧ h' = h ∧ result = None)
       ∨ ∃ h1 newData hasDelete,
           matchRows allRows parsed params ≠ []
           ∧ match_loop_from parsed (hashes_in h currentData)
               (matchRows allRows parsed params) (Some <$> currentData)
               false h
             = (h1, inr (newData, hasDelete))
           ∧ if refuses hasDelete parsed currentData then
               getResultSetDiff currentData query params h1
               = (h', inr result)
             else
               ∃ rows,
                 rows ≡ₚ compact newData
                 ∧ (order parsed = None → rows = compact newData)
                 ∧ let data := match limit parsed with
                               | Some value => slice0 rows value
                               | None => rows
                               end in
                   fix_indexes data h1 = (h', inr ())
                   ∧ result
                     = (λ diff, (diff, data))
                         <$> differ (hashes_in h currentData)
                               (zip (hashes_in h' data) data)).
Proof.
  unfold getDiffFromSupplied. rewrite bind_unfold.
  pose proof (flattenNotifications_state_unchanged notifications h) as Hst.
  destruct (flattenNotifications notifications h) as [h0 [e|allRows]];
    simpl in Hst; [done |]. subst h0.
  intros Hrun. exists allRows. split; [done |].
  destruct (decide _) as [Hlen|Hlen].
  { left. apply length_zero_iff_nil in Hlen. by injection Hrun as <- <-. }
  right. rewrite bind_unfold, hashes_run, bind_unfold in Hrun.
  change (match_loop parsed (hashes_in h currentData)
            (matchRows allRows parsed params) (Some <$> currentData))
    with (match_loop_from parsed (hashes_in h currentData)
            (matchRows allRows parsed params) (Some <$> currentData) false)
    in Hrun.
  destruct (match_loop_from _ _ _ _ _ h)
    as [h1 [e|[newData hasDelete]]] eqn:Hloop; [done |].
  exists h1, newData, hasDelete. split_and!; [| done |].
  { intros Hnil. by rewrite Hnil in Hlen. }
  destruct (refuses hasDelete parsed currentData); [done |].
  rewrite bind_unfold in Hrun.
  set (sorted := match order parsed with
                 | Some orderings => _
                 | None => _
                 end) in Hrun.
  assert (∃ rows, sorted h1 = (h1, inr rows)
                  ∧ rows ≡ₚ compact newData
                  ∧ (order parsed = None → rows = compact newData))
    as (rows & Hsorted & Hperm & Hnone).
  { unfold sorted. destruct (order parsed) as [orderings|].
    - rewrite bind_unfold. unfold current_heap at 1.
      eexists. split_and!; [done | apply sort_stable_perm | done].
    - by eexists. }
  rewrite Hsorted in Hrun. exists rows.
  split; [done |]. split; [done |].
  cbv zeta. cbv zeta in Hrun.
  set (data := match limit parsed with
               | Some value => slice0 rows value
               | None => rows
               end) in *.
  rewrite bind_unfold in Hrun.
  destruct (fix_indexes_frame data h1) as (h2 & Hfix & _ & _).
  rewrite Hfix, bind_unfold, collectionDiff_run in Hrun.
  destruct (differ _ _) as [diff|] eqn:Hdiff;
    injection Hrun as <- <-; by rewrite Hdiff.
Qed.

(** When no candidate row matches the query, in particular when there is
    no notification, [getDiffFromSupplied] returns [null] and the store
    is as it was: nothing is renumbered and the database is not asked. *)
Theorem nothing_matched_gives_null
    currentData notifications query parsed params h allRows :
  (flattenNotifications notifications h).2 = inr allRows →
  matchRows allRows parsed params = [] →
  getDiffFromSupplied currentData notifications query parsed params h
  = (h, inr None).
Proof.
  intros Hflat Hnone. unfold getDiffFromSupplied. rewrite bind_unfold.
  pose proof (flattenNotifications_state_unchanged notifications h) as Hst.
  destruct (flattenNotifications notifications h) as [h0 [e|rows]];
    simpl in Hflat, Hst; [done |].
  injection Hflat as ->. subst h0. by rewrite Hnone.
Qed.

(** The data of the incremental path respect the LIMIT: when the call
    returns data and is not the full re-query, the data have at most
    [LIMIT] rows. *)
Theorem returned_data_respect_the_limit
    currentData notifications query parsed params h h' diff data value :
  getDiffFromSupplied currentData notifications query parsed params h
  = (h', inr (Some (diff, data))) →
  limit parsed = Some value → (0 ≤ value)%Z →
  (Z.of_nat (length data) ≤ value)%Z
  ∨ ∃ h1, getResultSetDiff currentData query params h1
          = (h', inr (Some (diff, data))).
Proof.
  intros Hrun Hlimit Hpos.
  apply getDiffFromSupplied_returns in Hrun
    as (allRows & _ & [(_ & _ & [=])|(h1 & nd & hd & _ & _ & Hrest)]).
  destruct (refuses hd parsed currentData); [right; eauto |].
  left. destruct Hrest as (rows & _ & _ & _ & Hres). rewrite Hlimit in Hres.
  destruct (differ _ _); [| done]. injection Hres as _ ->.
  unfold slice0. rewrite decide_False by lia. rewrite length_take. lia.
Qed.

(** The rows of the incremental path: when the call returns data and is
    not the full re-query, every row of the data is a row of the current
    data or a row the call made for an insertion, a new object of the
    store marked [_added]. *)
Theorem returned_rows_are_current_or_added
    currentData notifications query parsed params h h' diff data :
  getDiffFromSupplied currentData notifications query parsed params h
  = (h', inr (Some (diff, data))) →
  (∀ l, l ∈ data →
     l ∈ currentData
     ∨ ((length h ≤ l < length h')%nat
        ∧ get (deref h' l) "_added" = VNum 1))
  ∨ ∃ h1, getResultSetDiff currentData query params h1
          = (h', inr (Some (diff, data))).
Proof.
  intros Hrun.
  apply getDiffFromSupplied_returns in Hrun
    as (allRows & _ & [(_ & _ & [=])|(h1 & nd & hd & _ & Hloop & Hrest)]).
  destruct (refuses hd parsed currentData); [right; eauto |].
  left. destruct Hrest as (rows & Hperm & _ & Hfix & Hres).
  apply match_loop_effect in Hloop as (pushed & -> & Hadded & Hrows).
  destruct (differ _ _); [| done]. injection Hres as _ Hdata.
  destruct (fix_indexes_frame
              (match limit parsed with
               | Some value => slice0 rows value
               | None => rows
               end) (h ++ pushed)) as (h2 & Hfix' & Hlen & Hfr).
  rewrite Hfix in Hfix'. injection Hfix' as <-.
  intros l Hl.
  assert (l ∈ rows) as Hl'.
  { rewrite Hdata in Hl. destruct (limit parsed); [| done].
    eapply elem_of_sublist; [done | apply slice0_sublist]. }
  rewrite Hperm in Hl'. unfold compact in Hl'.
  apply list_elem_of_omap in Hl' as (x & Hx & Hid). unfold id in Hid.
  subst x. apply Hrows in Hx as [Hx|Hx].
  - left. apply list_elem_of_fmap in Hx as (l' & [= ->] & Hl'). done.
  - right. split; [lia |].
    destruct (lookup_lt_is_Some_2 (h ++ pushed) l) as [o Ho]; [lia |].
    destruct (frame_same_but_index _ _ _ _ _ Hfr Ho) as (o' & Ho' & Hsame).
    unfold deref. rewrite Ho'. simpl. rewrite Hsame by done.
    apply Hadded. rewrite lookup_app_r in Ho by lia.
    by eapply list_elem_of_lookup_2.
Qed.

(** What the incremental path does to the objects of the store: when the
    call returns (data or [null]) and is not the full re-query, every
    object that was in the store is still there with the same
    properties, [_index] apart: the rows of the caller's current data are
    renumbered in place and otherwise left alone. *)
Theorem incremental_path_changes_only_indexes
    currentData notifications query parsed params h h' result :
  getDiffFromSupplied currentData notifications query parsed params h
  = (h', inr result) →
  (∀ l o, h !! l = Some o →
     ∃ o', h' !! l = Some o' ∧ same_but_index o o')
  ∨ ∃ h1, getResultSetDiff currentData query params h1 = (h', inr result).
Proof.
  intros Hrun.
  apply getDiffFromSupplied_returns in Hrun
    as (allRows & _ & [(_ & -> & _)|(h1 & nd & hd & _ & Hloop & Hrest)]).
  { left. intros l o Hl. exists o. split; [done | apply same_but_index_refl]. }
  destruct (refuses hd parsed currentData); [right; eauto |].
  left. destruct Hrest as (rows & _ & _ & Hfix & _).
  apply match_loop_effect in Hloop as (pushed & -> & _ & _).
  destruct (fix_indexes_frame
              (match limit parsed with
               | Some value => slice0 rows value
               | None => rows
               end) (h ++ pushed)) as (h2 & Hfix' & Hlen & Hfr).
  rewrite Hfix in Hfix'. injection Hfix' as <-.
  intros l o Hl. eapply frame_same_but_index; [exact Hfr |].
  by apply lookup_app_l_Some.
Qed.

(** ** The cleaned row and its hash *)

Lemma get_prop_delete k c (o : obj) :
  get (prop_delete k o) c = if decide (c = k) then VUndefined else get o c.
Proof.
  unfold get. destruct (decide (c = k)) as [->|Hck].
  - induction o as [|[k' v'] o IH]; simpl; [done |].
    destruct (decide (k = k')) as [<-|Hne]; [done |].
    simpl. by rewrite decide_False.
  - induction o as [|[k' v'] o IH]; simpl; [done |].
    destruct (decide (k = k')) as [<-|Hne].
    + by rewrite decide_False.
    + simpl. by destruct (decide (c = k')).
Qed.

Lemma keys_prop_set {V} k (v : V) (o : props V) c :
  c ∈ keys (prop_set k v o) → c = k ∨ c ∈ keys o.
Proof.
  unfold keys. induction o as [|[k' v'] o IH]; simpl.
  - intros ->%list_elem_of_singleton. by left.
  - destruct (decide (k = k')) as [<-|Hne]; simpl.
    + intros [->|Hc]%elem_of_cons; [by left | right; by right].
    + intros [->|Hc]%elem_of_cons; [right; by left |].
      apply IH in Hc as [->|Hc]; [by left | right; by right].
Qed.

Lemma keys_columnsSelected fs :
  ∀ acc cs, columnsSelected_of fs acc = Some cs →
  ∀ c, c ∈ keys cs → c ∈ keys acc ∨ c ∈ selected_columns fs.
Proof.
  induction fs as [|[|column name] fs IH]; intros acc cs Hcs c Hc;
    simpl in Hcs.
  - injection Hcs as <-. by left.
  - done.
  - apply (IH _ _ Hcs) in Hc as [Hc|Hc].
    + apply keys_prop_set in Hc as [->|Hc]; [| by left].
      right. unfold selected_columns. simpl. by left.
    + right. unfold selected_columns. simpl. by right.
Qed.

Lemma foldl_ext_in {A B} (f g : A → B → A) (l : list B) a :
  (∀ a x, x ∈ l → f a x = g a x) → foldl f a l = foldl g a l.
Proof.
  revert a. induction l as [|x l IH]; intros a Hfg; [done |].
  simpl. rewrite Hfg by left. apply IH. intros a' x' Hx'. apply Hfg.
  by right.
Qed.

(** With a select-list that is not the lone [*], the cleaned row and its
    hash depend on the selected columns only: two candidate rows that
    agree on the selected columns (the names [_op], [_key] and [_index]
    apart, which are stripped) are cleaned to the same row, whatever
    their other columns and their tags. *)
Theorem cleaned_row_depends_on_selected_columns parsed row1 row2 :
  is_lone_star (fields parsed) = false →
  (∀ column, column ∈ selected_columns (fields parsed) →
             column ∉ tag_names → get row1 column = get row2 column) →
  cleanRow_of parsed row1 = cleanRow_of parsed row2.
Proof.
  intros Hstar Hagree. unfold cleanRow_of. rewrite Hstar. cbv zeta.
  unfold reform.
  destruct (columnsSelected_of (fields parsed) []) as [cs|] eqn:Hcs;
    [| done].
  set (c1 := prop_delete "_index" (prop_delete "_key"
               (prop_delete "_op" row1))).
  set (c2 := prop_delete "_index" (prop_delete "_key"
               (prop_delete "_op" row2))).
  assert (∀ column, column ∈ keys cs → get c1 column = get c2 column)
    as Hget.
  { intros column Hcolumn. unfold c1, c2. rewrite !get_prop_delete.
    destruct (decide (column = "_index")) as [->|Hi]; [done |].
    destruct (decide (column = "_key")) as [->|Hk]; [done |].
    destruct (decide (column = "_op")) as [->|Ho]; [done |].
    apply Hagree.
    - apply (keys_columnsSelected _ _ _ Hcs) in Hcolumn as [Hc|Hc];
        [by apply not_elem_of_nil in Hc | done].
    - unfold tag_names. rewrite !elem_of_cons, elem_of_nil. tauto. }
  assert (foldl (λ (reformedRow : obj) column,
                   prop_set (default "" (prop_lookup column cs))
                            (get c1 column) reformedRow) [] (keys cs)
          = foldl (λ (reformedRow : obj) column,
                     prop_set (default "" (prop_lookup column cs))
                              (get c2 column) reformedRow) [] (keys cs))
    as Heq.
  { apply foldl_ext_in. intros reformedRow column Hcolumn.
    by rewrite Hget. }
  cbn [mbind option_bind]. by rewrite Heq.
Qed.

(** A notification without rows stops the whole call.  When one payload
    lacks the first row under a key that is read (an UPDATE without
    [old_data], say, or an empty [data] array), [getDiffFromSupplied]
    throws a TypeError before it looks at the query or at the current
    data, whatever the other payloads hold; the store is as it was. *)
Theorem a_payload_without_rows_makes_the_diff_throw
    currentData notifications query parsed params h :
  forallb flattenable notifications = false →
  getDiffFromSupplied currentData notifications query parsed params h
  = (h, inl TypeError).
Proof.
  intros Hall. unfold getDiffFromSupplied. rewrite bind_unfold.
  unfold flattenNotifications, enumerate.
  pose proof (flatten_loop notifications 0 [] h) as Hrun. simpl in Hrun.
  by rewrite Hrun, Hall.
Qed.

(** ** The rows of the incremental path *)

Lemma match_loop_first_cleaned parsed oldHashes r matched newData hd h
    h1 result :
  match_loop_from parsed oldHashes (r :: matched) newData hd h
  = (h1, inr result) →
  is_Some (cleanRow_of parsed r).
Proof.
  unfold match_loop_from. cbn [forEach]. rewrite bind_unfold.
  unfold match_step at 1. rewrite bind_unfold.
  by destruct (cleanRow_of parsed r).
Qed.

Lemma length_arr_set_in (w : array) (i : nat) v :
  (i < length w)%nat → length (arr_set w (Z.of_nat i) v) = length w.
Proof.
  intros Hi. unfold arr_set. rewrite decide_False by lia.
  rewrite Nat2Z.id, decide_True by done. apply length_insert.
Qed.

Lemma arr_set_app_l (w p : array) (i : nat) v :
  (i < length w)%nat →
  arr_set (w ++ p) (Z.of_nat i) v = arr_set w (Z.of_nat i) v ++ p.
Proof.
  intros Hi. unfold arr_set. cbv zeta.
  destruct (decide (Z.of_nat i < 0)%Z); [lia |]. rewrite Nat2Z.id.
  destruct (decide (i < length (w ++ p))%nat) as [|Hn];
    [| rewrite length_app in Hn; lia].
  destruct (decide (i < length w)%nat); [| lia].
  by apply insert_app_l.
Qed.

Lemma null_slots_cons position ps (w : array) :
  null_slots (position :: ps) w
  = null_slots ps (arr_set w (position - 1) None).
Proof. done. Qed.

Lemma indexOf_lt x l i : indexOf x l = Some i → (i < length l)%nat.
Proof. intros [Hl _]%indexOf_Some. by eapply lookup_lt_Some. Qed.

(** The loop over the matched rows, in full: the slots of the current
    rows that deletions hit are emptied, and one new row is pushed for
    each insertion. *)
Lemma match_loop_shape parsed oldHashes matched :
  (∀ r, r ∈ matched → is_Some (cleanRow_of parsed r)) →
  ∀ (w p : array) hd h, length w = length oldHashes →
  ∃ pushed hd',
    length pushed = length (filter (λ r, is_insertion r = true) matched)
    ∧ match_loop_from parsed oldHashes matched (w ++ p) hd h
      = (h ++ pushed,
         inr (null_slots (deleted_positions parsed oldHashes matched) w
              ++ p ++ (Some <$> seq (length h) (length pushed)), hd')).
Proof.
  unfold match_loop_from.
  induction matched as [|r matched IH]; intros Hok w p hd h Hw.
  { exists [], hd. simpl. by rewrite !app_nil_r. }
  assert (∀ r', r' ∈ matched → is_Some (cleanRow_of parsed r')) as Hok'.
  { intros. apply Hok. by right. }
  destruct (Hok r) as [c Hc]; [by left |].
  cbn [forEach]. rewrite bind_unfold. unfold match_step at 1.
  rewrite bind_unfold, Hc. cbn [or_throw]. unfold mret at 1, ST_ret at 1.
  unfold deleted_positions. cbn [omap list_omap]. rewrite Hc.
  cbn [mbind option_bind]. fold (deleted_positions parsed oldHashes matched).
  set (step := match indexOf (get c "_hash") oldHashes with
               | Some i =>
                   if is_deletion r
                   then (arr_set (w ++ p) (Z.of_nat i) None, true)
                   else (w ++ p, hd)
               | None => (w ++ p, hd)
               end).
  assert (∃ w1 hd1,
    step = (w1 ++ p, hd1) ∧ length w1 = length oldHashes
    ∧ null_slots
        (match (if is_deletion r
                then indexOf (get c "_hash") oldHashes
                     ≫= λ i, Some (Z.of_nat i + 1)%Z
                else None) with
         | Some position => position :: deleted_positions parsed oldHashes
                                          matched
         | None => deleted_positions parsed oldHashes matched
         end) w
      = null_slots (deleted_positions parsed oldHashes matched) w1)
    as (w1 & hd1 & Hstep & Hw1 & Hnull).
  { unfold step. destruct (indexOf (get c "_hash") oldHashes) as [i|] eqn:Hi.
    - destruct (is_deletion r).
      + apply indexOf_lt in Hi.
        exists (arr_set w (Z.of_nat i) None), true.
        rewrite arr_set_app_l, length_arr_set_in by lia.
        split_and!; [done | done |]. simpl. rewrite null_slots_cons.
        do 2 f_equal. lia.
      + by exists w, hd.
    - exists w, hd. by destruct (is_deletion r). }
  rewrite filter_cons.
  destruct (is_insertion r) eqn:Hins.
  - destruct (IH Hok' w1 (p ++ [Some (length h)]) hd1
                (h ++ [prop_set "_added" (VNum 1) c]) Hw1)
      as (pushed & hd' & Hlen & Hrun).
    eexists (_ :: pushed), hd'. rewrite decide_True by done.
    split; [simpl; by rewrite Hlen |].
    rewrite Hnull. fold step. rewrite Hstep.
    rewrite bind_unfold. unfold alloc at 1. unfold mret at 1, ST_ret at 1.
    rewrite <- app_assoc, Hrun.
    rewrite <- !app_assoc. simpl. rewrite length_app. simpl.
    by replace (length h + 1)%nat with (S (length h)) by lia.
  - destruct (IH Hok' w1 p hd1 h Hw1) as (pushed & hd' & Hlen & Hrun).
    exists pushed, hd'. rewrite decide_False by done.
    split; [done |].
    rewrite Hnull. fold step. rewrite Hstep.
    unfold mret at 1, ST_ret at 1. exact Hrun.
Qed.

(** The rows of the incremental path.  When the call returns data and
    is not the full re-query, the data are made of: the current rows
    minus those at the positions the deletions hit (for each matched
    DELETE, or [old_data] image of an UPDATE, whose hash is among the
    current hashes, the first position of that hash), followed by one
    new row for each matched insertion (an INSERT, or the [new_data]
    image of an UPDATE), in the order of the notifications.  ORDER BY
    permutes these rows and loses none; without ORDER BY they stay in
    this order, so that an updated row moves to the end; LIMIT cuts the
    end off.  Two deletions of rows with the same hash remove one row.
    The new rows are the only objects added to the store. *)
Theorem incremental_data_are_the_kept_and_inserted_rows
    currentData notifications query parsed params h h' diff data allRows :
  (flattenNotifications notifications h).2 = inr allRows →
  getDiffFromSupplied currentData notifications query parsed params h
  = (h', inr (Some (diff, data))) →
  let matched := matchRows allRows parsed params in
  let kept :=
    without_positions
      (deleted_positions parsed (hashes_in h currentData) matched)
      currentData in
  let inserted := filter (λ r, is_insertion r = true) matched in
  let all := kept ++ seq (length h) (length inserted) in
  (∃ rows,
     rows ≡ₚ all
     ∧ (order parsed = None → rows = all)
     ∧ data = match limit parsed with
              | Some value => slice0 rows value
              | None => rows
              end
     ∧ length h' = (length h + length inserted)%nat)
  ∨ ∃ h1, getResultSetDiff currentData query params h1
          = (h', inr (Some (diff, data))).
Proof.
  intros Hflat Hrun. cbv zeta.
  apply getDiffFromSupplied_returns in Hrun
    as (allRows' & Hflat' & [(_ & _ & [=])|(h1 & nd & hd & Hne & Hloop & Hrest)]).
  rewrite Hflat' in Hflat. injection Hflat as ->.
  destruct (refuses hd parsed currentData); [right; eauto |]. left.
  destruct (matchRows allRows parsed params) as [|r matched] eqn:Hmatched;
    [done |].
  destruct (match_loop_shape parsed (hashes_in h currentData) (r :: matched))
    with (w := Some <$> currentData) (p := @nil (option loc)) (hd := false)
         (h := h)
    as (pushed & hd' & Hlen & Hloop').
  { intros r' _. eapply cleanRow_of_is_Some.
    by eapply match_loop_first_cleaned. }
  { unfold hashes_in. by rewrite !length_fmap. }
  rewrite app_nil_r in Hloop'. rewrite Hloop in Hloop'.
  remember (deleted_positions parsed (hashes_in h currentData)
              (r :: matched)) as ps eqn:Hps.
  remember (filter (λ r, is_insertion r = true) (r :: matched))
    as inserted eqn:Hins.
  injection Hloop' as -> -> ->.
  destruct Hrest as (rows & Hperm & Hrows & Hfix & Hres).
  assert (compact
            (null_slots ps (Some <$> currentData)
             ++ (Some <$> seq (length h) (length pushed)))
          = without_positions ps currentData
            ++ seq (length h) (length inserted)) as Hall.
  { unfold compact. rewrite omap_app.
    fold (compact (null_slots ps (Some <$> currentData))).
    fold (compact (Some <$> seq (length h) (length pushed))).
    by rewrite compact_null_slots, compact_Some, Hlen. }
  rewrite Hall in Hperm, Hrows.
  exists rows. split_and!; [done | done | |].
  - destruct (differ _ _); [| done]. by injection Hres as _ ->.
  - destruct (fix_indexes_frame
                (match limit parsed with
                 | Some value => slice0 rows value
                 | None => rows
                 end) (h ++ pushed)) as (h2 & Hfix' & Hlen2 & _).
    rewrite Hfix in Hfix'. injection Hfix' as <-.
    by rewrite Hlen2, length_app, Hlen.
Qed.

End with_externals.

Lemma flattened_rows_are_tagged_first_rows_witness :
  ∃ index payload key first,
    [example_insert; example_update] !! index = Some payload
    ∧ key ∈ image_keys payload
    ∧ prop_lookup key (arrays payload) ≫= head = Some first
    ∧ [("name", VStr "x"); ("_op", VStr "UPDATE");
       ("_key", VStr "new_data"); ("_index", VNum 1)]
      = tagged payload key index first.
Proof.
  apply (flattened_rows_are_tagged_first_rows
           [example_insert; example_update] [] []
           [[("name", VStr "d"); ("_op", VStr "INSERT");
             ("_key", VStr "data"); ("_index", VNum 0)];
            [("name", VStr "x"); ("_op", VStr "UPDATE");
             ("_key", VStr "new_data"); ("_index", VNum 1)];
            [("name", VStr "a"); ("_op", VStr "UPDATE");
             ("_key", VStr "old_data"); ("_index", VNum 1)]]).
  - reflexivity.
  - apply list_elem_of_further, list_elem_of_here.
Defined.

Lemma a_payload_without_rows_makes_the_diff_throw_witness :
  @getDiffFromSupplied (example_externals example_new) example_old
    [example_insert;
     mkPayload "UPDATE" [("new_data", [[("name", VStr "x")]])]]
    "SELECT * FROM t" (example_plain example_new) [] example_store
  = (example_store, inl TypeError).
Proof.
  apply (@a_payload_without_rows_makes_the_diff_throw
           (example_externals example_new) example_old
           [example_insert;
            mkPayload "UPDATE" [("new_data", [[("name", VStr "x")]])]]
           "SELECT * FROM t" (example_plain example_new) [] example_store).
  reflexivity.
Defined.

Lemma nothing_matched_gives_null_witness :
  @getDiffFromSupplied (example_externals example_new) example_old []
    "SELECT * FROM t ORDER BY name ASC LIMIT 2"
    (example_parsed example_new 2) [] example_store
  = (example_store, inr None).
Proof.
  apply (@nothing_matched_gives_null (example_externals example_new)
           example_old [] "SELECT * FROM t ORDER BY name ASC LIMIT 2"
           (example_parsed example_new 2) [] example_store []).
  - reflexivity.
  - reflexivity.
Defined.

Lemma returned_data_respect_the_limit_witness :
  (Z.of_nat (length [4; 0]%nat) ≤ 2)%Z
  ∨ ∃ h1,
      @getResultSetDiff (example_externals example_new) example_old
        "SELECT * FROM t ORDER BY name ASC LIMIT 2" [] h1
      = ((@getDiffFromSupplied (example_externals example_new) example_old
            [example_insert_first]
            "SELECT * FROM t ORDER BY name ASC LIMIT 2"
            (example_parsed example_new 2) [] example_store).1,
         inr (Some (mkDiff (Some [Removed.mk 2]) (Some [Moved.mk 1 2])
                      (Some []) (Some [4%nat]), [4; 0]%nat))).
Proof.
  apply (@returned_data_respect_the_limit (example_externals example_new)
           example_old [example_insert_first]
           "SELECT * FROM t ORDER BY name ASC LIMIT 2"
           (example_parsed example_new 2) [] example_store).
  - reflexivity.
  - reflexivity.
  - lia.
Defined.

Lemma returned_rows_are_current_or_added_witness :
  (∀ l, l ∈ [0; 1; 4]%nat →
     l ∈ example_old
     ∨ ((length example_store ≤ l
         < length (@getDiffFromSupplied (example_externals example_new)
                     example_old [example_insert] "SELECT * FROM t"
                     (example_plain example_new) [] example_store).1)%nat
        ∧ get (deref (@getDiffFromSupplied (example_externals example_new)
                        example_old [example_insert] "SELECT * FROM t"
                        (example_plain example_new) [] example_store).1 l)
            "_added" = VNum 1))
  ∨ ∃ h1,
      @getResultSetDiff (example_externals example_new) example_old
        "SELECT * FROM t" [] h1
      = ((@getDiffFromSupplied (example_externals example_new) example_old
            [example_insert] "SELECT * FROM t"
            (example_plain example_new) [] example_store).1,
         inr (Some (mkDiff (Some []) (Some []) (Some []) (Some [4%nat]),
                    [0; 1; 4]%nat))).
Proof.
  apply (@returned_rows_are_current_or_added
           (example_externals example_new) example_old [example_insert]
           "SELECT * FROM t" (example_plain example_new) [] example_store).
  reflexivity.
Defined.

Lemma incremental_path_changes_only_indexes_witness :
  (∀ l o, example_store !! l = Some o →
     ∃ o', (@getDiffFromSupplied (example_externals example_new)
              example_old [example_insert_first]
              "SELECT * FROM t ORDER BY name ASC LIMIT 2"
              (example_parsed example_new 2) [] example_store).1 !! l
           = Some o'
           ∧ same_but_index o o')
  ∨ ∃ h1,
      @getResultSetDiff (example_externals example_new) example_old
        "SELECT * FROM t ORDER BY name ASC LIMIT 2" [] h1
      = ((@getDiffFromSupplied (example_externals example_new) example_old
            [example_insert_first]
            "SELECT * FROM t ORDER BY name ASC LIMIT 2"
            (example_parsed example_new 2) [] example_store).1,
         inr (Some (mkDiff (Some [Removed.mk 2]) (Some [Moved.mk 1 2])
                      (Some []) (Some [4%nat]), [4; 0]%nat))).
Proof.
  apply (@incremental_path_changes_only_indexes
           (example_externals example_new) example_old
           [example_insert_first]
           "SELECT * FROM t ORDER BY name ASC LIMIT 2"
           (example_parsed example_new 2) [] example_store).
  reflexivity.
Defined.

Lemma cleaned_row_depends_on_selected_columns_witness :
  @cleanRow_of (example_externals []) (example_named [])
    [("name", VStr "a"); ("age", VNum 3); ("city", VStr "x");
     ("_op", VStr "INSERT")]
  = @cleanRow_of (example_externals []) (example_named [])
      [("city", VStr "y"); ("age", VNum 3); ("name", VStr "a");
       ("_index", VNum 4)].
Proof.
  apply (@cleaned_row_depends_on_selected_columns (example_externals [])
           (example_named [])).
  - reflexivity.
  - intros column Hcolumn _.
    apply elem_of_cons in Hcolumn as [->|Hcolumn]; [reflexivity |].
    apply list_elem_of_singleton in Hcolumn as ->. reflexivity.
Defined.

Lemma incremental_data_are_the_kept_and_inserted_rows_witness :
  (∃ rows,
     rows
     ≡ₚ without_positions
          (@deleted_positions (example_externals example_new)
             (example_plain example_new)
             (hashes_in example_store example_old)
             [tagged example_update "new_data" 0 [("name", VStr "x")];
              tagged example_update "old_data" 0 [("name", VStr "a")]])
          example_old
        ++ seq (length example_store) 1
     ∧ [1; 4]%nat = rows)
  ∨ ∃ h1,
      @getResultSetDiff (example_externals example_new) example_old
        "SELECT * FROM t" [] h1
      = ((@getDiffFromSupplied (example_externals example_new) example_old
            [example_update] "SELECT * FROM t"
            (example_plain example_new) [] example_store).1,
         inr (Some (mkDiff (Some [Removed.mk 1]) (Some [Moved.mk 2 1])
                      (Some []) (Some [4%nat]), [1; 4]%nat))).
Proof.
  pose proof (@incremental_data_are_the_kept_and_inserted_rows
                (example_externals example_new) example_old
                [example_update] "SELECT * FROM t"
                (example_plain example_new) [] example_store _
                (mkDiff (Some [Removed.mk 1]) (Some [Moved.mk 2 1])
                   (Some []) (Some [4%nat]))
                [1; 4]%nat
                [tagged example_update "new_data" 0 [("name", VStr "x")];
                 tagged example_update "old_data" 0 [("name", VStr "a")]]
                eq_refl eq_refl) as Hthm.
  cbv zeta in Hthm.
  destruct Hthm as [(rows & Hperm & _ & Hdata & _)|Hrequery];
    [left | by right].
  exists rows. split; [exact Hperm | exact Hdata].
Defined.

End NotificationFacts.

(* ===================================================================== *)
(** * Part VIII.  The registry of lib/LiveMysql.js                       *)
(* ===================================================================== *)

Module RegistryFacts.
Import Js LiveMysql LiveMysqlFacts.

(** ** indexOf and splice on lists of references *)

Lemma indexOf_None x l : indexOf x l = None ↔ x ∉ l.
Proof.
  induction l as [|y l IH]; simpl.
  - split; [intros _; apply not_elem_of_nil | done].
  - destruct (decide (x = y)) as [->|Hne].
    + split; [done | intros Hn; destruct Hn; by left].
    + rewrite fmap_None, IH. rewrite not_elem_of_cons. tauto.
Qed.

Lemma indexOf_lookup x l i : indexOf x l = Some i → l !! i = Some x.
Proof.
  revert i. induction l as [|y l IH]; intros i; simpl; [done |].
  destruct (decide (x = y)) as [->|Hne].
  - by intros [= <-].
  - intros (j & Hj & ->)%fmap_Some. simpl. by apply IH.
Qed.

Lemma indexOf_fresh x l : x ∉ l → indexOf x (l ++ [x]) = Some (length l).
Proof.
  induction l as [|y l IH]; simpl; intros Hx.
  - by rewrite decide_True.
  - apply not_elem_of_cons in Hx as [Hne Hx].
    rewrite decide_False by done. by rewrite IH.
Qed.

Lemma delete_fresh {A} (l : list A) x : delete (length l) (l ++ [x]) = l.
Proof. induction l as [|y l IH]; [done |]. simpl. by rewrite IH. Qed.

Lemma elem_of_delete_NoDup (l : list nat) i x y :
  NoDup l → l !! i = Some x → y ∈ delete i l ↔ y ∈ l ∧ y ≠ x.
Proof.
  revert i. induction l as [|z l IH]; intros i Hnd Hi; [done |].
  apply NoDup_cons in Hnd as [Hz Hnd]. destruct i as [|i]; simpl in *.
  - injection Hi as ->. rewrite elem_of_cons. split.
    + intros Hy. split; [by right | by intros ->].
    + by intros [[->|Hy] Hne].
  - rewrite !elem_of_cons, (IH i Hnd Hi). split.
    + intros [->|[Hy Hne]]; [| tauto]. split; [by left |].
      intros ->. apply Hz. by eapply list_elem_of_lookup_2.
    + intros [[->|Hy] Hne]; [by left | by right].
Qed.

(** ** The steps of select and _removeSelect on the registry *)

Section with_externals.
Context `{Externals}.

Lemma select_rest_cases query_text values name ts minInterval e :
  let r := select_rest query_text values name ts minInterval e in
  r = (e, inl TypeError)
  ∨ ∃ s, r.2 = inr s
         ∧ _schemaCache r.1 = _schemaCache e
         ∧ subscribed e r.1 (identity_key query_text values name) ts s.
Proof.
  cbn zeta. unfold subscribed.
  unfold select_rest, default_minInterval, new_QueryCache,
    new_LiveMysqlSelect, set_selectObjs, set_cacheObjs, set_select,
    set_queryCache, this.
  fold (identity_values values).
  fold (identity_key query_text values name).
  unfold_st. cbv beta zeta.
  destruct (_queryCache e !! identity_key query_text values name)
    as [found|] eqn:Hkey; simpl.
  { right. eexists. split_and!; try done. by exists found. }
  destruct (decide (minInterval = Undefined)) as [->|Hm];
    [destruct (slaveSettings e) as [o|] eqn:Hss;
       [destruct (get o "minInterval") |] |]; simpl.
  all: try (by left).
  all: right; eexists; split_and!; try done.
  all: eexists; split; [done |]; split_and!; try done.
  all: eexists; split;
    [rewrite <- (Nat.add_0_r (length (cacheObjs e))) at 1;
     by rewrite alter_app_r | done].
Qed.

(** The outcomes of [select]: it throws, and then only the schema cache
    may have changed; or it returns a handle, every trigger's pair being
    in the schema cache. *)
Lemma select_cases query values keySelector triggers minInterval e :
  let r := select query values keySelector triggers minInterval e in
  (∃ sc x, r = (with_schemaCache e sc, inl x))
  ∨ ∃ s query_text name ts,
      query = Str query_text ∧ keySelector = Fn name ∧ triggers = Arr ts
      ∧ r.2 = inr s
      ∧ (∀ t, t ∈ ts →
           ∃ d, triggerDatabase_of (settings_database e) t = Some d
                ∧ in_schema (_schemaCache r.1) (d, table t))
      ∧ subscribed e r.1 (identity_key query_text values name) ts s.
Proof.
  cbn zeta.
  destruct (arguments_pass_or_not query values keySelector triggers
              minInterval) as [Hok|Hbad]; cycle 1.
  { destruct (select_invalid _ _ _ _ _ e Hbad) as (msg & _ & ->).
    left. exists (_schemaCache e), (Error msg).
    by rewrite with_schemaCache_id. }
  destruct Hok as (Hq & Hv & [name ->] & (t & ts & ->) & Hm).
  destruct query as [| | |query_text| | |]; try done.
  rewrite select_valid by done. rewrite engine_bind_unfold.
  destruct (include_triggers_run (t :: ts) e)
    as (sc & r & -> & _ & Hall & _).
  destruct r as [x|[]]; [left; by exists sc, x |].
  specialize (Hall eq_refl).
  destruct (select_rest_cases query_text values name (t :: ts) minInterval
              (with_schemaCache e sc)) as [->|(s & Hs & Hsc & Hsub)].
  { left. by exists sc, TypeError. }
  right. exists s, query_text, name, (t :: ts).
  split_and!; try done. by rewrite Hsc.
Qed.

(** ** The registry stays consistent *)

Lemma live_select_allocated e s :
  live_selects_ok e → s ∈ _select e → (s < length (selectObjs e))%nat.
Proof.
  intros [_ Hlive] Hs. destruct (Hlive s Hs) as (sel & _ & Hsel & _).
  by eapply lookup_lt_Some.
Qed.

Lemma consistent_subscribed e e' key ts s :
  registered_caches_ok e → live_selects_ok e →
  subscribed e e' key ts s →
  registered_caches_ok e' ∧ live_selects_ok e'.
Proof.
  intros Hreg Hlive (-> & _ & _ & Hsel & qc & Hobjs & Hcase).
  pose proof (live_select_allocated e) as Halloc.
  assert (∀ s', s' ∈ _select e → s' ≠ length (selectObjs e)) as Hfresh.
  { intros s' Hs' ->. apply (Halloc _ Hlive) in Hs'. lia. }
  assert (selectObjs e' !! length (selectObjs e) = Some (mkSelect qc ts))
    as Hnew.
  { rewrite Hobjs. by apply list_lookup_middle. }
  assert (∀ s' sel, selectObjs e !! s' = Some sel →
                    selectObjs e' !! s' = Some sel) as Hold.
  { intros s' sel Hs'. rewrite Hobjs. by apply lookup_app_l_Some. }
  destruct Hlive as [Hnd Hlive].
  assert (NoDup (_select e')) as Hnd'.
  { rewrite Hsel. apply NoDup_app. split_and!; [done | | apply NoDup_singleton].
    intros s' Hs' ->%list_elem_of_singleton. by eapply Hfresh. }
  destruct (_queryCache e !! key) as [found|] eqn:Hkey.
  - destruct Hcase as (-> & Hqc & Hcs).
    destruct (Hreg key found Hkey) as (c0 & Hc0 & Hk0 & Hne0 & Hnd0 & Hs0).
    split; [| split; [done |]].
    + intros key' qc' Hk'. rewrite Hqc in Hk'.
      destruct (Hreg key' qc' Hk') as (c & Hc & Hck & Hne & Hndc & Hs).
      destruct (decide (qc' = found)) as [->|Hqne].
      * exists (attach (length (selectObjs e)) c).
        rewrite Hcs, list_lookup_alter_eq, Hc. split_and!; try done.
        -- simpl. by destruct (selects c).
        -- simpl. apply NoDup_app. split_and!; [done | | apply NoDup_singleton].
           intros s' Hs' ->%list_elem_of_singleton.
           apply Hs in Hs' as [Hs' _]. by eapply Hfresh.
        -- simpl. intros s' [Hs'|Hs'%list_elem_of_singleton]%elem_of_app;
             [| subst s'].
           ++ destruct (Hs s' Hs') as (Hin & sel & Hsel' & Hq). split.
              ** rewrite Hsel. apply elem_of_app. by left.
              ** exists sel. split; [by apply Hold | done].
           ++ split; [rewrite Hsel; apply elem_of_app; right; by left |].
              by eexists.
      * exists c. rewrite Hcs, list_lookup_alter_ne by done.
        split_and!; try done.
        intros s' Hs'. destruct (Hs s' Hs') as (Hin & sel & Hsel' & Hq). split.
        -- rewrite Hsel. apply elem_of_app. by left.
        -- exists sel. split; [by apply Hold | done].
    + intros s' Hs'. rewrite Hsel in Hs'.
      apply elem_of_app in Hs' as [Hs'|Hs'%list_elem_of_singleton];
        [| subst s'].
      * destruct (Hlive s' Hs') as (sel & c & Hsel' & Hc & Hin & Hk).
        destruct (decide (queryCache sel = found)) as [Hq|Hq].
        -- exists sel, (attach (length (selectObjs e)) c).
           rewrite Hcs, Hq, list_lookup_alter_eq, <- Hq, Hc, Hqc.
           split_and!; [by apply Hold | done | | done].
           simpl. apply elem_of_app. by left.
        -- exists sel, c. rewrite Hcs, list_lookup_alter_ne, Hqc by done.
           split_and!; [by apply Hold | done | done | done].
      * exists (mkSelect found ts), (attach (length (selectObjs e)) c0).
        rewrite Hcs. simpl. rewrite list_lookup_alter_eq, Hc0, Hqc, Hk0.
        split_and!; [done | done | | done].
        apply elem_of_app. right. by left.
  - destruct Hcase as (-> & Hqc & c0 & Hcs & Hk0 & Hs0).
    assert (cacheObjs e' !! length (cacheObjs e) = Some c0) as Hc0.
    { rewrite Hcs. by apply list_lookup_middle. }
    split; [| split; [done |]].
    + intros key' qc' Hk'. rewrite Hqc in Hk'.
      apply lookup_insert_Some in Hk' as [[<- <-]|[Hkne Hk']].
      * exists c0. rewrite Hs0. split_and!; try done.
        -- apply NoDup_singleton.
        -- intros s' ->%list_elem_of_singleton. split.
           ++ rewrite Hsel. apply elem_of_app. right. by left.
           ++ by eexists.
      * destruct (Hreg key' qc' Hk') as (c & Hc & Hck & Hne & Hndc & Hs).
        exists c. rewrite Hcs. split_and!; try done.
        -- by apply lookup_app_l_Some.
        -- intros s' Hs'. destruct (Hs s' Hs') as (Hin & sel & Hsel' & Hq).
           split; [rewrite Hsel; apply elem_of_app; by left |].
           exists sel. split; [by apply Hold | done].
    + intros s' Hs'. rewrite Hsel in Hs'.
      apply elem_of_app in Hs' as [Hs'|Hs'%list_elem_of_singleton];
        [| subst s'].
      * destruct (Hlive s' Hs') as (sel & c & Hsel' & Hc & Hin & Hk).
        exists sel, c. rewrite Hcs, Hqc.
        split_and!; [by apply Hold | by apply lookup_app_l_Some | done |].
        rewrite lookup_insert_ne; [done |].
        intros Heq. rewrite <- Heq in Hk. congruence.
      * exists (mkSelect (length (cacheObjs e)) ts), c0.
        simpl. rewrite Hqc, Hk0, Hs0, lookup_insert_eq.
        split_and!; [done | done | by left | done].
Qed.

(** [_removeSelect] on a live handle of a consistent object. *)
Lemma removeSelect_live e s :
  registered_caches_ok e → live_selects_ok e → s ∈ _select e →
  ∃ index sel c i,
    indexOf s (_select e) = Some index
    ∧ selectObjs e !! s = Some sel
    ∧ cacheObjs e !! queryCache sel = Some c
    ∧ _queryCache e !! queryCacheKey c = Some (queryCache sel)
    ∧ indexOf s (selects c) = Some i
    ∧ _removeSelect s e
      = (mkEngine (settings_database e) (slaveSettings e)
           (delete index (_select e))
           (if decide (length (delete i (selects c)) = 0%nat)
            then delete (queryCacheKey c) (_queryCache e)
            else _queryCache e)
           (_schemaCache e)
           (<[queryCache sel := detach i c]> (cacheObjs e))
           (selectObjs e),
         inr true).
Proof.
  intros Hreg [Hnd Hlive] Hs.
  destruct (Hlive s Hs) as (sel & c & Hsel & Hc & Hin & Hk).
  destruct (indexOf s (_select e)) as [index|] eqn:Hindex; cycle 1.
  { by apply indexOf_None in Hindex. }
  destruct (indexOf s (selects c)) as [i|] eqn:Hi; cycle 1.
  { by apply indexOf_None in Hi. }
  exists index, sel, c, i. split_and!; try done.
  unfold _removeSelect, set_select, set_cacheObjs, set_queryCache, this.
  unfold_st. cbv beta zeta. rewrite Hindex. simpl.
  rewrite Hsel. simpl. rewrite Hc. simpl. rewrite Hi.
  unfold detach. by destruct (decide _).
Qed.

Lemma removeSelect_absent e s :
  s ∉ _select e → _removeSelect s e = (e, inr false).
Proof.
  intros Hs%indexOf_None. unfold _removeSelect, this. unfold_st.
  by rewrite Hs.
Qed.

Lemma consistent_removeSelect e s :
  registered_caches_ok e → live_selects_ok e →
  registered_caches_ok (_removeSelect s e).1
  ∧ live_selects_ok (_removeSelect s e).1.
Proof.
  intros Hreg Hlive.
  destruct (decide (s ∈ _select e)) as [Hs|Hs]; cycle 1.
  { by rewrite removeSelect_absent. }
  destruct (removeSelect_live e s Hreg Hlive Hs)
    as (index & sel & c & i & Hindex & Hsel & Hc & Hk & Hi & ->).
  destruct Hlive as [Hnd Hlive]. cbn [fst].
  apply indexOf_lookup in Hindex, Hi.
  destruct (Hreg _ _ Hk) as (c' & Hc' & _ & _ & Hndc & Hsc).
  assert (c' = c) as -> by congruence.
  assert (∀ s', s' ∈ delete index (_select e) ↔ s' ∈ _select e ∧ s' ≠ s)
    as Hdel by (intros; by apply elem_of_delete_NoDup).
  assert (∀ s', s' ∈ delete i (selects c) ↔ s' ∈ selects c ∧ s' ≠ s)
    as Hdelc by (intros; by apply elem_of_delete_NoDup).
  assert (queryCache sel < length (cacheObjs e))%nat as Hlt
    by (by eapply lookup_lt_Some).
  split.
  - intros key' qc'. cbn [_queryCache cacheObjs _select selectObjs].
    intros Hk'.
    assert (_queryCache e !! key' = Some qc'
            ∧ (qc' = queryCache sel → delete i (selects c) ≠ [])) as [Hk0 Hne].
    { destruct (decide (length (delete i (selects c)) = 0%nat)) as [Hz|Hz].
      - apply lookup_delete_Some in Hk' as [Hkne Hk']. split; [done |].
        intros ->. destruct (Hreg _ _ Hk') as (c1 & Hc1 & Hck1 & _).
        assert (c1 = c) as -> by congruence. done.
      - split; [done |]. intros _ Hnil. by rewrite Hnil in Hz. }
    destruct (Hreg _ _ Hk0) as (c1 & Hc1 & Hck1 & Hne1 & Hnd1 & Hs1).
    destruct (decide (qc' = queryCache sel)) as [->|Hqne].
    + assert (c1 = c) as -> by congruence.
      exists (detach i c). rewrite list_lookup_insert_eq by done.
      split_and!; try done.
      * by apply Hne.
      * simpl. eapply sublist_NoDup; [exact Hndc | apply sublist_delete].
      * simpl. intros s' [Hs' Hne']%Hdelc.
        destruct (Hs1 s' Hs') as (Hin' & sel' & Hsel1 & Hq1).
        split; [by apply Hdel |]. by exists sel'.
    + exists c1. rewrite list_lookup_insert_ne by done.
      split_and!; try done.
      intros s' Hs'. destruct (Hs1 s' Hs') as (Hin' & sel' & Hsel1 & Hq1).
      split; [| by exists sel'].
      apply Hdel. split; [done |]. intros ->. congruence.
  - split; [eapply sublist_NoDup; [exact Hnd | apply sublist_delete] |].
    cbn [_queryCache cacheObjs _select selectObjs].
    intros s' [Hs' Hne']%Hdel.
    destruct (Hlive s' Hs') as (sel' & c1 & Hsel1 & Hc1 & Hin1 & Hk1).
    destruct (decide (queryCache sel' = queryCache sel)) as [Hq|Hq].
    + assert (c1 = c) as -> by congruence.
      exists sel', (detach i c). rewrite Hq, list_lookup_insert_eq by done.
      split_and!; [done | done | by apply Hdelc |].
      simpl. rewrite decide_False; [by rewrite <- Hq |].
      intros Hz. apply length_zero_iff_nil in Hz.
      assert (s' ∈ delete i (selects c)) as Hin' by (by apply Hdelc).
      rewrite Hz in Hin'. by apply not_elem_of_nil in Hin'.
    + exists sel', c1. rewrite list_lookup_insert_ne by done.
      split_and!; [done | done | done |].
      destruct (decide _); [| done].
      rewrite lookup_delete_ne; [done |]. intros Heq.
      rewrite Heq in Hk. congruence.
Qed.

Lemma consistent_reachable e :
  reachable e → registered_caches_ok e ∧ live_selects_ok e.
Proof.
  induction 1 as [d ss|e q v k tr m Hr [Hreg Hlive]|e s Hr [Hreg Hlive]].
  - split; [intros key qc Hk; simpl in Hk; by rewrite lookup_empty in Hk |].
    split; [apply NoDup_nil_2 | by intros s ?%not_elem_of_nil].
  - destruct (select_cases q v k tr m e)
      as [(sc & x & ->)|(s & qt & name & ts & _ & _ & _ & _ & _ & Hsub)].
    + done.
    + by eapply consistent_subscribed.
  - by apply consistent_removeSelect.
Qed.

(** The registry is consistent at every reachable state: a registered
    key leads to a cache that carries this key and has at least one
    subscription, all its subscriptions being live, distinct and bound
    to it; the live subscriptions are distinct objects, each attached to
    its cache, which is registered under its key; and no two keys lead
    to the same cache. *)
Theorem registry_is_consistent e :
  reachable e →
  registered_caches_ok e ∧ live_selects_ok e
  ∧ ∀ key1 key2 qc, _queryCache e !! key1 = Some qc →
                    _queryCache e !! key2 = Some qc → key1 = key2.
Proof.
  intros [Hreg Hlive]%consistent_reachable. split_and!; [done | done |].
  intros key1 key2 qc H1 H2.
  destruct (Hreg _ _ H1) as (c1 & Hc1 & Hk1 & _).
  destruct (Hreg _ _ H2) as (c2 & Hc2 & Hk2 & _).
  congruence.
Qed.

(** [_removeSelect] at a reachable state: for a handle that is not live
    it returns [false] and changes nothing; for a live handle it returns
    [true], the handle is live no more while the other live handles stay,
    and a second removal of the handle returns [false] and changes
    nothing. *)
Theorem removeSelect_detaches_a_live_handle e s :
  reachable e →
  let r := _removeSelect s e in
  if decide (s ∈ _select e) then
    r.2 = inr true
    ∧ (∀ s', s' ∈ _select r.1 ↔ s' ∈ _select e ∧ s' ≠ s)
    ∧ _removeSelect s r.1 = (r.1, inr false)
  else r = (e, inr false).
Proof.
  intros [Hreg Hlive]%consistent_reachable. cbn zeta.
  destruct (decide (s ∈ _select e)) as [Hs|Hs];
    [| by apply removeSelect_absent].
  destruct (removeSelect_live e s Hreg Hlive Hs)
    as (index & sel & c & i & Hindex & _ & _ & _ & _ & ->).
  cbn [fst snd]. apply indexOf_lookup in Hindex. destruct Hlive as [Hnd _].
  assert (∀ s', s' ∈ delete index (_select e) ↔ s' ∈ _select e ∧ s' ≠ s)
    as Hdel by (intros; by apply elem_of_delete_NoDup).
  split_and!; [done | done |].
  apply removeSelect_absent. cbn [_select]. rewrite Hdel. by intros [_ ?].
Qed.

(** Subscribing and unsubscribing: when [select] returns a handle at a
    reachable state, [_removeSelect] of that handle returns [true] and
    leaves the list of live subscriptions and the registry of caches as
    they were before the [select] (the schema cache keeps the pairs the
    [select] added). *)
Theorem select_then_removeSelect_restores_the_registry
    query values keySelector triggers minInterval e e1 s :
  reachable e →
  select query values keySelector triggers minInterval e = (e1, inr s) →
  let r := _removeSelect s e1 in
  r.2 = inr true
  ∧ _select r.1 = _select e
  ∧ _queryCache r.1 = _queryCache e.
Proof.
  intros [Hreg Hlive]%consistent_reachable Hrun. cbn zeta.
  destruct (select_cases query values keySelector triggers minInterval e)
    as [(sc & x & Hthrow)|(s' & qt & name & ts & _ & _ & _ & Hs & _ & Hsub)].
  { by rewrite Hrun in Hthrow. }
  rewrite Hrun in Hs, Hsub. cbn [fst snd] in Hs, Hsub. injection Hs as <-.
  destruct (consistent_subscribed _ _ _ _ _ Hreg Hlive Hsub)
    as [Hreg1 Hlive1].
  destruct Hsub as (Hfresh & _ & _ & Hsel & qc & Hobjs & Hcase).
  assert (s ∈ _select e1) as Hin.
  { rewrite Hsel. apply elem_of_app. right. by left. }
  destruct (removeSelect_live e1 s Hreg1 Hlive1 Hin)
    as (index & sel & c & i & Hindex & Hsel1 & Hc & Hk & Hi & ->).
  cbn [fst snd _select _queryCache].
  apply indexOf_lookup in Hindex, Hi.
  assert (index = length (_select e)) as ->.
  { eapply NoDup_lookup; [apply Hlive1 | done |].
    rewrite Hsel. by apply list_lookup_middle. }
  assert (sel = mkSelect qc ts) as ->.
  { rewrite Hobjs, Hfresh in Hsel1.
    rewrite list_lookup_middle in Hsel1 by done. congruence. }
  simpl in Hc, Hk.
  split_and!; [done | by rewrite Hsel, delete_fresh |].
  destruct (Hreg1 _ _ Hk) as (c' & Hc' & _ & _ & Hndc & _).
  assert (c' = c) as -> by congruence.
  destruct (_queryCache e !! identity_key qt values name)
    as [found|] eqn:Hkey.
  - destruct Hcase as (-> & Hqc & Hcs).
    destruct (Hreg _ _ Hkey) as (c0 & Hc0 & _ & Hne0 & _).
    rewrite Hcs, list_lookup_alter_eq, Hc0 in Hc. injection Hc as <-.
    simpl in *.
    assert (i = length (selects c0)) as ->.
    { eapply NoDup_lookup; [exact Hndc | done |]. by apply list_lookup_middle. }
    rewrite delete_fresh, decide_False; [done |].
    by destruct (selects c0).
  - destruct Hcase as (-> & Hqc & c0 & Hcs & Hk0 & Hs0).
    rewrite Hcs, list_lookup_middle in Hc by done. injection Hc as <-.
    rewrite Hs0 in Hi |- *. destruct i as [|i]; [| done]. simpl.
    rewrite Hk0, Hqc. by apply delete_insert_id.
Qed.

(** ** The schema cache *)

Lemma include_pair_lists_ok d tb sc :
  schema_lists_ok sc → schema_lists_ok (include_pair d tb sc).
Proof.
  intros Hok d' tables. unfold include_pair.
  destruct (sc !! d) as [tables0|] eqn:Hd.
  - destruct (decide (tb ∈ tables0)) as [Hin|Hin]; [apply Hok |].
    intros [[<- <-]|[_ Hl]]%lookup_insert_Some; [| by apply (Hok d')].
    destruct (Hok d tables0 Hd) as [Hnd Hne]. split.
    + apply NoDup_app. split_and!; [done | | apply NoDup_singleton].
      by intros x Hx ->%list_elem_of_singleton.
    + by destruct tables0.
  - intros [[<- <-]|[_ Hl]]%lookup_insert_Some; [| by apply (Hok d')].
    split; [apply NoDup_singleton | done].
Qed.

Lemma include_pair_present d tb sc :
  in_schema sc (d, tb) → include_pair d tb sc = sc.
Proof.
  intros (tables & Hl & Hin). simpl in *. unfold include_pair.
  rewrite Hl. by rewrite decide_True.
Qed.

(** The loop of lines 151-161 keeps the lists of the schema cache
    without duplicates, and leaves the schema cache as it is when every
    trigger's pair is already there. *)
Lemma include_triggers_schema ts e sc0 :
  ∃ sc r,
    forEach include_trigger ts () (with_schemaCache e sc0)
    = (with_schemaCache e sc, r)
    ∧ (schema_lists_ok sc0 → schema_lists_ok sc)
    ∧ ((∀ t, t ∈ ts →
          ∃ d, triggerDatabase_of (settings_database e) t = Some d
               ∧ in_schema sc0 (d, table t))
       → sc = sc0).
Proof.
  revert sc0. induction ts as [|t ts IH]; intros sc0.
  { by exists sc0, (inr ()). }
  cbn [forEach]. rewrite engine_bind_unfold, include_trigger_run.
  destruct (triggerDatabase_of (settings_database e) t) as [d|] eqn:Hd;
    cycle 1.
  { by exists sc0, (inl (Error "no database selected on trigger")). }
  destruct (decide (sc0 !! d = None ∧ d ∈ Object_prototype_names))
    as [Hin|Hno].
  { by exists sc0, (inl TypeError). }
  destruct (IH (include_pair d (table t) sc0))
    as (sc & r & Hrun & Hok & Hsame).
  rewrite Hrun. exists sc, r. split_and!; [done | |].
  - intros H0. by apply Hok, include_pair_lists_ok.
  - intros Hall.
    destruct (Hall t) as (d' & Hd' & Hin); [by left |].
    assert (d' = d) as -> by congruence.
    rewrite (include_pair_present _ _ _ Hin) in Hsame.
    apply Hsame. intros t' Ht'. apply Hall. by right.
Qed.

(** The schema cache after a call of [select]: as it was, or as the loop
    over the triggers left it. *)
Lemma select_schemaCache query values keySelector triggers minInterval e :
  _schemaCache (select query values keySelector triggers minInterval e).1
  = _schemaCache e
  ∨ ∃ ts, triggers = Arr ts
          ∧ _schemaCache
              (select query values keySelector triggers minInterval e).1
            = _schemaCache (forEach include_trigger ts () e).1.
Proof.
  destruct (arguments_pass_or_not query values keySelector triggers
              minInterval) as [Hok|Hbad]; cycle 1.
  { destruct (select_invalid _ _ _ _ _ e Hbad) as (msg & _ & ->). by left. }
  destruct Hok as (Hq & Hv & [name ->] & (t & ts & ->) & Hm).
  destruct query as [| | |query_text| | |]; try done.
  right. exists (t :: ts). split; [done |].
  rewrite select_valid by done. rewrite engine_bind_unfold.
  destruct (include_triggers_run (t :: ts) e) as (sc & r & -> & _).
  destruct r as [x|[]]; [done |]. cbn [fst].
  by destruct (select_rest_cases query_text values name (t :: ts) minInterval
                 (with_schemaCache e sc)) as [->|(s & _ & -> & _)].
Qed.

(** At every reachable state the lists of tables of the schema cache
    have no duplicate and none is empty: [select] pushes a table only
    when [indexOf] did not find it. *)
Theorem schema_lists_have_no_duplicates e :
  reachable e → schema_lists_ok (_schemaCache e).
Proof.
  induction 1 as [d ss|e q v k tr m Hr IH|e s Hr IH].
  - intros d' tables Hl. simpl in Hl. by rewrite lookup_empty in Hl.
  - destruct (select_schemaCache q v k tr m e) as [->|(ts & _ & ->)];
      [done |].
    destruct (include_triggers_schema ts e (_schemaCache e))
      as (sc & r & Hrun & Hok & _).
    rewrite with_schemaCache_id in Hrun. rewrite Hrun. by apply Hok.
  - by rewrite (proj1 (proj2 (proj2 (removeSelect_effect s e)))).
Qed.

(** [select] adds no pair twice: when every trigger's pair is already in
    the schema cache, the call leaves the schema cache as it is,
    whatever its other arguments and whether it returns or throws. *)
Theorem select_leaves_a_covering_schema_cache
    query values keySelector ts minInterval e :
  (∀ t, t ∈ ts →
     ∃ d, triggerDatabase_of (settings_database e) t = Some d
          ∧ in_schema (_schemaCache e) (d, table t)) →
  _schemaCache (select query values keySelector (Arr ts) minInterval e).1
  = _schemaCache e.
Proof.
  intros Hall.
  destruct (select_schemaCache query values keySelector (Arr ts)
              minInterval e) as [->|(ts' & [= <-] & ->)]; [done |].
  destruct (include_triggers_schema ts e (_schemaCache e))
    as (sc & r & Hrun & _ & Hsame).
  rewrite with_schemaCache_id in Hrun. rewrite Hrun. by apply Hsame.
Qed.

(** ** A trigger that cannot be included *)

(** [select] stops at the first trigger it cannot include.  With
    arguments that pass the checks and a list of triggers in which the
    triggers before [t] have databases that are no names of inherited
    properties: when [t] has no database, its own or the default one, the
    call throws "no database selected on trigger"; when the database of
    [t] is the name of an inherited property ([toString],
    [constructor], ...) that is no entry of the schema cache, the call
    throws a TypeError.  In both cases the schema cache has by then taken
    the pairs of the triggers listed before [t], and nothing else of the
    object has changed. *)
Theorem select_throws_at_the_first_trigger_without_database
    query_text values name ts1 t ts2 minInterval e :
  (typeof values = "object" ∨ values = Undefined) →
  (typeof minInterval = "number" ∨ minInterval = Undefined) →
  (∀ t', t' ∈ ts1 →
     ∃ d, triggerDatabase_of (settings_database e) t' = Some d
          ∧ d ∉ Object_prototype_names) →
  let r := select (Str query_text) values (Fn name)
             (Arr (ts1 ++ t :: ts2)) minInterval e in
  let included :=
    with_schemaCache e
      (include_triggers (settings_database e) ts1 (_schemaCache e)) in
  (triggerDatabase_of (settings_database e) t = None →
   r = (included, inl (Error "no database selected on trigger")))
  ∧ (∀ d, triggerDatabase_of (settings_database e) t = Some d →
          d ∈ Object_prototype_names → _schemaCache e !! d = None →
          r = (included, inl TypeError)).
Proof.
  intros Hv Hm Hok. cbv zeta.
  assert (select (Str query_text) values (Fn name) (Arr (ts1 ++ t :: ts2))
            minInterval e
          = (forEach include_trigger (ts1 ++ t :: ts2) ();;
             select_rest query_text values name (ts1 ++ t :: ts2)
               minInterval) (with_schemaCache e (_schemaCache e))) as ->.
  { rewrite with_schemaCache_id.
    destruct (ts1 ++ t :: ts2) as [|t0 ts0] eqn:Hts; [by destruct ts1 |].
    by apply select_valid. }
  rewrite engine_bind_unfold, include_triggers_until by done. cbv zeta.
  split.
  - by intros ->.
  - intros d -> Hin Hnone.
    rewrite decide_True; [done |]. split; [| done].
    clear -Hok Hin Hnone. revert Hnone. generalize (_schemaCache e).
    induction ts1 as [|t1 ts1 IH]; intros sc0 Hnone; [done |].
    unfold include_triggers. cbn [foldl].
    destruct (Hok t1) as (d1 & -> & Hout); [by left |].
    apply IH.
    + intros t' Ht'. apply Hok. by right.
    + unfold include_pair. destruct (sc0 !! d1) as [tables|] eqn:Hd1.
      * destruct (decide _); [done |]. rewrite lookup_insert_ne; [done |].
        by intros ->.
      * rewrite lookup_insert_ne; [done |]. by intros ->.
Qed.

End with_externals.

Lemma registry_is_consistent_witness :
  registered_caches_ok example_subscribed
  ∧ live_selects_ok example_subscribed
  ∧ ∀ key1 key2 qc, _queryCache example_subscribed !! key1 = Some qc →
                    _queryCache example_subscribed !! key2 = Some qc →
                    key1 = key2.
Proof.
  apply (@registry_is_consistent example_externals).
  apply reachable_select, reachable_new.
Defined.

Lemma removeSelect_detaches_a_live_handle_witness :
  (@_removeSelect 0 example_subscribed).2 = inr true
  ∧ (∀ s', s' ∈ _select example_unsubscribed
           ↔ s' ∈ _select example_subscribed ∧ s' ≠ 0%nat)
  ∧ _removeSelect 0 example_unsubscribed
    = (example_unsubscribed, inr false).
Proof.
  pose proof (@removeSelect_detaches_a_live_handle example_externals
                example_subscribed 0) as Hthm.
  cbn zeta in Hthm. rewrite decide_True in Hthm.
  - apply Hthm. apply reachable_select, reachable_new.
  - vm_compute. apply list_elem_of_here.
Defined.

Lemma select_then_removeSelect_restores_the_registry_witness :
  (@_removeSelect 0 example_subscribed).2 = inr true
  ∧ _select example_unsubscribed = _select (new None)
  ∧ _queryCache example_unsubscribed = _queryCache (new None).
Proof.
  apply (@select_then_removeSelect_restores_the_registry example_externals
           (Str "SELECT 1") Undefined (Fn "k") (Arr [example_trigger])
           (Num 50) (new None) example_subscribed 0).
  - apply reachable_new.
  - reflexivity.
Defined.

Lemma schema_lists_have_no_duplicates_witness :
  schema_lists_ok (_schemaCache example_subscribed)
  ∧ _schemaCache example_subscribed !! "d" = Some ["t"].
Proof.
  split; [| reflexivity].
  apply (@schema_lists_have_no_duplicates example_externals).
  apply reachable_select, reachable_new.
Defined.

Lemma select_leaves_a_covering_schema_cache_witness :
  _schemaCache
    (@select example_externals (Str "SELECT 2") Null (Fn "k")
       (Arr [example_trigger]) (Num 1) example_subscribed).1
  = _schemaCache example_subscribed.
Proof.
  apply (@select_leaves_a_covering_schema_cache example_externals).
  intros t Ht%list_elem_of_singleton. subst t.
  exists "d". split; [reflexivity |].
  exists ["t"]. split; [reflexivity | apply list_elem_of_here].
Defined.

Lemma select_throws_at_the_first_trigger_without_database_witness :
  @select example_externals (Str "SELECT 1") Undefined (Fn "k")
    (Arr [example_trigger; mkTrigger None "u"; mkTrigger (Some "e") "v"])
    (Num 50) (new None)
  = (mkEngine None None [] ∅ {["d" := ["t"]]} [] [],
     inl (Error "no database selected on trigger"))
  ∧ @select example_externals (Str "SELECT 1") Undefined (Fn "k")
      (Arr [example_trigger; mkTrigger (Some "toString") "u"])
      (Num 50) (new None)
    = (mkEngine None None [] ∅ {["d" := ["t"]]} [] [], inl TypeError).
Proof.
  split.
  - apply (@select_throws_at_the_first_trigger_without_database
             example_externals "SELECT 1" Undefined "k" [example_trigger]
             (mkTrigger None "u") [mkTrigger (Some "e") "v"] (Num 50)
             (new None)).
    + by right.
    + by left.
    + intros t' Ht'%list_elem_of_singleton. subst t'.
      exists "d". split; [reflexivity |].
      unfold Object_prototype_names. set_solver.
    + reflexivity.
  - refine (proj2 (@select_throws_at_the_first_trigger_without_database
                     example_externals "SELECT 1" Undefined "k"
                     [example_trigger] (mkTrigger (Some "toString") "u") []
                     (Num 50) (new None) _ _ _) "toString" _ _ _).
    + by right.
    + by left.
    + intros t' Ht'%list_elem_of_singleton. subst t'.
      exists "d". split; [reflexivity |].
      unfold Object_prototype_names. set_solver.
    + reflexivity.
    + unfold Object_prototype_names. set_solver.
    + reflexivity.
Defined.

End RegistryFacts.

(* ===================================================================== *)
(** * Part IX.  pause and resume                                         *)
(* ===================================================================== *)

Module BackendFacts.
Import Js LiveMysql LiveMysqlFacts RegistryFacts Backend.

Section with_externals.
Context `{Externals}.

(** Subscriptions made while paused take effect on resume.  With
    [zongji] connected: after [pause] the schema that
    [zongjiSettings.includeSchema] refers to is empty, and a [select]
    does not change it, since it writes to the schema cache, which is
    another object by then; after [resume] it is the schema cache again,
    with the pairs it had before the pause and the pairs of the triggers
    of the [select], when that returned.  [zongji.set] was called twice,
    with the empty schema and then with the schema cache, and [resume]
    called [invalidate] once on each registered cache. *)
Theorem subscriptions_made_while_paused_are_published_on_resume
    c calls query values keySelector triggers minInterval :
  zongji c = Some calls →
  let paused := (pause c).1 in
  let after :=
    on_engine (select query values keySelector triggers minInterval)
      paused in
  let resumed := (resume after.1).1 in
  published paused = ∅
  ∧ published after.1 = ∅
  ∧ published resumed = _schemaCache (engine_of after.1)
  ∧ (∀ pair, in_schema (_schemaCache (engine_of c)) pair →
             in_schema (published resumed) pair)
  ∧ (∀ s ts t, after.2 = inr s → triggers = Arr ts → t ∈ ts →
       ∃ d, triggerDatabase_of (settings_database (engine_of c)) t = Some d
            ∧ in_schema (published resumed) (d, table t))
  ∧ zongji resumed
    = Some (calls ++ [∅; _schemaCache (engine_of after.1)])
  ∧ invalidated resumed
    = invalidated c
      ⊎ list_to_set_disj
          (map_to_list (_queryCache (engine_of after.1))).*2.
Proof.
  intros Hz. cbn zeta.
  unfold pause, resume, on_engine, set_includeSchema, zongji_set,
    invalidate_all.
  unfold_st. simpl. rewrite Hz. simpl.
  destruct (select query values keySelector triggers minInterval
              (engine_of c)) as [e' r] eqn:Hsel.
  simpl. unfold published. simpl.
  pose proof (select_effect query values keySelector triggers minInterval
                (engine_of c)) as (_ & Hmono & _).
  pose proof (select_cases query values keySelector triggers minInterval
                (engine_of c)) as Hcases.
  cbn zeta in Hmono, Hcases. rewrite Hsel in Hmono, Hcases.
  simpl in Hmono, Hcases.
  split_and!; try done.
  - intros s ts t -> -> Ht.
    destruct Hcases as [(sc & x & [=])|(s' & qt & name & ts' & _ & _ & [= <-]
                                          & _ & Hall & _)].
    by apply Hall.
  - by rewrite <- app_assoc.
Qed.

End with_externals.

Lemma subscriptions_made_while_paused_are_published_on_resume_witness :
  published
    (resume
       (on_engine
          (@select example_externals (Str "SELECT 1") Undefined (Fn "k")
             (Arr [example_trigger]) (Num 50))
          (pause (mkConnection (new None) TheSchemaCache (Some []) ∅)).1).1).1
  !! "d" = Some ["t"]
  ∧ published
      (on_engine
         (@select example_externals (Str "SELECT 1") Undefined (Fn "k")
            (Arr [example_trigger]) (Num 50))
         (pause (mkConnection (new None) TheSchemaCache (Some []) ∅)).1).1
    = ∅.
Proof.
  pose proof (@subscriptions_made_while_paused_are_published_on_resume
                example_externals
                (mkConnection (new None) TheSchemaCache (Some []) ∅) []
                (Str "SELECT 1") Undefined (Fn "k") (Arr [example_trigger])
                (Num 50) eq_refl) as Hthm.
  cbn zeta in Hthm. destruct Hthm as (_ & Hpaused & Hpub & _).
  split; [| exact Hpaused]. rewrite Hpub. reflexivity.
Defined.

End BackendFacts.

(* ===================================================================== *)
(** * Part X.  getQueryDetails                                           *)
(* ===================================================================== *)

Module QueryDetailsFacts.
Import Js QueryDetails.

(** ** The placeholders *)

Lemma starts_with_digit_replaced s :
  starts_with_digit (replace_placeholders false s) = starts_with_digit s.
Proof.
  destruct s as [|c s]; [done |]. cbn [replace_placeholders andb].
  destruct (is_dollar c && starts_with_digit s) eqn:Hd; [| done].
  apply andb_true_iff in Hd as [Hc _]. simpl.
  unfold is_dollar in Hc. apply Nat.eqb_eq in Hc.
  unfold is_digit. by rewrite Hc.
Qed.

Lemma no_placeholder_left s skipping :
  has_placeholder (replace_placeholders skipping s) = false.
Proof.
  revert skipping. induction s as [|c s IH]; intros skipping; [done |].
  cbn [replace_placeholders].
  destruct (skipping && is_digit c); [apply IH |].
  destruct (is_dollar c && starts_with_digit s) eqn:Hd.
  - simpl. apply IH.
  - cbn [has_placeholder]. by rewrite starts_with_digit_replaced, Hd, IH.
Qed.

Lemma without_placeholder_unchanged s :
  has_placeholder s = false → replace_placeholders false s = s.
Proof.
  induction s as [|c s IH]; [done |]. cbn [has_placeholder].
  intros [Hd Hs]%orb_false_iff. cbn [replace_placeholders andb].
  by rewrite Hd, IH.
Qed.

Lemma starts_with_digit_app a b :
  starts_with_digit b = false →
  starts_with_digit (a +:+ b) = starts_with_digit a.
Proof. intros Hb. by destruct a. Qed.

(** A text that no digit starts is replaced on its own, whatever comes
    before it. *)
Lemma replace_placeholders_app skipping a b :
  starts_with_digit b = false →
  replace_placeholders skipping (a +:+ b)
  = replace_placeholders skipping a +:+ replace_placeholders false b.
Proof.
  intros Hb. revert skipping. induction a as [|c a IH]; intros skipping.
  - destruct b as [|c b]; [by destruct skipping |].
    simpl in *. by rewrite Hb, andb_false_r.
  - change (String c a +:+ b) with (String c (a +:+ b)).
    cbn [replace_placeholders].
    rewrite (starts_with_digit_app a b Hb), !IH.
    destruct (skipping && is_digit c); [done |].
    by destruct (is_dollar c && starts_with_digit a).
Qed.

Lemma digits_skipped digits rest :
  all_digits digits = true → starts_with_digit rest = false →
  replace_placeholders true (digits +:+ rest)
  = replace_placeholders false rest.
Proof.
  intros Hd Hr. induction digits as [|c digits IH].
  - destruct rest as [|c rest]; [done |]. simpl in *. by rewrite Hr.
  - apply andb_true_iff in Hd as [Hc Hd].
    change (String c digits +:+ rest) with (String c (digits +:+ rest)).
    cbn [replace_placeholders]. rewrite Hc. by apply IH.
Qed.

(** The placeholders of the query the view is created from.  A dollar
    sign with the digits that follow it is replaced by [NULL]: for a
    text [before], one digit or more, and a text [rest] that no digit
    starts, the query [before$digits rest] becomes the replaced [before],
    then [NULL], then the replaced [rest].  A query without placeholder
    is taken as it is (a dollar sign that no digit follows stays), and
    no placeholder is left in the result. *)
Theorem placeholders_are_replaced before digits rest query :
  (digits ≠ "" → all_digits digits = true →
   starts_with_digit rest = false →
   nullifiedQuery (before +:+ "$" +:+ digits +:+ rest)
   = nullifiedQuery before +:+ "NULL" +:+ nullifiedQuery rest)
  ∧ (has_placeholder query = false → nullifiedQuery query = query)
  ∧ has_placeholder (nullifiedQuery query) = false.
Proof.
  split_and!;
    [| apply without_placeholder_unchanged | apply no_placeholder_left].
  intros Hne Hd Hr. unfold nullifiedQuery.
  rewrite replace_placeholders_app by done. f_equal.
  destruct digits as [|c digits]; [done |].
  apply andb_true_iff in Hd as [Hc Hd].
  change ("$" +:+ String c digits +:+ rest)
    with (String "$" (String c (digits +:+ rest))).
  cbn [replace_placeholders andb starts_with_digit].
  replace (is_dollar "$") with true by done. rewrite Hc. cbn [andb].
  f_equal. by apply digits_skipped.
Qed.

Lemma placeholders_are_replaced_witness :
  nullifiedQuery "SELECT * FROM t WHERE a = $1 AND b < $23 AND c = '$'"
  = "SELECT * FROM t WHERE a = NULL AND b < NULL AND c = '$'".
Proof.
  apply (eq_trans
           (proj1 (placeholders_are_replaced
                     "SELECT * FROM t WHERE a = " "1"
                     " AND b < $23 AND c = '$'" "")
              ltac:(discriminate) eq_refl eq_refl)).
  reflexivity.
Defined.

(** ** The temporary view *)

Section with_client.
Context `{Client}.

Lemma performQuery_run st d sent :
  performQuery st (d, sent)
  = ((answer st d).1, sent ++ [st], (answer st d).2).
Proof. unfold performQuery. by destruct (answer st d). Qed.

(** The temporary view is created first, whatever follows, and it is
    dropped exactly when the three statements before the DROP are
    answered, the third (is the view updatable?) with at least one row:
    when one of them is rejected, or the third has no row, the call
    throws and no DROP is sent, so the view is left behind. *)
Theorem the_view_is_dropped_when_the_lookups_are_answered suffix query d :
  let r := getQueryDetails suffix query (d, []) in
  let viewName := "tmp_view_" +:+ suffix in
  head r.1.2 = Some (CreateView viewName (nullifiedQuery query))
  ∧ (DropView viewName ∈ r.1.2 ↔ lookups_answered suffix query d)
  ∧ (¬ lookups_answered suffix query d → ∃ e, r.2 = inl e).
Proof.
  cbn zeta. unfold lookups_answered. cbv zeta.
  destruct (getQueryDetails suffix query (d, [])) as [[d' sent] out] eqn:Hrun.
  cbn [fst snd]. unfold getQueryDetails in Hrun. cbv zeta in Hrun.
  set (viewName := "tmp_view_" +:+ suffix) in *.
  assert (∀ sent0 : list statement,
            DropView viewName ∈ sent0 →
            sent0 = [CreateView viewName (nullifiedQuery query)]
            ∨ sent0 = [CreateView viewName (nullifiedQuery query);
                       TablesOfView viewName]
            ∨ sent0 = [CreateView viewName (nullifiedQuery query);
                       TablesOfView viewName; IsUpdatable viewName] →
            False) as Hnot.
  { intros sent0 Hin [-> | [-> | ->]];
      repeat (apply elem_of_cons in Hin as [Hin|Hin]; [discriminate |]);
      by apply elem_of_nil in Hin. }
  rewrite CommonFacts.bind_unfold, performQuery_run in Hrun.
  destruct (answer (CreateView viewName (nullifiedQuery query)) d)
    as [d1 [e1|r1]] eqn:H1; cbn [fst snd app] in Hrun.
  { injection Hrun as <- <- <-. split_and!; [done | | by eauto]. split.
    - intros Hin. destruct (Hnot _ Hin). by left.
    - by intros (? & ? & ? & ? & ? & ? & ? & ? & _). }
  rewrite CommonFacts.bind_unfold, performQuery_run in Hrun.
  destruct (answer (TablesOfView viewName) d1) as [d2 [e2|r2]] eqn:H2;
    cbn [fst snd app] in Hrun.
  { injection Hrun as <- <- <-. split_and!; [done | | by eauto]. split.
    - intros Hin. destruct (Hnot _ Hin). right. by left.
    - intros (? & ? & ? & ? & ? & ? & ? & ? & ? & _). simplify_eq.
      congruence. }
  rewrite CommonFacts.bind_unfold, performQuery_run in Hrun.
  destruct (answer (IsUpdatable viewName) d2) as [d3 [e3|r3]] eqn:H3;
    cbn [fst snd app] in Hrun.
  { injection Hrun as <- <- <-. split_and!; [done | | by eauto]. split.
    - intros Hin. destruct (Hnot _ Hin). right. by right.
    - intros (? & ? & ? & ? & ? & ? & ? & ? & ? & ?). simplify_eq.
      congruence. }
  rewrite CommonFacts.bind_unfold in Hrun.
  destruct r3 as [|first rest]; cbn [head or_throw] in Hrun.
  { injection Hrun as <- <- <-. split_and!; [done | | by eauto]. split.
    - intros Hin. destruct (Hnot _ Hin). right. by right.
    - intros (? & ? & ? & ? & ? & ? & ? & ? & ? & ?). simplify_eq.
      congruence. }
  unfold mret at 1, ST_ret at 1 in Hrun.
  assert (∃ d1' r1' d2' r2' d3' first' rest',
            (d1, inr r1) = (d1', @inr exn _ r1')
            ∧ answer (TablesOfView viewName) d1' = (d2', inr r2')
            ∧ answer (IsUpdatable viewName) d2'
              = (d3', inr (first' :: rest')))
    as Hyes by (by eexists _, _, _, _, _, _, _).
  assert (∀ sent' : list statement,
            DropView viewName
            ∈ [CreateView viewName (nullifiedQuery query);
               TablesOfView viewName; IsUpdatable viewName;
               DropView viewName] ++ sent') as Hin.
  { intros sent'. do 3 apply list_elem_of_further. apply list_elem_of_here. }
  assert (∃ sent',
            sent = [CreateView viewName (nullifiedQuery query);
                    TablesOfView viewName; IsUpdatable viewName;
                    DropView viewName] ++ sent') as [sent' ->].
  { rewrite CommonFacts.bind_unfold, performQuery_run in Hrun.
    destruct (answer (DropView viewName) d3) as [d4 [e4|r4]];
      cbn [fst snd app] in Hrun.
    { injection Hrun as <- <- <-. by exists []. }
    destruct (bool_decide _).
    - rewrite CommonFacts.bind_unfold, CommonFacts.bind_unfold,
        performQuery_run in Hrun.
      destruct (answer (PrimaryKeys _) d4) as [d5 [e5|r5]];
        cbn [fst snd app] in Hrun.
      + injection Hrun as <- <- <-. by eexists [_].
      + injection Hrun as <- <- <-. by eexists [_].
    - injection Hrun as <- <- <-. by exists []. }
  split_and!; [done | | by intros []]. split; [done |].
  intros _. apply Hin.
Qed.

End with_client.

Lemma the_view_is_dropped_when_the_lookups_are_answered_witness :
  (@getQueryDetails example_client "abc" "SELECT * FROM t WHERE id = $1"
     ([], [])).1.2
  = [CreateView "tmp_view_abc" "SELECT * FROM t WHERE id = NULL";
     TablesOfView "tmp_view_abc"; IsUpdatable "tmp_view_abc";
     DropView "tmp_view_abc"; PrimaryKeys (VStr "t")]
  ∧ (DropView "tmp_view_abc"
     ∈ (@getQueryDetails example_client "abc"
          "SELECT * FROM t WHERE id = $1" ([], [])).1.2
     ↔ @lookups_answered example_client "abc"
         "SELECT * FROM t WHERE id = $1" [])
  ∧ ∃ e, (@getQueryDetails example_failing_client "abc"
            "SELECT * FROM t WHERE id = $1" ([], [])).2 = inl e.
Proof.
  split; [reflexivity |]. split.
  - apply (@the_view_is_dropped_when_the_lookups_are_answered
             example_client "abc" "SELECT * FROM t WHERE id = $1" []).
  - apply (@the_view_is_dropped_when_the_lookups_are_answered
             example_failing_client "abc" "SELECT * FROM t WHERE id = $1"
             []).
    intros (d1 & r1 & d2 & r2 & d3 & first & rest & _ & _ & Hno).
    discriminate Hno.
Defined.

End QueryDetailsFacts.
